(** * NPC voice pipeline: the voice manager and its synthesis worker

    A shallow embedding of [NPCVoiceManager] (the class with [init],
    [speakSentence], [drainQueue] and [stopPlayback]) and of the worker script
    [tts-worker.ts], followed by the properties of the speech pipeline.

    JavaScript runs one job at a time. Every job of the manager is a total
    function on a [World]: the fields of the manager object together with what
    the job can touch outside it (the audio device, the worker's inbox, the
    console, the microtask queue). An [async] method is cut at its [await]: the
    part before it is the call, the part after it is a job of its own.

    After the voice pipeline come three smaller classes of the client, each
    in a module of its own: [NPCMemoryManager] (the conversation history),
    [CharacterLoaderSingleton] (the cache of character models) and
    [StaticBatcher] (the batching of static meshes). *)

From Stdlib Require Import ZArith String Floats Uint63 Lia.
From stdpp Require Import base option list gmap.

Local Open Scope Z_scope.

(** ** Numbers *)

(** A JavaScript number is a binary64 float. Sample rates and durations are
    kept as floats. Lengths and request ids are integers that binary64 holds
    exactly, and are kept in [Z]; [num_of_Z] reads one back as a float. *)
Definition num_of_Z (n : Z) : float := PrimFloat.of_uint63 (Uint63.of_Z n).

(** The largest value up to which every non-negative integer is a binary64
    number: 2^53. *)
Definition MAX_EXACT : Z := 2 ^ 53.

(** [n + 1] in binary64, for the integers [0 .. 2^53] a counter started at 0
    runs through: exact below [2^53]; at [2^53] the sum is a tie between
    [2^53] and [2^53 + 2] and rounds to the even one, [2^53]. *)
Definition js_succ (n : Z) : Z := if n <? MAX_EXACT then n + 1 else n.

(** [array.length] of a typed array. *)
Definition js_length {A} (l : list A) : Z := Z.of_nat (length l).

(** ** Messages between the manager and the worker *)

(** [type WorkerMessage = InitMessage | GenerateMessage]. *)
Inductive WorkerMessage :=
| InitMessage
| GenerateMessage (id : Z) (text voiceId : string) (speed : option float).

(** What the worker posts back. *)
Inductive WorkerReply :=
| init_progress (progress : float) (status : string)
| init_done
| init_error (error : string)
| generate_done (id : Z) (audio : list float) (sampleRate : float)
| generate_error (id : Z) (error : string).

(** ** Exceptions *)

Inductive JsError :=
| Error (message : string)
| TypeError (message : string)
| DOMException (name : string).

Inductive Completion (A : Type) :=
| Normal (a : A)
| Throw (e : JsError).
Arguments Normal {A} a.
Arguments Throw {A} e.

(** ** The audio platform *)

(** The calls into Web Audio that can throw, as the platform decides:
    the [AudioContext] constructor, [createBuffer] (a length of 0 or a sample
    rate out of the supported range) and [stop] on a source node. *)
Record Platform := mkPlatform {
  AudioContext_throws : option JsError;
  createBuffer_throws : Z -> Z -> float -> option JsError;
  stop_throws : nat -> option JsError
}.

Record AudioContext := mkAudioContext { ctx_sampleRate : float }.

Record AudioBuffer := mkAudioBuffer {
  numberOfChannels : Z;
  buffer_length : Z;
  buffer_sampleRate : float;
  channelData0 : list float
}.

Definition TTS_SAMPLE_RATE : float := 24000%float.

(** ** Promises and the microtask queue *)

Inductive PromiseState :=
| Pending
| Fulfilled
| Rejected (reason : JsError).

(** [interface PendingRequest { resolve; reject }]: the two functions settle
    the promise [generateAudio] returned. Its one awaiter is the
    [speakSentence] call that made the request; [awaiter] names the promise
    that call returned to its own caller. *)
Record PendingRequest := mkPending { awaiter : nat }.

(** How the promise of [generateAudio] was settled. *)
Inductive Settled :=
| resolved (audio : list float) (sampleRate : float)
| rejected (reason : JsError).

(** A queued continuation: the rest of [_init] after its [await] (with the
    rejection reason of the awaited promise, if any), or the rest of a
    [speakSentence] call after its [await]. *)
Inductive Job :=
| resume_init (failure : option JsError)
| resume_speak (p : nat) (r : Settled).

(** The worker's [onmessage] property: the closure [_init] installs (it holds
    [onProgress], supplied or not), then [this.handleMessage.bind(this)]. *)
Inductive OnMessage :=
| init_closure (onProgress : bool)
| handleMessage_bound.

(** ** The world *)

(** The fields of [NPCVoiceManager]. [worker] is [null] or the Worker, seen
    through its [onmessage] property; [currentSource] is [null] or the source
    node, named by its creation index; [initPromise] is [null] or the promise
    of [_init], seen through its state. *)
Record Manager := mkManager {
  worker : option OnMessage;
  audioCtx : option AudioContext;
  playbackQueue : list AudioBuffer;
  isPlaying : bool;
  currentSource : option nat;
  nextId : Z;
  pending : gmap Z PendingRequest;
  initialized : bool;
  initPromise : option PromiseState
}.

(** The audio device: how many source nodes were created, and the calls of
    [start] and [stop] and the [ended] events in the order they happened. *)
Record Device := mkDevice {
  nodes : nat;
  started : list (nat * AudioBuffer);
  stopped : list nat;
  ended : list nat
}.

(** The rest of the page: Workers constructed, messages posted to the worker,
    [console.warn] calls, [onProgress] calls. *)
Record Host := mkHost {
  spawned : nat;
  posted : list WorkerMessage;
  warnings : list JsError;
  progressed : list (float * string)
}.

(** The job machinery: the promise [_init] awaits, the microtask queue, the
    number of [speakSentence] promises made, and how each one that is settled
    was settled. *)
Record Loop := mkLoop {
  handshake : PromiseState;
  jobs : list Job;
  promises : nat;
  settled : list (nat * Completion float)
}.

Record World := mkWorld {
  platform : Platform;
  mgr :> Manager;
  dev :> Device;
  host :> Host;
  loop :> Loop
}.

(** Field updates. *)
Definition in_mgr (f : Manager -> Manager) (w : World) : World :=
  match w with mkWorld pf m d h l => mkWorld pf (f m) d h l end.
Definition in_dev (f : Device -> Device) (w : World) : World :=
  match w with mkWorld pf m d h l => mkWorld pf m (f d) h l end.
Definition in_host (f : Host -> Host) (w : World) : World :=
  match w with mkWorld pf m d h l => mkWorld pf m d (f h) l end.
Definition in_loop (f : Loop -> Loop) (w : World) : World :=
  match w with mkWorld pf m d h l => mkWorld pf m d h (f l) end.

Definition set_worker (v : option OnMessage) : World -> World :=
  in_mgr (fun m => match m with
                   | mkManager _ ac pq ip cs ni pe ini ipr =>
                       mkManager v ac pq ip cs ni pe ini ipr
                   end).
Definition set_audioCtx (v : option AudioContext) : World -> World :=
  in_mgr (fun m => match m with
                   | mkManager wk _ pq ip cs ni pe ini ipr =>
                       mkManager wk v pq ip cs ni pe ini ipr
                   end).
Definition set_playbackQueue (v : list AudioBuffer) : World -> World :=
  in_mgr (fun m => match m with
                   | mkManager wk ac _ ip cs ni pe ini ipr =>
                       mkManager wk ac v ip cs ni pe ini ipr
                   end).
Definition set_isPlaying (v : bool) : World -> World :=
  in_mgr (fun m => match m with
                   | mkManager wk ac pq _ cs ni pe ini ipr =>
                       mkManager wk ac pq v cs ni pe ini ipr
                   end).
Definition set_currentSource (v : option nat) : World -> World :=
  in_mgr (fun m => match m with
                   | mkManager wk ac pq ip _ ni pe ini ipr =>
                       mkManager wk ac pq ip v ni pe ini ipr
                   end).
Definition set_nextId (v : Z) : World -> World :=
  in_mgr (fun m => match m with
                   | mkManager wk ac pq ip cs _ pe ini ipr =>
                       mkManager wk ac pq ip cs v pe ini ipr
                   end).
Definition set_pending (v : gmap Z PendingRequest) : World -> World :=
  in_mgr (fun m => match m with
                   | mkManager wk ac pq ip cs ni _ ini ipr =>
                       mkManager wk ac pq ip cs ni v ini ipr
                   end).
Definition set_initialized (v : bool) : World -> World :=
  in_mgr (fun m => match m with
                   | mkManager wk ac pq ip cs ni pe _ ipr =>
                       mkManager wk ac pq ip cs ni pe v ipr
                   end).
Definition set_initPromise (v : option PromiseState) : World -> World :=
  in_mgr (fun m => match m with
                   | mkManager wk ac pq ip cs ni pe ini _ =>
                       mkManager wk ac pq ip cs ni pe ini v
                   end).

Definition new_node : World -> World :=
  in_dev (fun d => match d with mkDevice n st sp en => mkDevice (S n) st sp en end).
Definition log_start (src : nat) (b : AudioBuffer) : World -> World :=
  in_dev (fun d => match d with
                   | mkDevice n st sp en => mkDevice n (st ++ [(src, b)]) sp en
                   end).
Definition log_stop (src : nat) : World -> World :=
  in_dev (fun d => match d with mkDevice n st sp en => mkDevice n st (sp ++ [src]) en end).
Definition log_ended (src : nat) : World -> World :=
  in_dev (fun d => match d with mkDevice n st sp en => mkDevice n st sp (en ++ [src]) end).

Definition new_Worker : World -> World :=
  in_host (fun h => match h with mkHost n po wa pr => mkHost (S n) po wa pr end).
Definition postMessage (m : WorkerMessage) : World -> World :=
  in_host (fun h => match h with mkHost n po wa pr => mkHost n (po ++ [m]) wa pr end).
Definition console_warn (e : JsError) : World -> World :=
  in_host (fun h => match h with mkHost n po wa pr => mkHost n po (wa ++ [e]) pr end).
Definition call_onProgress (p : float) (s : string) : World -> World :=
  in_host (fun h => match h with
                   | mkHost n po wa pr => mkHost n po wa (pr ++ [(p, s)])
                   end).

Definition set_handshake (v : PromiseState) : World -> World :=
  in_loop (fun l => match l with mkLoop _ jo pr se => mkLoop v jo pr se end).
Definition set_jobs (v : list Job) : World -> World :=
  in_loop (fun l => match l with mkLoop hs _ pr se => mkLoop hs v pr se end).
Definition queueMicrotask (j : Job) : World -> World :=
  in_loop (fun l => match l with mkLoop hs jo pr se => mkLoop hs (jo ++ [j]) pr se end).
Definition new_promise : World -> World :=
  in_loop (fun l => match l with mkLoop hs jo pr se => mkLoop hs jo (S pr) se end).
Definition settle (p : nat) (c : Completion float) : World -> World :=
  in_loop (fun l => match l with
                   | mkLoop hs jo pr se => mkLoop hs jo pr (se ++ [(p, c)])
                   end).

(** A manager as its constructor leaves it, on a page where nothing happened. *)
Definition new_manager : Manager :=
  mkManager None None [] false None 0 ∅ false None.

Definition init_world (pf : Platform) : World :=
  mkWorld pf new_manager (mkDevice 0 [] [] []) (mkHost 0 [] [] [])
    (mkLoop Pending [] 0 []).

(** ** Code that can throw *)

(** A computation on the world that ends normally with a value or throws;
    the world keeps what was done before the throw. *)
Definition M (A : Type) : Type := World -> Completion A * World.

Definition ret {A} (a : A) : M A := fun w => (Normal a, w).
Definition throw {A} (e : JsError) : M A := fun w => (Throw e, w).
Definition bind {A B} (m : M A) (k : A -> M B) : M B :=
  fun w => match m w with
           | (Normal a, w') => k a w'
           | (Throw e, w') => (Throw e, w')
           end.
(** [try { m } catch (err) { h err }]. *)
Definition try_catch {A} (m : M A) (h : JsError -> M A) : M A :=
  fun w => match m w with
           | (Normal a, w') => (Normal a, w')
           | (Throw e, w') => h e w'
           end.
(** A statement that cannot throw. *)
Definition exec (f : World -> World) : M unit := fun w => (Normal tt, f w).

Notation "'do' x <- m ; k" := (bind m (fun x => k))
  (at level 10, x name, m at level 100, k at level 200).
Notation "'do_' m ; k" := (bind m (fun _ => k))
  (at level 10, m at level 100, k at level 200).
Notation "w |> f" := (f w) (at level 45, left associativity, only parsing).

Definition is_null {A} (o : option A) : bool :=
  match o with None => true | Some _ => false end.
Definition is_empty {A} (l : list A) : bool :=
  match l with [] => true | _ :: _ => false end.

(** ** [NPCVoiceManager]: initialization *)

(** [_init] up to its [await]: the Worker is constructed, the closure that
    handles the init-phase messages is installed, [{ type: 'init' }] is posted,
    and the promise the closure will settle is pending. *)
Definition _init (onProgress : bool) (w : World) : World :=
  w |> new_Worker
    |> set_handshake Pending
    |> set_worker (Some (init_closure onProgress))
    |> postMessage InitMessage.

(** What the promise [init] returns is resolved with: [undefined], or
    [this.initPromise], whose outcome it then takes. *)
Inductive InitResult :=
| with_undefined
| with_initPromise.

Definition init (onProgress : bool) (w : World) : InitResult * World :=
  if initialized w then (with_undefined, w)
  else match initPromise w with
       | Some _ => (with_initPromise, w)
       | None => (with_initPromise, w |> _init onProgress |> set_initPromise (Some Pending))
       end.

(** [resolve()] and [reject(reason)] of the promise [_init] awaits: the first
    call settles it and queues the rest of [_init]; later calls do nothing. *)
Definition settle_handshake (failure : option JsError) (w : World) : World :=
  match handshake w with
  | Pending =>
      w |> set_handshake (match failure with None => Fulfilled | Some e => Rejected e end)
        |> queueMicrotask (resume_init failure)
  | _ => w
  end.

(** The closure installed by [_init] as [worker.onmessage]. *)
Definition init_onmessage (onProgress : bool) (msg : WorkerReply) (w : World) : World :=
  match msg with
  | init_progress p s => if onProgress then call_onProgress p s w else w
  | init_done =>
      w |> set_initialized true
        |> set_worker (Some handleMessage_bound)
        |> settle_handshake None
  | init_error e => settle_handshake (Some (Error e)) w
  | _ => w
  end.

(** [_init] after its [await]: a rejection of the awaited promise rejects
    [_init]; otherwise the audio context is constructed. *)
Definition _init_resume (failure : option JsError) (w : World) : World :=
  match failure with
  | Some e => set_initPromise (Some (Rejected e)) w
  | None =>
      match AudioContext_throws (platform w) with
      | Some e => set_initPromise (Some (Rejected e)) w
      | None =>
          w |> set_audioCtx (Some (mkAudioContext TTS_SAMPLE_RATE))
            |> set_initPromise (Some Fulfilled)
      end
  end.

Definition isReady (w : World) : bool := initialized w.

(** ** [NPCVoiceManager]: requests and responses *)

Definition handleMessage (msg : WorkerReply) (w : World) : World :=
  match msg with
  | generate_done id audio sampleRate =>
      match pending w !! id with
      | Some req =>
          w |> set_pending (delete id (pending w))
            |> queueMicrotask (resume_speak (awaiter req) (resolved audio sampleRate))
      | None => w
      end
  | generate_error id error =>
      match pending w !! id with
      | Some req =>
          w |> set_pending (delete id (pending w))
            |> queueMicrotask (resume_speak (awaiter req) (rejected (Error error)))
      | None => w
      end
  | _ => w
  end.

(** The promise [generateAudio] returns: rejected on the spot, or pending
    under the request id it was filed under. *)
Inductive GeneratePromise :=
| rejected_promise (reason : JsError)
| requested (id : Z).

(** [p] is the [speakSentence] call that will await the promise. *)
Definition generateAudio (p : nat) (text voiceId : string) (w : World)
  : GeneratePromise * World :=
  match worker w with
  | None => (rejected_promise (Error "TTS worker not initialized"), w)
  | Some _ =>
      let id := nextId w in
      (requested id,
       w |> set_nextId (js_succ id)
         |> set_pending (<[id := mkPending p]> (pending w))
         |> postMessage (GenerateMessage id text voiceId None))
  end.

(** ** [NPCVoiceManager]: playback *)

Definition drainQueue (w : World) : World :=
  match isPlaying w, playbackQueue w, audioCtx w with
  | false, buffer :: rest, Some _ =>
      let source := nodes w in
      w |> set_isPlaying true
        |> set_playbackQueue rest
        |> new_node
        |> set_currentSource (Some source)
        |> log_start source buffer
  | _, _, _ => w
  end.

(** [source.onended], the same closure on every source [drainQueue] makes. *)
Definition onended (w : World) : World :=
  w |> set_isPlaying false |> set_currentSource None |> drainQueue.

Definition source_stop (src : nat) : M unit :=
  fun w => match stop_throws (platform w) src with
           | Some e => (Throw e, log_stop src w)
           | None => (Normal tt, log_stop src w)
           end.

Definition stopPlayback : M unit :=
  do_ exec (set_playbackQueue []);
  do_ (fun w =>
         match currentSource w with
         | Some src =>
             (do_ try_catch (source_stop src) (fun _ => ret tt);
              exec (set_currentSource None)) w
         | None => ret tt w
         end);
  exec (set_isPlaying false).

(** ** [NPCVoiceManager]: speaking *)

(** [this.audioCtx.createBuffer(channels, length, sampleRate)]: a silent
    buffer. *)
Definition createBuffer (channels len : Z) (sampleRate : float) : M AudioBuffer :=
  fun w => match audioCtx w with
           | None => (Throw (TypeError "audioCtx is null"), w)
           | Some _ =>
               match createBuffer_throws (platform w) channels len sampleRate with
               | Some e => (Throw e, w)
               | None =>
                   (Normal (mkAudioBuffer channels len sampleRate
                              (repeat 0%float (Z.to_nat len))), w)
               end
           end.

(** [buffer.getChannelData(0).set(audio)]: the samples are copied over the
    start of the channel; a source longer than the channel is a RangeError. *)
Definition channel_set (audio : list float) (b : AudioBuffer) : M AudioBuffer :=
  if (length audio <=? length (channelData0 b))%nat
  then ret (mkAudioBuffer (numberOfChannels b) (buffer_length b) (buffer_sampleRate b)
              (audio ++ drop (length audio) (channelData0 b)))
  else throw (Error "RangeError: offset is out of bounds").

Definition await (r : Settled) : M (list float * float) :=
  match r with
  | resolved audio sampleRate => ret (audio, sampleRate)
  | rejected e => throw e
  end.

(** What a [speakSentence] call has done when it gives control back. *)
Inductive SpeakStatus :=
| returns (c : Completion float)
| suspended.

(** [speakSentence] up to its [await]; [p] is the promise it returns. *)
Definition speakSentence (p : nat) (text voiceId : string) (w : World)
  : SpeakStatus * World :=
  if is_null (audioCtx w) || negb (initialized w) then (returns (Normal 0%float), w)
  else match generateAudio p text voiceId w with
       | (rejected_promise e, w') => (suspended, queueMicrotask (resume_speak p (rejected e)) w')
       | (requested _, w') => (suspended, w')
       end.

(** [speakSentence] from its [await] on: the [try] block and its [catch]. *)
Definition speakSentence_resume (r : Settled) : M float :=
  try_catch
    (do res <- await r;
     let audio := fst res in
     let sampleRate := snd res in
     let duration := (num_of_Z (js_length audio) / sampleRate)%float in
     do buffer <- createBuffer 1 (js_length audio) sampleRate;
     do buffer <- channel_set audio buffer;
     do_ exec (fun w => set_playbackQueue (playbackQueue w ++ [buffer]) w);
     do_ exec drainQueue;
     ret duration)
    (fun err => do_ exec (console_warn err); ret 0%float).

(** ** The event loop *)

Inductive Event :=
| call_init (onProgress : bool)
| call_speakSentence (text voiceId : string)
| call_stopPlayback
| message (msg : WorkerReply)
| microtask
| ended_event (src : nat).

Definition run_job (j : Job) (w : World) : World :=
  match j with
  | resume_init failure => _init_resume failure w
  | resume_speak p r =>
      match speakSentence_resume r w with
      | (c, w') => settle p c w'
      end
  end.

Definition step (e : Event) (w : World) : World :=
  match e with
  | call_init onProgress => snd (init onProgress w)
  | call_speakSentence text voiceId =>
      let p := promises w in
      match speakSentence p text voiceId (new_promise w) with
      | (returns c, w') => settle p c w'
      | (suspended, w') => w'
      end
  | call_stopPlayback => snd (stopPlayback w)
  | message msg =>
      match worker w with
      | Some (init_closure onProgress) => init_onmessage onProgress msg w
      | Some handleMessage_bound => handleMessage msg w
      | None => w
      end
  | microtask =>
      match jobs w with
      | [] => w
      | j :: rest => run_job j (set_jobs rest w)
      end
  | ended_event src => onended (log_ended src w)
  end.

(** When an event can happen. The manager's methods can be called from any
    job. A message from the worker and an [ended] event are tasks: they run
    when no microtask is left. A message needs a Worker to come from. A source
    fires [ended] once, after it was started: when its buffer has run out or
    after [stop] was called on it. *)
Definition enabled (e : Event) (w : World) : bool :=
  match e with
  | call_init _ | call_speakSentence _ _ | call_stopPlayback => true
  | message _ => negb (is_null (worker w)) && is_empty (jobs w)
  | microtask => negb (is_empty (jobs w))
  | ended_event src =>
      bool_decide (src ∈ (started w).*1) && bool_decide (src ∉ ended w)
      && is_empty (jobs w)
  end.

Inductive reachable : World -> Prop :=
| reachable_init pf : reachable (init_world pf)
| reachable_step e w : reachable w -> enabled e w = true -> reachable (step e w).

(** Running a list of events, as long as each one can happen. *)
Fixpoint run (es : list Event) (w : World) : option World :=
  match es with
  | [] => Some w
  | e :: es' => if enabled e w then run es' (step e w) else None
  end.

(** The sources sounding on the device: started, not stopped, not ended. *)
Definition playing (w : World) : list nat :=
  filter (fun src => (src ∉ stopped w) ∧ (src ∉ ended w)) (started w).*1.

(** The clips in the order [start] was called on them. *)
Definition clips_started (w : World) : list AudioBuffer := (started w).*2.

(** The ids of the [generate] requests posted, in order. *)
Definition generate_id (m : WorkerMessage) : option Z :=
  match m with
  | GenerateMessage id _ _ _ => Some id
  | InitMessage => None
  end.
Definition generate_ids (w : World) : list Z := omap generate_id (posted w).

(** ** The worker script, [tts-worker.ts] *)

Module TtsWorker.

(** The loaded model, [KokoroTTS]; what it computes is not modelled. *)
Inductive KokoroTTS := kokoro.

(** The [info] object handed to [progress_callback]: [progress] when it is
    a number, [status] when it is not null or undefined. *)
Record ProgressInfo := mkInfo {
  info_progress : option float;
  info_status : option string
}.

(** A call of [tts.generate] that has not settled: the message's id, its
    text, and the options [voice] and [speed]. *)
Record Synthesis := mkSynthesis {
  syn_id : Z;
  syn_text : string;
  syn_voice : string;
  syn_speed : float
}.

(** The module variable [tts], the messages posted to the page, the calls
    of [KokoroTTS.from_pretrained] and of [tts.generate] that have not
    settled, and the number of calls of [tts.generate] made so far. *)
Record State := mkState {
  tts : option KokoroTTS;
  outbox : list WorkerReply;
  loading : nat;
  synthesizing : list Synthesis;
  generate_calls : nat
}.

Definition start : State := mkState None [] 0 [] 0.

Definition post (m : WorkerReply) (s : State) : State :=
  mkState (tts s) (outbox s ++ [m]) (loading s) (synthesizing s) (generate_calls s).

(** [self.onmessage] up to its first [await]. *)
Definition onmessage (msg : WorkerMessage) (s : State) : State :=
  match msg with
  | InitMessage =>
      mkState (tts s) (outbox s) (S (loading s)) (synthesizing s) (generate_calls s)
  | GenerateMessage id text voiceId speed =>
      match tts s with
      | None => post (generate_error id "TTS not initialized") s
      | Some _ =>
          mkState (tts s) (outbox s) (loading s)
            (synthesizing s ++ [mkSynthesis id text voiceId (default 1%float speed)])
            (S (generate_calls s))
      end
  end.

Definition progress_callback (info : ProgressInfo) (s : State) : State :=
  let progress :=
    match info_progress info with
    | Some p => (p / 100)%float
    | None => 0%float
    end in
  let status := default "loading"%string (info_status info) in
  post (init_progress progress status) s.

(** The init branch after [await KokoroTTS.from_pretrained(...)]: the model
    is stored and [init_done] posted, or the [catch] posts [init_error]
    with [String(err)]. *)
Definition loaded (r : KokoroTTS + string) (s : State) : State :=
  match r with
  | inl model =>
      post init_done
        (mkState (Some model) (outbox s) (pred (loading s)) (synthesizing s)
           (generate_calls s))
  | inr err =>
      post (init_error err)
        (mkState (tts s) (outbox s) (pred (loading s)) (synthesizing s)
           (generate_calls s))
  end.

(** The generate branch after [await tts.generate(...)], for the [i]-th
    call that has not settled: the result's [audio] and [sampling_rate], or
    the [catch] with [String(err)]. *)
Definition generated (i : nat) (r : list float * float + string) (s : State) : State :=
  match synthesizing s !! i with
  | None => s
  | Some job =>
      let s' := mkState (tts s) (outbox s) (loading s) (delete i (synthesizing s))
                  (generate_calls s) in
      match r with
      | inl (audio, sampleRate) => post (generate_done (syn_id job) audio sampleRate) s'
      | inr err => post (generate_error (syn_id job) err) s'
      end
  end.

Inductive Event :=
| receive (msg : WorkerMessage)
| progress (info : ProgressInfo)
| load_settled (r : KokoroTTS + string)
| generate_settled (i : nat) (r : list float * float + string).

Definition step (e : Event) (s : State) : State :=
  match e with
  | receive msg => onmessage msg s
  | progress info => progress_callback info s
  | load_settled r => loaded r s
  | generate_settled i r => generated i r s
  end.

Definition enabled (e : Event) (s : State) : bool :=
  match e with
  | receive _ => true
  | progress _ | load_settled _ => bool_decide (0 < loading s)%nat
  | generate_settled i _ => bool_decide (i < length (synthesizing s))%nat
  end.

Inductive reachable : State -> Prop :=
| reachable_start : reachable start
| reachable_step e s : reachable s -> enabled e s = true -> reachable (step e s).

Definition is_init_done (m : WorkerReply) : bool :=
  match m with init_done => true | _ => false end.

(** Whether the worker has announced the end of its initialization. *)
Definition announced (s : State) : bool := existsb is_init_done (outbox s).

End TtsWorker.

(** ** Awaited calls *)

(** What the worker answers to one request. *)
Inductive Reply :=
| reply_done (audio : list float) (sampleRate : float)
| reply_error (error : string).

Definition reply_message (id : Z) (r : Reply) : WorkerReply :=
  match r with
  | reply_done audio sampleRate => generate_done id audio sampleRate
  | reply_error error => generate_error id error
  end.

(** [ended] events, one after the other. *)
Definition deliver_ended (srcs : list nat) (w : World) : World :=
  foldl (fun w src => step (ended_event src) w) w srcs.

(** [await manager.speakSentence(text, voiceId)] with a worker that answers
    the request: the call, the [ended] events that arrive while the caller
    waits, the worker's message for the id the call took, and the rest of the
    call. *)
Definition speak_and_await (text voiceId : string) (during : list nat) (r : Reply)
    (w : World) : World :=
  let id := nextId w in
  w |> step (call_speakSentence text voiceId)
    |> deliver_ended during
    |> step (message (reply_message id r))
    |> step microtask.

(** A caller that awaits every call before it makes the next, on a device
    that fires [ended] events while the caller waits and in between calls. *)
Inductive Action :=
| say (text voiceId : string) (during : list nat) (r : Reply)
| finish (src : nat).

Definition act (w : World) (a : Action) : World :=
  match a with
  | say text voiceId during r => speak_and_await text voiceId during r w
  | finish src => step (ended_event src) w
  end.

Definition play (script : list Action) (w : World) : World := foldl act w script.

(** The clip [speakSentence] builds from an answer, if it builds one. *)
Definition clip_of (pf : Platform) (a : Action) : list AudioBuffer :=
  match a with
  | say _ _ _ (reply_done audio sampleRate) =>
      match createBuffer_throws pf 1 (js_length audio) sampleRate with
      | None => [mkAudioBuffer 1 (js_length audio) sampleRate audio]
      | Some _ => []
      end
  | _ => []
  end.

Definition clips_of (pf : Platform) (script : list Action) : list AudioBuffer :=
  flat_map (clip_of pf) script.

(** Initialization is over, the device exists, no microtask is queued, and
    the requests not answered yet are those of [table]. *)
Definition waiting_for (table : gmap Z PendingRequest) (w : World) : Prop :=
  initialized w = true ∧ is_null (audioCtx w) = false ∧
  worker w = Some handleMessage_bound ∧ jobs w = [] ∧ pending w = table.

(** No request is under way. *)
Definition at_rest (w : World) : Prop := waiting_for ∅ w.

(** Worlds reached when the only [ended] events are those of the source that
    is the current one when they fire. *)
Definition of_current (e : Event) (w : World) : bool :=
  match e with
  | ended_event src =>
      match currentSource w with
      | Some cur => Nat.eqb cur src
      | None => false
      end
  | _ => true
  end.

Inductive reachable_current : World -> Prop :=
| reachable_current_init pf : reachable_current (init_world pf)
| reachable_current_step e w :
    reachable_current w -> enabled e w = true -> of_current e w = true ->
    reachable_current (step e w).

(** ** Invariants *)

(** Before the first [init] no Worker was constructed and nothing is under
    way; from the first [init] on exactly one was. *)
Definition init_inv (w : World) : Prop :=
  match initPromise w with
  | None => spawned w = 0%nat /\ worker w = None /\ jobs w = [] /\ audioCtx w = None
  | Some _ => spawned w = 1%nat
  end.

(** The id the [k]-th request gets, counting from 0. *)
Definition id_of_request (k : nat) : Z := Z.min (Z.of_nat k) MAX_EXACT.

(** The requests posted so far carry the ids of their positions, and
    [nextId] is the id of the next position. *)
Definition ids_inv (w : World) : Prop :=
  generate_ids w = id_of_request <$> seq 0 (length (generate_ids w)) /\
  nextId w = id_of_request (length (generate_ids w)).

(** A manager that is ready and has its device files every request. *)
Definition serving (w : World) : Prop :=
  initialized w = true /\ is_null (audioCtx w) = false /\ is_null (worker w) = false.

(** What the scheduler relies on: source names are fresh, a source that
    sounds is the current one, and there is no current source while
    [isPlaying] is false. *)
Definition current_inv (w : World) : Prop :=
  (forall src, src ∈ (started w).*1 -> (src < nodes w)%nat)
  /\ NoDup ((started w).*1)
  /\ (forall src, src ∈ playing w -> currentSource w = Some src)
  /\ (isPlaying w = false -> currentSource w = None).

(** The part of the world [current_inv] is about. *)
Definition playback_view (w : World) : Device * option nat * bool :=
  (dev w, currentSource w, isPlaying w).

(** ** Scenarios *)

(** A platform on which no call throws. *)
Definition browser : Platform := mkPlatform None (fun _ _ _ => None) (fun _ => None).

(** A platform that refuses to open an audio context. *)
Definition mute_browser : Platform :=
  mkPlatform (Some (DOMException "NotSupportedError")) (fun _ _ _ => None) (fun _ => None).

(** A platform whose [stop] throws. *)
Definition strict_browser : Platform :=
  mkPlatform None (fun _ _ _ => None) (fun _ => Some (DOMException "InvalidStateError")).

(** [await manager.init()] with a worker that loads its model. *)
Definition boot : list Event := [call_init false; message init_done; microtask].

(** The world after [boot] on a platform where nothing throws. *)
Definition booted : World := default (init_world browser) (run boot (init_world browser)).

(** The world right after the manager has handled [init_done]. *)
Definition just_initialized (pf : Platform) (onProgress : bool) : World :=
  init_world pf |> step (call_init onProgress) |> step (message init_done).

(** One more line to speak. *)
Definition hello : Event := call_speakSentence "Hello" "voiceA".

(** The world after [boot] and one call of [speakSentence], unanswered. *)
Definition asked : World := step hello booted.

(** The world after [boot] and [n] calls of [speakSentence]. *)
Definition after_requests (n : nat) : World := Nat.iter n (step hello) booted.

(** 2^53, as a number of calls. *)
Definition two_53 : nat := Z.to_nat MAX_EXACT.

Definition second_of_silence : list float := repeat 0%float (Z.to_nat 24000).

Definition line_A : list float := [0.25%float].
Definition line_B : list float := [0.5%float; 0.5%float].
Definition line_C : list float := [0.75%float; 0.75%float; 0.75%float].

Definition clip (audio : list float) : AudioBuffer :=
  mkAudioBuffer 1 (js_length audio) 24000%float audio.

(** Three lines spoken one after the other, each call awaited, each clip
    played to its end. *)
Definition three_lines : list Action :=
  [say "A" "voiceA" [] (reply_done line_A 24000%float);
   say "B" "voiceA" [] (reply_done line_B 24000%float);
   say "C" "voiceA" [0%nat] (reply_done line_C 24000%float);
   finish 1%nat;
   finish 2%nat].

(** Three lines of which the worker fails the second. *)
Definition middle_line_fails : list Action :=
  [say "A" "voiceA" [] (reply_done line_A 24000%float);
   say "B" "voiceA" [] (reply_error "Error: synthesis failed");
   say "C" "voiceA" [] (reply_done line_C 24000%float)].

(** Three lines, the first played to its end: the second is playing and the
    third is queued. *)
Definition second_of_three_playing : World :=
  play [say "A" "voiceA" [] (reply_done line_A 24000%float);
        say "B" "voiceA" [] (reply_done line_B 24000%float);
        say "C" "voiceA" [] (reply_done line_C 24000%float);
        finish 0%nat] booted.

(** Three lines requested at once; the first starts playing and is stopped;
    then the answers for the other two arrive. *)
Definition stop_then_speak : list Event :=
  boot ++
  [call_speakSentence "A" "voiceA";
   call_speakSentence "B" "voiceA";
   call_speakSentence "C" "voiceA";
   message (generate_done 0 line_A 24000%float); microtask;
   call_stopPlayback;
   message (generate_done 1 line_B 24000%float); microtask;
   message (generate_done 2 line_C 24000%float); microtask].

(** The world after [stop_then_speak]: line B is playing on source 1, line C
    is queued, and the [ended] event of source 0, which was stopped, has not
    been delivered yet. *)
Definition before_stale_ended : World :=
  default (init_world browser) (run stop_then_speak (init_world browser)).

(** ** More of the voice manager: life cycle, device protocol, arrivals *)

(** The continuations of [_init] waiting in the microtask queue. *)
Definition init_job (j : Job) : option (option JsError) :=
  match j with
  | resume_init failure => Some failure
  | resume_speak _ _ => None
  end.
Definition init_jobs (w : World) : list (option JsError) := omap init_job (jobs w).

(** How [initPromise], the promise [_init] awaits, the microtask queue, the
    handler on the worker and the audio context go together. *)
Definition lifecycle_inv (w : World) : Prop :=
  (initialized w = true <-> worker w = Some handleMessage_bound)
  /\ match initPromise w with
     | None =>
         handshake w = Pending /\ jobs w = [] /\ audioCtx w = None /\ worker w = None
     | Some Pending =>
         audioCtx w = None /\
         match handshake w with
         | Pending => init_jobs w = [] /\ exists cb, worker w = Some (init_closure cb)
         | Fulfilled => init_jobs w = [None] /\ initialized w = true
         | Rejected e => init_jobs w = [Some e] /\ worker w <> None
         end
     | Some Fulfilled =>
         audioCtx w = Some (mkAudioContext TTS_SAMPLE_RATE) /\ initialized w = true
         /\ init_jobs w = [] /\ handshake w = Fulfilled
     | Some (Rejected e) =>
         audioCtx w = None /\ init_jobs w = [] /\ handshake w <> Pending /\ worker w <> None
     end.

(** The protocol the manager follows on the audio device. *)
Definition device_inv (w : World) : Prop :=
  (started w).*1 = seq 0 (nodes w)
  /\ NoDup (stopped w)
  /\ (forall src, src ∈ stopped w -> (src < nodes w)%nat)
  /\ (forall src, currentSource w = Some src -> (src < nodes w)%nat /\ src ∉ stopped w)
  /\ isPlaying w = negb (is_null (currentSource w)).

(** What reaches a manager that has requests under way: the worker's answer
    to one of them, followed by the rest of the call that waited for it, or
    the [ended] event of a source. *)
Inductive Arrival :=
| answer (id : Z) (r : Reply)
| ends (src : nat).

Definition arrive (w : World) (a : Arrival) : World :=
  match a with
  | answer id r => w |> step (message (reply_message id r)) |> step microtask
  | ends src => step (ended_event src) w
  end.

Definition arrivals (l : list Arrival) (w : World) : World := foldl arrive w l.

(** The ids answered, and the clips the answers make, in the order of
    arrival. *)
Definition answered_id (a : Arrival) : option Z :=
  match a with
  | answer id _ => Some id
  | ends _ => None
  end.

Definition clip_of_arrival (pf : Platform) (a : Arrival) : list AudioBuffer :=
  match a with
  | answer _ r => clip_of pf (say "" "" [] r)
  | ends _ => []
  end.

(** [init] on a worker that reports an error, run to the end. *)
Definition failed_init : World :=
  init_world browser
    |> step (call_init false)
    |> step (message (init_error "Error: no model"))
    |> step microtask.

(** The correlation table without the entries of the ids answered. *)
Definition remove_ids (ids : list Z) (table : gmap Z PendingRequest) : gmap Z PendingRequest :=
  foldl (fun t id => delete id t) table ids.

(** Lines A and B requested together, answered in the other order. *)
Definition two_asked : World :=
  booted |> step (call_speakSentence "A" "voiceA") |> step (call_speakSentence "B" "voiceA").

Definition answered_backwards : list Arrival :=
  [answer 1 (reply_done line_B 24000%float); answer 0 (reply_done line_A 24000%float)].

(** The world after the [ended] event of the stopped source in
    [stop_then_speak]. *)
Definition after_stale_ended : World := step (ended_event 0) before_stale_ended.

(** ** The worker over a run of events *)

Fixpoint worker_run (es : list TtsWorker.Event) (s : TtsWorker.State)
  : option TtsWorker.State :=
  match es with
  | [] => Some s
  | e :: es' =>
      if TtsWorker.enabled e s then worker_run es' (TtsWorker.step e s) else None
  end.

(** The id of a [generate] message, and the id a reply to one carries. *)
Definition asked_id (e : TtsWorker.Event) : option Z :=
  match e with
  | TtsWorker.receive (GenerateMessage id _ _ _) => Some id
  | _ => None
  end.

Definition reply_id (m : WorkerReply) : option Z :=
  match m with
  | generate_done id _ _ | generate_error id _ => Some id
  | _ => None
  end.

Definition is_init_message (m : WorkerMessage) : bool :=
  match m with InitMessage => true | GenerateMessage _ _ _ _ => false end.

Definition is_init_receive (e : TtsWorker.Event) : bool :=
  match e with
  | TtsWorker.receive m => is_init_message m
  | _ => false
  end.

(** The two ways an initialization ends. *)
Definition is_init_outcome (m : WorkerReply) : bool :=
  match m with init_done | init_error _ => true | _ => false end.

(** ** The page and its worker together *)

(** The manager's world, the worker, and how many messages each side has
    taken from what the other posted. Messages arrive in the order they were
    posted. *)
Record System := mkSystem {
  page : World;
  script : TtsWorker.State;
  taken_by_worker : nat;
  taken_by_page : nat
}.

Inductive SysEvent :=
| on_page (e : Event)
| worker_takes
| in_worker (e : TtsWorker.Event)
| page_takes.

Definition sys_step (e : SysEvent) (s : System) : System :=
  match e with
  | on_page e' => mkSystem (step e' (page s)) (script s) (taken_by_worker s) (taken_by_page s)
  | worker_takes =>
      match posted (page s) !! taken_by_worker s with
      | Some m =>
          mkSystem (page s) (TtsWorker.onmessage m (script s)) (S (taken_by_worker s))
            (taken_by_page s)
      | None => s
      end
  | in_worker e' =>
      mkSystem (page s) (TtsWorker.step e' (script s)) (taken_by_worker s) (taken_by_page s)
  | page_takes =>
      match TtsWorker.outbox (script s) !! taken_by_page s with
      | Some m =>
          mkSystem (step (message m) (page s)) (script s) (taken_by_worker s)
            (S (taken_by_page s))
      | None => s
      end
  end.

(** Messages only travel through the two channels: the page handles what the
    worker posted, the worker what the page posted. *)
Definition sys_enabled (e : SysEvent) (s : System) : bool :=
  match e with
  | on_page (message _) => false
  | on_page e' => enabled e' (page s)
  | worker_takes => bool_decide (taken_by_worker s < length (posted (page s)))%nat
  | in_worker (TtsWorker.receive _) => false
  | in_worker e' => TtsWorker.enabled e' (script s)
  | page_takes =>
      match TtsWorker.outbox (script s) !! taken_by_page s with
      | Some m => enabled (message m) (page s)
      | None => false
      end
  end.

Definition sys_start (pf : Platform) : System :=
  mkSystem (init_world pf) TtsWorker.start 0 0.

Inductive sys_reachable : System -> Prop :=
| sys_reachable_start pf : sys_reachable (sys_start pf)
| sys_reachable_step e s :
    sys_reachable s -> sys_enabled e s = true -> sys_reachable (sys_step e s).

Fixpoint sys_run (es : list SysEvent) (s : System) : option System :=
  match es with
  | [] => Some s
  | e :: es' => if sys_enabled e s then sys_run es' (sys_step e s) else None
  end.

(** What holds between the two sides. *)
Definition sys_inv (s : System) : Prop :=
  reachable (page s)
  /\ TtsWorker.reachable (script s)
  /\ (taken_by_worker s <= length (posted (page s)))%nat
  /\ (initialized (page s) = true -> TtsWorker.announced (script s) = true)
  /\ (length (filter (fun m => is_init_outcome m = true) (TtsWorker.outbox (script s)))
      + TtsWorker.loading (script s)
      = length (filter (fun m => is_init_message m = true)
                  (take (taken_by_worker s) (posted (page s)))))%nat.

(** A session: [init], the model loads, one line is asked for and
    synthesized, and the answer is played. *)
Definition one_line_session : list SysEvent :=
  [on_page (call_init true);
   worker_takes;
   in_worker (TtsWorker.progress (TtsWorker.mkInfo (Some 50%float) None));
   page_takes;
   in_worker (TtsWorker.load_settled (inl TtsWorker.kokoro));
   page_takes;
   on_page microtask;
   on_page (call_speakSentence "Hello" "voiceA");
   worker_takes;
   in_worker (TtsWorker.generate_settled 0 (inl (line_A, 24000%float)));
   page_takes;
   on_page microtask].

Definition after_one_line : System :=
  default (sys_start browser) (sys_run one_line_session (sys_start browser)).

(** A worker that gets two requests before its model is loaded and one
    after, and synthesizes that one. *)
Definition eager_requests : list TtsWorker.Event :=
  [TtsWorker.receive InitMessage;
   TtsWorker.receive (GenerateMessage 0 "A" "voiceA" None);
   TtsWorker.receive (GenerateMessage 1 "B" "voiceA" None);
   TtsWorker.load_settled (inl TtsWorker.kokoro);
   TtsWorker.receive (GenerateMessage 2 "C" "voiceA" (Some 2%float));
   TtsWorker.generate_settled 0 (inl (line_C, 24000%float))].

(** The session up to the moment the request is posted. *)
Definition line_asked : System :=
  default (sys_start browser) (sys_run (take 8 one_line_session) (sys_start browser)).

(** The session up to the moment the worker has posted its answer. *)
Definition line_answered : System :=
  default (sys_start browser) (sys_run (take 10 one_line_session) (sys_start browser)).

(** The request ids are still exact: [nextId] has not stopped counting. *)
Definition ids_exact (w : World) : Prop :=
  Z.of_nat (length (generate_ids w)) <= MAX_EXACT + 1.

(** The requests and their answers on both sides: what the worker has
    answered or is synthesizing is what it was asked, and the table holds
    the requests posted whose answer the page has not taken yet. *)
Definition answers_inv (s : System) : Prop :=
  (taken_by_page s <= length (TtsWorker.outbox (script s)))%nat
  /\ omap reply_id (TtsWorker.outbox (script s))
       ++ (TtsWorker.syn_id <$> TtsWorker.synthesizing (script s))
     ≡ₚ omap generate_id (take (taken_by_worker s) (posted (page s)))
  /\ forall id,
       is_Some (pending (page s) !! id)
       <-> id ∈ generate_ids (page s)
           /\ id ∉ omap reply_id (take (taken_by_page s) (TtsWorker.outbox (script s))).

Definition is_init_progress (m : WorkerReply) : bool :=
  match m with init_progress _ _ => true | _ => false end.

(** The progress reports on both sides: the worker does nothing before the
    page posts to it, it reports progress only before the initialization
    has ended, and the page changes to its steady-state handler only by
    taking [init_done]. *)
Definition progress_inv (s : System) : Prop :=
  (taken_by_page s <= length (TtsWorker.outbox (script s)))%nat
  /\ (posted (page s) = [] -> script s = TtsWorker.start)
  /\ (forall i m, TtsWorker.outbox (script s) !! i = Some m -> is_init_progress m = true ->
                  filter (fun m => is_init_outcome m = true)
                    (take i (TtsWorker.outbox (script s))) = [])
  /\ (worker (page s) = Some handleMessage_bound ->
      filter (fun m => is_init_outcome m = true)
        (take (taken_by_page s) (TtsWorker.outbox (script s))) <> []).

(** The session up to the first progress report of the worker. *)
Definition progress_reported : System :=
  default (sys_start browser) (sys_run (take 3 one_line_session) (sys_start browser)).

(** * Conversation memory: [NPCMemoryManager] *)

(** The manager keeps the exchanges with each character in an IndexedDB
    object store. A call of [getHistory] or [addEntry] is taken here from
    its start to the settlement of its promise, with the answers IndexedDB
    gives to its requests as arguments: the calls share nothing but the
    field [db] and the store, and IndexedDB runs their transactions in the
    order in which they were made. *)

Module NPCMemory.

Record ConversationEntry := mkEntry {
  npcId : string;
  timestamp : Z;
  playerMessage : string;
  npcResponse : string
}.

Definition MAX_HISTORY : nat := 8.

(** The field [db] of the manager (whether it holds a connection) and the
    object store [conversations] of the database behind it, which outlives
    the manager: its records in key order. The keys are auto-incremented, so
    this is the order in which the records were added. *)
Record State := mkState {
  db : bool;
  store : list ConversationEntry
}.

(** What IndexedDB answers to a request: [onsuccess], or [onerror] with
    [req.error]. *)
Inductive Answer :=
| onsuccess
| onerror (error : JsError).

(** [open]: nothing to do with a connection; otherwise the connection is
    kept when the request succeeds, and the promise is rejected when it
    fails. *)
Definition open (opened : Answer) (s : State) : Completion unit * State :=
  if db s then (Normal (), s)
  else match opened with
       | onsuccess => (Normal (), mkState true (store s))
       | onerror error => (Throw error, s)
       end.

(** [index.getAll(npcId)] on the index [npcId]: the records with that key,
    in the order of their primary keys. *)
Definition getAll (npc : string) (records : list ConversationEntry) : list ConversationEntry :=
  filter (fun e => npcId e = npc) records.

(** [results.sort((a, b) => a.timestamp - b.timestamp)]. The sort of an
    array is stable; [sort_is_unique] shows that this fixes the result, so
    that the algorithm chosen here stands for the engine's. *)
Fixpoint insert_by_timestamp (x : ConversationEntry) (l : list ConversationEntry)
  : list ConversationEntry :=
  match l with
  | [] => [x]
  | y :: l' =>
      if timestamp x <=? timestamp y then x :: y :: l' else y :: insert_by_timestamp x l'
  end.

Definition sort_by_timestamp (l : list ConversationEntry) : list ConversationEntry :=
  foldr insert_by_timestamp [] l.

(** [results.slice(-n)]: the last [n] elements, or all of them. *)
Definition slice_last {A : Type} (n : nat) (l : list A) : list A :=
  drop (length l - n) l.

(** [getHistory], with the answers to its two requests. *)
Definition getHistory (npc : string) (opened read : Answer) (s : State)
  : Completion (list ConversationEntry) * State :=
  match open opened s with
  | (Throw error, s') => (Throw error, s')
  | (Normal _, s') =>
      if negb (db s') then (Normal [], s')
      else match read with
           | onsuccess =>
               (Normal (slice_last MAX_HISTORY (sort_by_timestamp (getAll npc (store s')))),
                s')
           | onerror error => (Throw error, s')
           end
  end.

(** [addEntry]; [now] is what [Date.now()] returns. *)
Definition addEntry (npc player response : string) (now : Z) (opened added : Answer)
    (s : State) : Completion unit * State :=
  match open opened s with
  | (Throw error, s') => (Throw error, s')
  | (Normal _, s') =>
      if negb (db s') then (Normal (), s')
      else match added with
           | onsuccess =>
               (Normal (), mkState (db s') (store s' ++ [mkEntry npc now player response]))
           | onerror error => (Throw error, s')
           end
  end.

Inductive Role := user | assistant.

Record ChatMessage := mkChatMessage {
  role : Role;
  content : string
}.

Fixpoint formatHistoryForChat (history : list ConversationEntry) : list ChatMessage :=
  match history with
  | [] => []
  | entry :: rest =>
      mkChatMessage user (playerMessage entry)
        :: mkChatMessage assistant (npcResponse entry) :: formatHistoryForChat rest
  end.

(** In the order of their timestamps, earliest first. *)
Definition in_time_order (l : list ConversationEntry) : Prop :=
  forall i j x y, (i < j)%nat -> l !! i = Some x -> l !! j = Some y ->
                  timestamp x <= timestamp y.

(** The entries of [l] stamped [t], in the order they have in [l]. *)
Definition stamped (t : Z) (l : list ConversationEntry) : list ConversationEntry :=
  filter (fun e => timestamp e = t) l.

(** Where a stable sort puts the entry that was last in the array: behind
    the entries that are not later than it. *)
Fixpoint insert_last_by_timestamp (e : ConversationEntry) (l : list ConversationEntry)
  : list ConversationEntry :=
  match l with
  | [] => [e]
  | y :: l' =>
      if timestamp y <=? timestamp e then y :: insert_last_by_timestamp e l' else e :: y :: l'
  end.

(** A manager with its connection open on the given records. *)
Definition connected (records : list ConversationEntry) : State := mkState true records.

(** Ten exchanges with one character, and one with another in between. *)
Definition exchanges : list ConversationEntry :=
  ((fun k => mkEntry "bober" (1000 + k) "question" "answer") <$> [0; 1; 2; 3; 4])
  ++ [mkEntry "smith" 1005 "how much" "ten gold"]
  ++ ((fun k => mkEntry "bober" (1000 + k) "question" "answer") <$> [6; 7; 8; 9; 10]).

End NPCMemory.

(** * Character models: [CharacterLoaderSingleton] *)

(** The loader keeps the models it has parsed in [cache] and the promises
    of the loads under way in [pending]. Its jobs are the calls of
    [preload], [getClone] and [loadAnimationClips], the last two up to
    their [await], and the callbacks of [gltfLoader.load]. What the
    callback does to the scene (the shadow flags, [downscaleTextures]) and
    the cloning after the [await] are left out: they touch neither map. *)

Module CharacterLoader.

(** A parsed file: its scene and its animation clips, by name. *)
Record CachedModel := mkCachedModel {
  scene : string;
  animations : list string
}.

(** What the loader writes to the console: the [console.log] of a file
    loaded, with the number of its animations, and the [console.warn] of a
    file that failed, with the error. *)
Inductive ConsoleEntry :=
| log_loaded (url : string) (animations : nat)
| warn_failed (url : string) (error : JsError).

(** The maps [cache] and [pending] of the loader, and outside it the calls
    of [gltfLoader.load] in order, each with the promise [loadGLTF] made for
    it: promise [k] belongs to call [k], and [outcome] holds the promises
    settled so far. *)
Record State := mkState {
  cache : gmap string CachedModel;
  pending : gmap string nat;
  loads : list string;
  outcome : gmap nat (Completion CachedModel);
  console : list ConsoleEntry
}.

Definition start : State := mkState ∅ ∅ [] ∅ [].

(** [loadGLTF] up to the call of [gltfLoader.load]: the promise it returns. *)
Definition loadGLTF (url : string) (s : State) : nat * State :=
  (length (loads s),
   mkState (cache s) (pending s) (loads s ++ [url]) (outcome s) (console s)).

Definition loadModel (url : string) (s : State) : nat * State :=
  match pending s !! url with
  | Some promise => (promise, s)
  | None =>
      let (promise, s') := loadGLTF url s in
      (promise,
       mkState (cache s') (<[url := promise]> (pending s')) (loads s') (outcome s')
         (console s'))
  end.

Definition preload (urls : list string) (s : State) : State :=
  foldl (fun s url =>
           match cache s !! url, pending s !! url with
           | None, None => snd (loadModel url s)
           | _, _ => s
           end)
        s urls.

(** What [getClone] and [loadAnimationClips] go on with: the model in the
    cache, or the promise they await. *)
Inductive Awaited :=
| cached_model (cached : CachedModel)
| load_promise (promise : nat).

Definition getClone (url : string) (s : State) : Awaited * State :=
  match cache s !! url with
  | Some cached => (cached_model cached, s)
  | None =>
      let (promise, s') := loadModel url s in (load_promise promise, s')
  end.

Definition loadAnimationClips (url : string) (s : State) : Awaited * State :=
  match cache s !! url with
  | Some cached => (cached_model cached, s)
  | None =>
      let (promise, s') := loadModel url s in (load_promise promise, s')
  end.

(** The two callbacks [loadGLTF] hands to [gltfLoader.load], for call [k]
    with its [url]. *)
Definition onLoad (k : nat) (url : string) (gltf : CachedModel) (s : State) : State :=
  mkState (<[url := gltf]> (cache s)) (delete url (pending s)) (loads s)
    (<[k := Normal gltf]> (outcome s))
    (console s ++ [log_loaded url (length (animations gltf))]).

Definition onError (k : nat) (url : string) (error : JsError) (s : State) : State :=
  mkState (cache s) (delete url (pending s)) (loads s)
    (<[k := Throw error]> (outcome s))
    (console s ++ [warn_failed url error]).

Inductive Event :=
| call_preload (urls : list string)
| call_getClone (url : string)
| call_loadAnimationClips (url : string)
| load_settled (k : nat) (r : CachedModel + JsError).

Definition step (e : Event) (s : State) : State :=
  match e with
  | call_preload urls => preload urls s
  | call_getClone url => snd (getClone url s)
  | call_loadAnimationClips url => snd (loadAnimationClips url s)
  | load_settled k r =>
      match loads s !! k with
      | Some url =>
          match r with
          | inl gltf => onLoad k url gltf s
          | inr error => onError k url error s
          end
      | None => s
      end
  end.

(** The loader calls back once for a load, later than the call of [load]. *)
Definition enabled (e : Event) (s : State) : bool :=
  match e with
  | load_settled k _ => bool_decide (is_Some (loads s !! k) /\ outcome s !! k = None)
  | _ => true
  end.

Inductive reachable : State -> Prop :=
| reachable_start : reachable start
| reachable_step e s : reachable s -> enabled e s = true -> reachable (step e s).

Fixpoint run (es : list Event) (s : State) : option State :=
  match es with
  | [] => Some s
  | e :: es' => if enabled e s then run es' (step e s) else None
  end.

(** What the two maps stand for: [pending] holds the loads under way,
    [cache] the models of the loads that succeeded; and a file is asked for
    again only when every earlier load of it has failed. *)
Definition inv (s : State) : Prop :=
  (forall url k, pending s !! url = Some k
                 <-> loads s !! k = Some url /\ outcome s !! k = None)
  /\ (forall url m, cache s !! url = Some m
                    <-> exists k, loads s !! k = Some url /\ outcome s !! k = Some (Normal m))
  /\ (forall k, is_Some (outcome s !! k) -> is_Some (loads s !! k))
  /\ (forall url k1 k2, (k1 < k2)%nat -> loads s !! k1 = Some url -> loads s !! k2 = Some url ->
                        exists error, outcome s !! k1 = Some (Throw error)).

(** A session: two files preloaded, one asked for twice while it loads, the
    other failing and asked for again. *)
Definition knight : CachedModel := mkCachedModel "knight" ["idle"; "walk"]%string.

Definition session : list Event :=
  [call_preload ["knight.glb"; "mage.glb"; "knight.glb"]%string;
   call_getClone "knight.glb";
   call_loadAnimationClips "knight.glb";
   load_settled 1 (inr (Error "404"));
   load_settled 0 (inl knight);
   call_getClone "mage.glb";
   call_getClone "knight.glb"].

Definition after_session : State := default start (run session start).

End CharacterLoader.

(** * Static batching: [StaticBatcher] *)

(** Meshes are objects of the scene: the batcher keeps references to them
    and reads their fields when it needs them, the material when a mesh is
    given, the geometry and the shadow flags mostly when it flushes. An
    object is named here by its uuid, and a reading of the fields of the
    meshes at one moment is a [Scene]. What [flush] makes of the target is
    what [Object3D.add] of three.js makes of it. *)

Module StaticBatcher.

(** The fields of a mesh the batcher reads: its geometry, the uuid of its
    material and its two shadow flags. *)
Record MeshData := mkMeshData {
  geometry : string;
  material : string;
  castShadow : bool;
  receiveShadow : bool
}.

(** The fields of every mesh, by the uuid of the mesh, at one moment. *)
Definition Scene : Type := string -> MeshData.

(** The groups of the two maps, holding references to meshes. A group is
    made by the call that pushes its first mesh, so [meshes] is never
    empty: it is kept as [meshes[0]] and the rest. *)
Record MergeGroup := mkMergeGroup {
  merge_material : string;
  merge_first : string;
  merge_more : list string
}.

Record InstanceGroup := mkInstanceGroup {
  instance_geo : string;
  instance_material : string;
  instance_first : string;
  instance_more : list string
}.

Definition merge_meshes (g : MergeGroup) : list string := merge_first g :: merge_more g.
Definition instance_meshes (g : InstanceGroup) : list string :=
  instance_first g :: instance_more g.

(** A [Map] with string keys: its entries in insertion order. *)
Record Batcher := mkBatcher {
  mergeGroups : list (string * MergeGroup);
  instanceGroups : list (string * InstanceGroup)
}.

Definition empty : Batcher := mkBatcher [] [].

(** [map.get(key)], then [map.set(key, group)] when there is none, then the
    push on the group. *)
Fixpoint push_to {G : Type} (key : string) (create : G) (push : G -> G)
    (groups : list (string * G)) : list (string * G) :=
  match groups with
  | [] => [(key, create)]
  | (k, g) :: rest =>
      if decide (k = key) then (k, push g) :: rest
      else (k, g) :: push_to key create push rest
  end.

(** [addMergeable(mesh)], the meshes being as [now] says: the material is
    read from the mesh now. *)
Definition addMergeable (now : Scene) (mesh : string) (b : Batcher) : Batcher :=
  let mat := material (now mesh) in
  mkBatcher
    (push_to mat (mkMergeGroup mat mesh [])
       (fun g => mkMergeGroup (merge_material g) (merge_first g) (merge_more g ++ [mesh]))
       (mergeGroups b))
    (instanceGroups b).

(** [addInstanceable(key, mesh)]: the geometry and the material are read
    from the mesh that makes the group, now. *)
Definition addInstanceable (now : Scene) (key mesh : string) (b : Batcher) : Batcher :=
  mkBatcher (mergeGroups b)
    (push_to key (mkInstanceGroup (geometry (now mesh)) (material (now mesh)) mesh [])
       (fun g =>
          mkInstanceGroup (instance_geo g) (instance_material g) (instance_first g)
            (instance_more g ++ [mesh]))
       (instanceGroups b)).

(** The children of the target: an object that was there before the flush
    or was given to the batcher, by its uuid; or an object [flush] makes, a
    mesh of the merged clones of the geometries of several meshes (named
    [merged-n]) or an [InstancedMesh] with one instance for each of several
    meshes (named [instanced-key-n]). *)
Inductive Object3D :=
| existing (uuid : string)
| merged (material : string) (parts geometries : list string)
    (castShadow receiveShadow : bool)
| instanced (key geo material : string) (instances : list string)
    (castShadow receiveShadow : bool).

#[global] Instance Object3D_eq_dec : EqDecision Object3D.
Proof. solve_decision. Defined.

(** [children.indexOf(object)] and [splice]: the first occurrence goes. *)
Fixpoint remove_child (object : Object3D) (children : list Object3D) : list Object3D :=
  match children with
  | [] => []
  | child :: rest =>
      if decide (child = object) then rest else child :: remove_child object rest
  end.

(** [target.add(object)] of three.js, on the children of the target. The
    target itself is refused, with an error on the console. An object that
    has a parent is taken out of it first, so a child of the target moves
    to the end; an object is among the children of its parent only, and
    what becomes of another parent is not kept here. An object [flush] has
    just made has no parent. *)
Definition Object3D_add (target : string) (object : Object3D) (children : list Object3D)
  : list Object3D :=
  match object with
  | existing uuid =>
      if decide (uuid = target) then children else remove_child object children ++ [object]
  | _ => children ++ [object]
  end.

Definition add_all (target : string) (objects children : list Object3D) : list Object3D :=
  foldl (fun children object => Object3D_add target object children) children objects.

(** The loop body of [flush] for a merge group: what it hands to
    [target.add], in order. The geometries and the shadow flags are read
    now; [merge] tells whether [mergeGeometries] returns a geometry for the
    clones of these geometries. *)
Definition flush_merge (merge : list string -> bool) (now : Scene) (g : MergeGroup)
  : list Object3D :=
  match merge_more g with
  | [] => [existing (merge_first g)]
  | _ =>
      let geometries := (fun mesh => geometry (now mesh)) <$> merge_meshes g in
      if merge geometries
      then [merged (merge_material g) (merge_meshes g) geometries
              (castShadow (now (merge_first g))) (receiveShadow (now (merge_first g)))]
      else existing <$> merge_meshes g
  end.

Definition flush_instance (now : Scene) (key : string) (g : InstanceGroup) : list Object3D :=
  match instance_more g with
  | [] => [existing (instance_first g)]
  | _ =>
      [instanced key (instance_geo g) (instance_material g) (instance_meshes g)
         (castShadow (now (instance_first g))) (receiveShadow (now (instance_first g)))]
  end.

(** The objects [flush] hands to [target.add], in order. *)
Definition added (merge : list string -> bool) (now : Scene) (b : Batcher) : list Object3D :=
  flat_map (fun kg => flush_merge merge now (snd kg)) (mergeGroups b)
  ++ flat_map (fun kg => flush_instance now (fst kg) (snd kg)) (instanceGroups b).

(** [flush(target)] on a target with the given children: its children
    afterwards, and the batcher with both maps cleared. *)
Definition flush (merge : list string -> bool) (now : Scene) (target : string)
    (children : list string) (b : Batcher) : list Object3D * Batcher :=
  (add_all target (added merge now b) (existing <$> children), empty).

(** The calls on a batcher between two flushes, each with the meshes as
    they are when it is made. *)
Inductive Call :=
| call_addMergeable (now : Scene) (mesh : string)
| call_addInstanceable (now : Scene) (key mesh : string).

Definition call (b : Batcher) (c : Call) : Batcher :=
  match c with
  | call_addMergeable now mesh => addMergeable now mesh b
  | call_addInstanceable now key mesh => addInstanceable now key mesh b
  end.

Definition after (calls : list Call) : Batcher := foldl call empty calls.

Definition mesh_of (c : Call) : string :=
  match c with call_addMergeable _ mesh | call_addInstanceable _ _ mesh => mesh end.

(** The meshes an object of the scene draws. *)
Definition drawn (o : Object3D) : list string :=
  match o with
  | existing uuid => [uuid]
  | merged _ parts _ _ _ => parts
  | instanced _ _ _ instances _ _ => instances
  end.

(** ** What the batching comes to *)

(** A mesh that was given, with its fields as they were then. *)
Record Given := mkGiven {
  given_mesh : string;
  given_as : MeshData
}.

(** The meshes given to [addMergeable] with the material they had, and
    those given to [addInstanceable] with their key. *)
Definition mergeable (c : Call) : option (string * Given) :=
  match c with
  | call_addMergeable now mesh => Some (material (now mesh), mkGiven mesh (now mesh))
  | call_addInstanceable _ _ _ => None
  end.

Definition instanceable (c : Call) : option (string * Given) :=
  match c with
  | call_addMergeable _ _ => None
  | call_addInstanceable now key mesh => Some (key, mkGiven mesh (now mesh))
  end.

(** The keys of a list in the order of their first occurrences. *)
Definition distinct (keys : list string) : list string :=
  foldl (fun seen k => if decide (k ∈ seen) then seen else seen ++ [k]) [] keys.

(** The meshes filed under a key, in the order they were given. *)
Definition under (key : string) (given : list (string * Given)) : list Given :=
  (filter (fun p => p.1 = key) given).*2.

Definition merge_objects (merge : list string -> bool) (now : Scene) (mat : string)
    (given : list Given) : list Object3D :=
  match given with
  | [] => []
  | [one] => [existing (given_mesh one)]
  | first :: _ =>
      let meshes := given_mesh <$> given in
      let geometries := (fun mesh => geometry (now mesh)) <$> meshes in
      if merge geometries
      then [merged mat meshes geometries (castShadow (now (given_mesh first)))
              (receiveShadow (now (given_mesh first)))]
      else existing <$> meshes
  end.

Definition instance_objects (now : Scene) (key : string) (given : list Given)
  : list Object3D :=
  match given with
  | [] => []
  | [one] => [existing (given_mesh one)]
  | first :: _ =>
      [instanced key (geometry (given_as first)) (material (given_as first))
         (given_mesh <$> given) (castShadow (now (given_mesh first)))
         (receiveShadow (now (given_mesh first)))]
  end.

(** One group for each material and one for each key, in the order the
    materials and the keys first came. *)
Definition batches (merge : list string -> bool) (now : Scene) (calls : list Call)
  : list Object3D :=
  flat_map (fun k => merge_objects merge now k (under k (omap mergeable calls)))
    (distinct (omap mergeable calls).*1)
  ++ flat_map (fun k => instance_objects now k (under k (omap instanceable calls)))
       (distinct (omap instanceable calls).*1).

(** What [push_to] keeps for a map whose groups hold [meshes]: the keys are
    the distinct keys given, each group holds the meshes given under its
    key, and [fixed] of a group is what the mesh that made it gave. *)
Definition filed {G F : Type} (meshes : G -> list string) (fixed : G -> F)
    (made : string -> Given -> F) (given : list (string * Given))
    (groups : list (string * G)) : Prop :=
  groups.*1 = distinct given.*1
  /\ NoDup groups.*1
  /\ forall k g, (k, g) ∈ groups ->
                 meshes g = given_mesh <$> under k given
                 /\ Some (fixed g) = made k <$> head (under k given).

(** An arch: two posts, three pieces of stone, one beam. *)
Definition arch_scene : Scene :=
  fun mesh =>
    if decide (mesh ∈ ["left"; "right"]%string) then mkMeshData "post" "wood" true true
    else if decide (mesh = "beam"%string) then mkMeshData "beam" "oak" true true
    else mkMeshData "block" "granite" true false.

Definition arch : list Call :=
  [call_addInstanceable arch_scene "post" "left";
   call_addMergeable arch_scene "a";
   call_addMergeable arch_scene "beam";
   call_addMergeable arch_scene "b";
   call_addInstanceable arch_scene "post" "right";
   call_addMergeable arch_scene "c"].

(** The beam given twice, once to each method. *)
Definition beam_twice : list Call :=
  [call_addMergeable arch_scene "beam"; call_addInstanceable arch_scene "beam" "beam"].

End StaticBatcher.

(** * Properties *)

(** ** Tactics and frame lemmas *)

Ltac open_world w :=
  let pf := fresh "pf" in
  destruct w as [pf [] [] [] []]; simpl in *.

Ltac ops :=
  unfold step, run_job, init, _init, init_onmessage, settle_handshake, _init_resume,
    handleMessage, speakSentence, generateAudio, speakSentence_resume, onended,
    stopPlayback, drainQueue, source_stop, createBuffer, channel_set, await,
    try_catch, bind, exec, ret, throw,
    set_worker, set_audioCtx, set_playbackQueue, set_isPlaying, set_currentSource,
    set_nextId, set_pending, set_initialized, set_initPromise,
    new_node, log_start, log_stop, log_ended, new_Worker, postMessage, console_warn,
    call_onProgress, set_handshake, set_jobs, queueMicrotask, new_promise, settle,
    in_mgr, in_dev, in_host, in_loop in *.

(** Case analysis on every test the goal branches on, innermost first. *)
Ltac split_cases :=
  repeat match goal with
         | |- context [match ?x with _ => _ end] =>
             lazymatch x with
             | context [match _ with _ => _ end] => fail
             | _ => destruct x eqn:?; simpl
             end
         end.

Ltac split_hyps :=
  repeat match goal with
         | H : context [match ?x with _ => _ end] |- _ => destruct x eqn:?; simpl in H
         end.

(** One event of the loop, on a world given field by field. *)
Ltac by_fields w := open_world w; ops; simpl; split_cases.
Ltac by_event e w := destruct e; by_fields w.

(** ** The correlation table *)

Lemma handleMessage_clears (w : World) (msg : WorkerReply) (id : Z) :
  (exists audio sampleRate, msg = generate_done id audio sampleRate) \/
  (exists error, msg = generate_error id error) ->
  pending (handleMessage msg w) !! id = None.
Proof.
  intros [(audio & sampleRate & ->) | (error & ->)]; unfold handleMessage;
    destruct (pending w !! id) eqn:Hid; try exact Hid;
    open_world w; apply lookup_delete_eq.
Qed.

(** C4. Responses handled by the steady-state handler. A [generate_done]
    whose id is in the correlation table removes the entry and fulfills the
    completion stored in it with the audio and the sample rate; a
    [generate_error] whose id is in the table removes the entry and fails the
    completion with the worker's error; nothing else changes. A response whose
    id is not in the table leaves the world as it was. Either way the table
    has no entry for the id once the response is handled. *)
Theorem C4_response_settles_and_clears (w : World) :
  worker w = Some handleMessage_bound ->
  (forall id audio sampleRate req,
      pending w !! id = Some req ->
      step (message (generate_done id audio sampleRate)) w
      = (w |> set_pending (delete id (pending w))
           |> queueMicrotask (resume_speak (awaiter req) (resolved audio sampleRate))))
  /\ (forall id error req,
      pending w !! id = Some req ->
      step (message (generate_error id error)) w
      = (w |> set_pending (delete id (pending w))
           |> queueMicrotask (resume_speak (awaiter req) (rejected (Error error)))))
  /\ (forall id audio sampleRate error,
      pending w !! id = None ->
      step (message (generate_done id audio sampleRate)) w = w /\
      step (message (generate_error id error)) w = w)
  /\ (forall id audio sampleRate error,
      pending (step (message (generate_done id audio sampleRate)) w) !! id = None /\
      pending (step (message (generate_error id error)) w) !! id = None).
Proof.
  intros Hsteady. unfold step. rewrite Hsteady.
  split; [| split; [| split]].
  - intros id audio sampleRate req Hid. unfold handleMessage. rewrite Hid. reflexivity.
  - intros id error req Hid. unfold handleMessage. rewrite Hid. reflexivity.
  - intros id audio sampleRate error Hid. unfold handleMessage. rewrite Hid.
    split; reflexivity.
  - intros id audio sampleRate error.
    split; apply handleMessage_clears; [left | right]; eauto.
Qed.

Lemma C4_response_settles_and_clears_witness :
  worker asked = Some handleMessage_bound
  /\ pending asked !! 0 = Some (mkPending 0)
  /\ step (message (generate_done 0 line_A 24000%float)) asked
     = (asked |> set_pending (delete 0 (pending asked))
              |> queueMicrotask (resume_speak 0 (resolved line_A 24000%float)))
  /\ pending (step (message (generate_done 0 line_A 24000%float)) asked) !! 0 = None.
Proof.
  assert (Hsteady : worker asked = Some handleMessage_bound) by reflexivity.
  assert (Hasked : pending asked !! 0 = Some (mkPending 0)) by reflexivity.
  destruct (C4_response_settles_and_clears asked Hsteady) as (Hdone & _ & _ & Hcleared).
  split; [exact Hsteady |]. split; [exact Hasked |].
  split; [exact (Hdone 0 line_A 24000%float _ Hasked) |].
  exact (proj1 (Hcleared 0 line_A 24000%float ""%string)).
Defined.

(** ** Stopping *)

(** C8. In any state [stopPlayback] returns normally, whatever [stop] on the
    source does; afterwards the queue is empty, no source is current and
    [isPlaying] is false; [stop] was called once on the source that was
    current, if there was one, and on nothing else; nothing was started. A
    second call right after changes nothing and returns normally too. *)
Theorem C8_stopPlayback_total (w : World) :
  exists w',
    stopPlayback w = (Normal tt, w') /\
    playbackQueue w' = [] /\
    currentSource w' = None /\
    isPlaying w' = false /\
    stopped w' = stopped w ++ (match currentSource w with Some src => [src] | None => [] end) /\
    started w' = started w /\
    stopPlayback w' = (Normal tt, w').
Proof.
  open_world w. ops. simpl.
  destruct currentSource0 as [src |]; simpl.
  - destruct (stop_throws pf src); simpl; eexists; repeat split.
  - eexists; repeat split. simpl. symmetry. apply app_nil_r.
Qed.

(** Stopping while the second of three clips plays: the queue is emptied
    and [stop] is called once, on the source that was playing. *)
Example stop_mid_playback :
  playing second_of_three_playing = [1%nat]
  /\ playbackQueue second_of_three_playing = [clip line_C]
  /\ fst (stopPlayback second_of_three_playing) = Normal tt
  /\ playbackQueue (snd (stopPlayback second_of_three_playing)) = []
  /\ stopped (snd (stopPlayback second_of_three_playing)) = [1%nat]
  /\ playing (snd (stopPlayback second_of_three_playing)) = [].
Proof. repeat split; vm_compute; reflexivity. Qed.

(** A [stop] that throws is swallowed. *)
Example stop_that_throws :
  fst (stopPlayback
         (play [say "A" "voiceA" [] (reply_done line_A 24000%float)]
            (default (init_world strict_browser) (run boot (init_world strict_browser)))))
  = Normal tt.
Proof. vm_compute. reflexivity. Qed.

(** ** Speaking *)

Lemma channel_set_fresh (audio : list float) (channels : Z) (sampleRate : float) (w : World) :
  channel_set audio
    (mkAudioBuffer channels (js_length audio) sampleRate
       (repeat 0%float (Z.to_nat (js_length audio)))) w
  = (Normal (mkAudioBuffer channels (js_length audio) sampleRate audio), w).
Proof.
  unfold channel_set, js_length. simpl. rewrite Nat2Z.id, repeat_length.
  rewrite Nat.leb_refl. unfold ret. do 3 f_equal.
  rewrite drop_ge by (rewrite repeat_length; lia). apply app_nil_r.
Qed.

Lemma resume_accepted (w : World) (audio : list float) (sampleRate : float) :
  is_null (audioCtx w) = false ->
  createBuffer_throws (platform w) 1 (js_length audio) sampleRate = None ->
  speakSentence_resume (resolved audio sampleRate) w
  = (Normal (num_of_Z (js_length audio) / sampleRate)%float,
     drainQueue
       (set_playbackQueue
          (playbackQueue w ++ [mkAudioBuffer 1 (js_length audio) sampleRate audio]) w)).
Proof.
  intros Hctx Hok.
  unfold speakSentence_resume, try_catch, bind, await, ret. simpl.
  unfold createBuffer. destruct (audioCtx w) eqn:Hc; [| discriminate Hctx].
  rewrite Hok, channel_set_fresh. reflexivity.
Qed.

Lemma resume_refused (w : World) (audio : list float) (sampleRate : float) (e : JsError) :
  is_null (audioCtx w) = false ->
  createBuffer_throws (platform w) 1 (js_length audio) sampleRate = Some e ->
  speakSentence_resume (resolved audio sampleRate) w = (Normal 0%float, console_warn e w).
Proof.
  intros Hctx Hno.
  unfold speakSentence_resume, try_catch, bind, await, ret. simpl.
  unfold createBuffer. destruct (audioCtx w) eqn:Hc; [| discriminate Hctx].
  rewrite Hno. reflexivity.
Qed.

Lemma drainQueue_settled (w : World) : settled (drainQueue w) = settled w.
Proof. open_world w. ops. simpl. split_cases; reflexivity. Qed.

(** One line of 24000 samples at 24000 Hz, spoken and awaited: the promise
    is fulfilled with 1, and one clip was made, which is now playing. *)
Example one_second_spoken :
  settled (play [say "Hello" "voiceA" [] (reply_done second_of_silence 24000%float)] booted)
  = [(0%nat, Normal 1%float)]
  /\ length (started
               (play [say "Hello" "voiceA" [] (reply_done second_of_silence 24000%float)]
                  booted)) = 1%nat
  /\ playbackQueue
       (play [say "Hello" "voiceA" [] (reply_done second_of_silence 24000%float)] booted)
     = [].
Proof. repeat split; vm_compute; reflexivity. Qed.

Lemma speakSentence_resume_normal (r : Settled) (w : World) :
  exists d w', speakSentence_resume r w = (Normal d, w').
Proof.
  unfold speakSentence_resume, try_catch, bind, await, createBuffer, exec, ret, throw.
  destruct r as [audio sampleRate | e]; simpl; [| eauto].
  destruct (audioCtx w); [| eauto].
  destruct (createBuffer_throws _ _ _ _); [eauto |].
  unfold channel_set, ret, throw. simpl.
  destruct (_ <=? _)%nat; eauto.
Qed.

Lemma settled_step (e : Event) (w : World) :
  settled (step e w) = settled w \/
  exists p d, settled (step e w) = settled w ++ [(p, Normal d)].
Proof. by_event e w; eauto. Qed.

Lemma settled_normal (w : World) :
  reachable w -> forall p c, (p, c) ∈ settled w -> exists d, c = Normal d.
Proof.
  induction 1 as [pf | e w Hw IH Hen]; intros p c Hin.
  - inversion Hin.
  - destruct (settled_step e w) as [Hsame | (q & d & Hmore)].
    + rewrite Hsame in Hin. eauto.
    + rewrite Hmore in Hin. apply elem_of_app in Hin as [Hin | Hin]; [eauto |].
      apply list_elem_of_singleton in Hin. inversion Hin. eauto.
Qed.

Lemma speakSentence_guard (p : nat) (text voiceId : string) (w : World) :
  is_null (audioCtx w) = true \/ initialized w = false ->
  speakSentence p text voiceId w = (returns (Normal 0%float), w).
Proof.
  intros [Hctx | Hini]; unfold speakSentence.
  - rewrite Hctx. reflexivity.
  - rewrite Hini, orb_true_r. reflexivity.
Qed.

(** C3. [speakSentence] never throws into its caller. Without an audio
    context, or before [init_done], the call returns 0 and leaves the world
    as it was. A call never returns by throwing, and neither does the rest
    of a call after its [await], however the request was settled. When the
    request failed (no worker to ask, or an error from the worker) the rest of
    the call only logs the error as a warning and returns 0. So every
    [speakSentence] promise that is settled in a reachable world is
    fulfilled. *)
Theorem C3_speakSentence_never_throws :
  (forall p text voiceId (w : World),
      is_null (audioCtx w) = true \/ initialized w = false ->
      speakSentence p text voiceId w = (returns (Normal 0%float), w))
  /\ (forall p text voiceId (w : World) e,
      fst (speakSentence p text voiceId w) <> returns (Throw e))
  /\ (forall r (w : World), exists d, fst (speakSentence_resume r w) = Normal d)
  /\ (forall p text voiceId (w : World),
      is_null (audioCtx w) = false -> initialized w = true -> worker w = None ->
      speakSentence p text voiceId w
        = (suspended,
           queueMicrotask
             (resume_speak p (rejected (Error "TTS worker not initialized"))) w))
  /\ (forall (w : World) p e rest,
      jobs w = resume_speak p (rejected e) :: rest ->
      step microtask w
        = (w |> set_jobs rest |> console_warn e |> settle p (Normal 0%float)))
  /\ (forall (w : World) p c, reachable w -> (p, c) ∈ settled w -> exists d, c = Normal d).
Proof.
  repeat split.
  - intros p text voiceId w. apply speakSentence_guard.
  - intros p text voiceId w e. unfold speakSentence, generateAudio.
    destruct (is_null (audioCtx w) || negb (initialized w)); [discriminate |].
    destruct (worker w); discriminate.
  - intros r w. destruct (speakSentence_resume_normal r w) as (d & w' & ->). eauto.
  - intros p text voiceId w Hctx Hini Hworker. unfold speakSentence, generateAudio.
    rewrite Hctx, Hini, Hworker. reflexivity.
  - intros w p e rest Hjobs. unfold step. rewrite Hjobs. reflexivity.
  - intros w p c Hw. apply settled_normal. exact Hw.
Qed.

Lemma C3_speakSentence_never_throws_witness :
  is_null (audioCtx (init_world browser)) = true
  /\ speakSentence 0 "Hello" "voiceA" (init_world browser)
     = (returns (Normal 0%float), init_world browser)
  /\ jobs (queueMicrotask (resume_speak 0 (rejected (Error "boom"))) (init_world browser))
     = [resume_speak 0 (rejected (Error "boom"))]
  /\ warnings
       (step microtask
          (queueMicrotask (resume_speak 0 (rejected (Error "boom"))) (init_world browser)))
     = [Error "boom"].
Proof.
  destruct C3_speakSentence_never_throws as (Hguard & _ & _ & _ & Hfail & _).
  split; [reflexivity |]. split; [apply Hguard; left; reflexivity |].
  split; [reflexivity |].
  rewrite (Hfail _ 0%nat (Error "boom") []); reflexivity.
Defined.

(** A line the worker fails is skipped with a warning and 0; the lines
    before and after it are played. *)
Example failed_line_is_skipped :
  settled (play middle_line_fails booted)
  = [(0%nat, Normal (num_of_Z 1 / 24000)%float);
     (1%nat, Normal 0%float);
     (2%nat, Normal (num_of_Z 3 / 24000)%float)]
  /\ warnings (play middle_line_fails booted) = [Error "Error: synthesis failed"]
  /\ clips_started (play middle_line_fails booted) ++ playbackQueue (play middle_line_fails booted)
     = [clip line_A; clip line_C].
Proof. repeat split; vm_compute; reflexivity. Qed.

(** ** Ready without a device *)

Lemma run_reachable (es : list Event) (w w' : World) :
  reachable w -> run es w = Some w' -> reachable w'.
Proof.
  revert w. induction es as [| e es IH]; simpl; intros w Hw Hrun.
  - injection Hrun as <-. exact Hw.
  - destruct (enabled e w) eqn:He; [| discriminate].
    apply (IH (step e w)); [apply reachable_step; assumption | exact Hrun].
Qed.

(** C10. Once [init_done] has been handled the manager says it is ready
    while it has no audio context yet: the context is made by the rest of
    [_init], which is still waiting in the microtask queue. In that world
    [speakSentence] returns 0 and changes nothing. The context appears when
    that microtask runs, unless the platform refuses it, in which case the
    manager stays ready without a device. *)
Theorem C10_ready_without_device (pf : Platform) (onProgress : bool) :
  reachable (just_initialized pf onProgress)
  /\ isReady (just_initialized pf onProgress) = true
  /\ audioCtx (just_initialized pf onProgress) = None
  /\ jobs (just_initialized pf onProgress) = [resume_init None]
  /\ (forall p text voiceId,
        speakSentence p text voiceId (just_initialized pf onProgress)
          = (returns (Normal 0%float), just_initialized pf onProgress))
  /\ reachable (step microtask (just_initialized pf onProgress))
  /\ isReady (step microtask (just_initialized pf onProgress)) = true
  /\ audioCtx (step microtask (just_initialized pf onProgress))
     = match AudioContext_throws pf with
       | None => Some (mkAudioContext TTS_SAMPLE_RATE)
       | Some _ => None
       end.
Proof.
  assert (Hw : reachable (just_initialized pf onProgress)).
  { apply (run_reachable [call_init onProgress; message init_done] (init_world pf));
      [apply reachable_init | reflexivity]. }
  split; [exact Hw |].
  split; [reflexivity |].
  split; [reflexivity |].
  split; [reflexivity |].
  split; [intros p text voiceId; apply speakSentence_guard; left; reflexivity |].
  split; [apply reachable_step; [exact Hw | reflexivity] |].
  split; cbn; unfold _init_resume; cbn; destruct (AudioContext_throws pf); reflexivity.
Qed.

(** On a platform that refuses the audio context the manager stays ready
    without a device, [init] fails, and every line spoken returns 0. *)
Example ready_and_mute :
  isReady (step microtask (just_initialized mute_browser false)) = true
  /\ audioCtx (step microtask (just_initialized mute_browser false)) = None
  /\ jobs (step microtask (just_initialized mute_browser false)) = []
  /\ initPromise (step microtask (just_initialized mute_browser false))
     = Some (Rejected (DOMException "NotSupportedError"))
  /\ settled (step hello (step microtask (just_initialized mute_browser false)))
     = [(0%nat, Normal 0%float)].
Proof. repeat split; vm_compute; reflexivity. Qed.

(** ** One worker *)

Lemma init_inv_step (e : Event) (w : World) : init_inv w -> init_inv (step e w).
Proof.
  unfold init_inv. intros H. by_event e w; simpl in *; split_hyps;
    intuition (subst; simpl in *; try congruence).
Qed.

Lemma init_inv_reachable (w : World) : reachable w -> init_inv w.
Proof.
  induction 1 as [pf | e w Hw IH Hen].
  - repeat split.
  - apply init_inv_step, IH.
Qed.

(** C6. [init] on a manager that is ready returns at once and changes
    nothing. [init] while [initPromise] is set hands the caller that same
    promise, whatever its state, and changes nothing: no second Worker. The
    first [init] constructs one Worker and sets [initPromise], pending. In
    every reachable world the number of Workers constructed is 1 if [init] was
    ever called and 0 otherwise. *)
Theorem C6_init_idempotent_coalescing :
  (forall onProgress (w : World),
      initialized w = true -> init onProgress w = (with_undefined, w))
  /\ (forall onProgress (w : World) st,
      initialized w = false -> initPromise w = Some st ->
      init onProgress w = (with_initPromise, w))
  /\ (forall onProgress (w : World),
      initialized w = false -> initPromise w = None ->
      fst (init onProgress w) = with_initPromise /\
      initPromise (snd (init onProgress w)) = Some Pending /\
      spawned (snd (init onProgress w)) = S (spawned w))
  /\ (forall w : World,
      reachable w ->
      spawned w = match initPromise w with Some _ => 1%nat | None => 0%nat end
      /\ (spawned w <= 1)%nat).
Proof.
  split; [| split; [| split]].
  - intros onProgress w Hini. unfold init. rewrite Hini. reflexivity.
  - intros onProgress w st Hini Hpromise. unfold init. rewrite Hini, Hpromise. reflexivity.
  - intros onProgress w Hini Hpromise. unfold init. rewrite Hini, Hpromise.
    open_world w. repeat split.
  - intros w Hw. apply init_inv_reachable in Hw. unfold init_inv in Hw.
    destruct (initPromise w); intuition lia.
Qed.

Lemma C6_init_idempotent_coalescing_witness :
  init true booted = (with_undefined, booted)
  /\ init true (step (call_init false) (init_world browser))
     = (with_initPromise, step (call_init false) (init_world browser))
  /\ spawned (step (call_init true) (step (call_init false) (init_world browser))) = 1%nat.
Proof.
  destruct C6_init_idempotent_coalescing as (Hready & Hsame & _ & Hone).
  split; [apply Hready; reflexivity |].
  split; [apply (Hsame true _ Pending); reflexivity |].
  apply (Hone (step (call_init true) (step (call_init false) (init_world browser)))).
  apply reachable_step; [| reflexivity].
  apply reachable_step; [| reflexivity].
  apply reachable_init.
Defined.

(** ** Request ids *)

Lemma MAX_EXACT_pos : 0 < MAX_EXACT.
Proof. reflexivity. Qed.

Lemma js_succ_id_of_request (k : nat) : js_succ (id_of_request k) = id_of_request (S k).
Proof.
  unfold js_succ, id_of_request. pose proof MAX_EXACT_pos.
  destruct (Z.ltb_spec (Z.min (Z.of_nat k) MAX_EXACT) MAX_EXACT); lia.
Qed.

Lemma ids_step (e : Event) (w : World) :
  (generate_ids (step e w) = generate_ids w /\ nextId (step e w) = nextId w) \/
  (generate_ids (step e w) = generate_ids w ++ [nextId w] /\
   nextId (step e w) = js_succ (nextId w)).
Proof.
  unfold generate_ids.
  by_event e w; rewrite ?omap_app; simpl; rewrite ?app_nil_r; auto.
Qed.

Lemma ids_inv_reachable (w : World) : reachable w -> ids_inv w.
Proof.
  induction 1 as [pf | e w Hw [IHids IHnext] Hen].
  - split; reflexivity.
  - unfold ids_inv.
    destruct (ids_step e w) as [[-> ->] | [-> ->]]; [split; assumption |].
    rewrite length_app, Nat.add_1_r, seq_S, fmap_app. simpl.
    rewrite <- IHids, IHnext. split; [reflexivity | apply js_succ_id_of_request].
Qed.

Lemma request_id (w : World) (k : nat) (id : Z) :
  reachable w -> generate_ids w !! k = Some id -> id = id_of_request k.
Proof.
  intros Hw Hk. destruct (ids_inv_reachable w Hw) as [Hids _].
  rewrite Hids in Hk. apply list_lookup_fmap_Some in Hk as (j & -> & Hj).
  apply lookup_seq in Hj as [-> _]. reflexivity.
Qed.

(** [js_succ] against binary64 addition, at both ends of its range. *)
Example js_succ_is_binary64_addition :
  num_of_Z (js_succ 0) = (num_of_Z 0 + 1)%float
  /\ num_of_Z (js_succ 24000) = (num_of_Z 24000 + 1)%float
  /\ num_of_Z (js_succ (MAX_EXACT - 1)) = (num_of_Z (MAX_EXACT - 1) + 1)%float
  /\ num_of_Z (js_succ MAX_EXACT) = (num_of_Z MAX_EXACT + 1)%float
  /\ js_succ MAX_EXACT = MAX_EXACT.
Proof. repeat split; vm_compute; reflexivity. Qed.

(** C7, amended. As long as a manager has made at most 2^53 + 1 requests,
    the request made after [k] others carries the id [k]: ids start at 0, go
    up by one, are strictly increasing and are never reused. *)
Theorem C7_ids_count_up (w : World) :
  reachable w ->
  Z.of_nat (length (generate_ids w)) <= MAX_EXACT + 1 ->
  (forall k id, generate_ids w !! k = Some id -> id = Z.of_nat k)
  /\ (forall i j a b,
        generate_ids w !! i = Some a -> generate_ids w !! j = Some b ->
        (i < j)%nat -> a < b)
  /\ (forall i j a b,
        generate_ids w !! i = Some a -> generate_ids w !! j = Some b ->
        i <> j -> a <> b).
Proof.
  intros Hw Hfew.
  assert (Hid : forall k id, generate_ids w !! k = Some id -> id = Z.of_nat k).
  { intros k id Hk. pose proof (lookup_lt_Some _ _ _ Hk) as Hlt.
    rewrite (request_id w k id Hw Hk). unfold id_of_request. lia. }
  split; [exact Hid | split].
  - intros i j a b Hi Hj Hlt. rewrite (Hid i a Hi), (Hid j b Hj). lia.
  - intros i j a b Hi Hj Hne. rewrite (Hid i a Hi), (Hid j b Hj). lia.
Qed.

Lemma C7_ids_count_up_witness :
  reachable (after_requests 3)
  /\ Z.of_nat (length (generate_ids (after_requests 3))) <= MAX_EXACT + 1
  /\ generate_ids (after_requests 3) = [0; 1; 2]
  /\ (forall k id, generate_ids (after_requests 3) !! k = Some id -> id = Z.of_nat k).
Proof.
  assert (Hw : reachable (after_requests 3)).
  { apply (run_reachable (boot ++ [hello; hello; hello]) (init_world browser));
      [apply reachable_init | vm_compute; reflexivity]. }
  assert (Hfew : Z.of_nat (length (generate_ids (after_requests 3))) <= MAX_EXACT + 1)
    by (vm_compute; discriminate).
  split; [exact Hw |]. split; [exact Hfew |]. split; [vm_compute; reflexivity |].
  exact (proj1 (C7_ids_count_up (after_requests 3) Hw Hfew)).
Defined.

Lemma booted_reachable : reachable booted.
Proof.
  apply (run_reachable boot (init_world browser));
    [apply reachable_init | vm_compute; reflexivity].
Qed.

Lemma hello_served (w : World) :
  serving w ->
  serving (step hello w) /\ generate_ids (step hello w) = generate_ids w ++ [nextId w].
Proof.
  unfold serving, generate_ids, hello. intros (Hini & Hctx & Hworker).
  open_world w. subst. destruct audioCtx0; [| discriminate].
  destruct worker0; [| discriminate].
  ops. simpl. rewrite omap_app. repeat split.
Qed.

Lemma after_requests_served (n : nat) :
  reachable (after_requests n) /\ serving (after_requests n) /\
  length (generate_ids (after_requests n)) = n.
Proof.
  induction n as [| n (Hreach & Hserving & Hlen)].
  - split; [apply booted_reachable |]. split; [| reflexivity]. repeat split.
  - change (after_requests (S n)) with (step hello (after_requests n)).
    destruct (hello_served _ Hserving) as [Hserving' Hids].
    split; [apply reachable_step; [exact Hreach | reflexivity] |].
    split; [exact Hserving' |].
    rewrite Hids, length_app, Hlen. simpl. lia.
Qed.

Lemma after_requests_id (n k : nat) :
  (k < n)%nat -> generate_ids (after_requests n) !! k = Some (id_of_request k).
Proof.
  intros Hk. destruct (after_requests_served n) as (Hreach & _ & Hlen).
  destruct (lookup_lt_is_Some_2 (generate_ids (after_requests n)) k) as [id Hid];
    [lia |].
  rewrite Hid. f_equal. apply (request_id _ _ _ Hreach Hid).
Qed.

Lemma id_reused (n : nat) :
  Z.of_nat n = MAX_EXACT ->
  generate_ids (after_requests (n + 2)) !! n = Some MAX_EXACT
  /\ generate_ids (after_requests (n + 2)) !! (n + 1)%nat = Some MAX_EXACT.
Proof.
  intros Hn. split.
  - rewrite after_requests_id by lia. unfold id_of_request. rewrite Hn, Z.min_id.
    reflexivity.
  - rewrite after_requests_id by lia. unfold id_of_request.
    rewrite Nat2Z.inj_add, Hn, Z.min_r by lia. reflexivity.
Qed.

Lemma two_53_exact : Z.of_nat two_53 = MAX_EXACT.
Proof. apply Z2Nat.id, Z.lt_le_incl, MAX_EXACT_pos. Qed.

(** C7 as stated fails: after 2^53 + 2 requests the last two carry the same
    id, 2^53. *)
Lemma C7_id_reused_past_2_53 :
  reachable (after_requests (two_53 + 2))
  /\ generate_ids (after_requests (two_53 + 2)) !! two_53 = Some MAX_EXACT
  /\ generate_ids (after_requests (two_53 + 2)) !! (two_53 + 1)%nat = Some MAX_EXACT.
Proof.
  split; [apply after_requests_served | exact (id_reused two_53 two_53_exact)].
Qed.

(** ** First in, first out *)

Lemma drainQueue_lineup (w : World) :
  clips_started (drainQueue w) ++ playbackQueue (drainQueue w)
  = clips_started w ++ playbackQueue w.
Proof.
  unfold clips_started. open_world w. ops. simpl. split_cases; try reflexivity.
  rewrite fmap_app, <- app_assoc. reflexivity.
Qed.

Lemma ended_waiting (table : gmap Z PendingRequest) (src : nat) (w : World) :
  waiting_for table w ->
  waiting_for table (step (ended_event src) w)
  /\ platform (step (ended_event src) w) = platform w
  /\ clips_started (step (ended_event src) w) ++ playbackQueue (step (ended_event src) w)
     = clips_started w ++ playbackQueue w.
Proof.
  unfold waiting_for, clips_started. intros H. open_world w. ops. simpl.
  split_cases; simpl; rewrite ?fmap_app, <- ?app_assoc; intuition.
Qed.

Lemma deliver_ended_waiting (table : gmap Z PendingRequest) (srcs : list nat) (w : World) :
  waiting_for table w ->
  waiting_for table (deliver_ended srcs w)
  /\ platform (deliver_ended srcs w) = platform w
  /\ clips_started (deliver_ended srcs w) ++ playbackQueue (deliver_ended srcs w)
     = clips_started w ++ playbackQueue w.
Proof.
  revert w. induction srcs as [| src srcs IH]; intros w Hw;
    [split; [exact Hw | split; reflexivity] |].
  change (deliver_ended (src :: srcs) w)
    with (deliver_ended srcs (step (ended_event src) w)).
  destruct (ended_waiting table src w Hw) as (Hw' & Hpf & Hline).
  destruct (IH _ Hw') as (Hw'' & Hpf' & Hline').
  split; [exact Hw'' |]. split; congruence.
Qed.

Lemma call_waiting (text voiceId : string) (w : World) :
  at_rest w ->
  waiting_for {[nextId w := mkPending (promises w)]} (step (call_speakSentence text voiceId) w)
  /\ platform (step (call_speakSentence text voiceId) w) = platform w
  /\ clips_started (step (call_speakSentence text voiceId) w)
     ++ playbackQueue (step (call_speakSentence text voiceId) w)
     = clips_started w ++ playbackQueue w.
Proof.
  intros (Hini & Hctx & Hworker & Hjobs & Hpending).
  open_world w. subst. destruct audioCtx0; [| discriminate]. repeat split.
Qed.

Lemma drainQueue_at_rest (w : World) :
  at_rest w -> at_rest (drainQueue w) /\ platform (drainQueue w) = platform w.
Proof.
  unfold at_rest, waiting_for. intros H. open_world w. ops. simpl.
  split_cases; simpl; intuition.
Qed.

Lemma answer_at_rest (id : Z) (req : PendingRequest) (r : Reply) (w : World) :
  waiting_for {[id := req]} w ->
  at_rest (step microtask (step (message (reply_message id r)) w))
  /\ platform (step microtask (step (message (reply_message id r)) w)) = platform w
  /\ clips_started (step microtask (step (message (reply_message id r)) w))
     ++ playbackQueue (step microtask (step (message (reply_message id r)) w))
     = clips_started w ++ playbackQueue w ++ clip_of (platform w) (say "" "" [] r).
Proof.
  intros (Hini & Hctx & Hworker & Hjobs & Hpending).
  open_world w. subst. destruct audioCtx0 as [ctx |]; [| discriminate].
  destruct r as [audio sampleRate | error]; simpl.
  - unfold handleMessage. simpl. rewrite lookup_singleton_eq. simpl.
    rewrite delete_singleton_eq.
    destruct (createBuffer_throws pf 1 (js_length audio) sampleRate) as [e |] eqn:Hok.
    + rewrite (resume_refused _ _ _ e) by (simpl; auto). simpl.
      rewrite app_nil_r. repeat split.
    + rewrite resume_accepted by (simpl; auto).
      match goal with |- context [drainQueue ?x] => set (queued := x) end.
      destruct (drainQueue_at_rest queued) as [Hrest Hpf]; [repeat split |].
      pose proof (drainQueue_lineup queued) as Hline.
      revert Hrest Hpf Hline. generalize (drainQueue queued). intros w' Hrest Hpf Hline.
      open_world w'. unfold at_rest, waiting_for, clips_started in *. simpl in *.
      split; [exact Hrest |]. split; [exact Hpf |].
      rewrite Hline. reflexivity.
  - unfold handleMessage. simpl. rewrite lookup_singleton_eq. simpl.
    rewrite delete_singleton_eq. rewrite app_nil_r. repeat split.
Qed.

Lemma speak_and_await_lineup (text voiceId : string) (during : list nat) (r : Reply)
    (w : World) :
  at_rest w ->
  at_rest (speak_and_await text voiceId during r w)
  /\ platform (speak_and_await text voiceId during r w) = platform w
  /\ clips_started (speak_and_await text voiceId during r w)
     ++ playbackQueue (speak_and_await text voiceId during r w)
     = clips_started w ++ playbackQueue w ++ clip_of (platform w) (say text voiceId during r).
Proof.
  intros Hrest. unfold speak_and_await.
  destruct (call_waiting text voiceId w Hrest) as (Hcall & Hpf1 & Hline1).
  destruct (deliver_ended_waiting _ during _ Hcall) as (Hwait & Hpf2 & Hline2).
  destruct (answer_at_rest _ _ r _ Hwait) as (Hrest' & Hpf3 & Hline3).
  split; [exact Hrest' |]. split; [congruence |].
  rewrite Hline3, app_assoc, Hline2, Hline1, Hpf2, Hpf1, <- app_assoc. reflexivity.
Qed.

Lemma play_lineup (script : list Action) (w : World) :
  at_rest w ->
  at_rest (play script w)
  /\ clips_started (play script w) ++ playbackQueue (play script w)
     = clips_started w ++ playbackQueue w ++ clips_of (platform w) script.
Proof.
  revert w. induction script as [| a script IH]; intros w Hrest.
  - split; [exact Hrest |]. simpl. rewrite app_nil_r. reflexivity.
  - change (play (a :: script) w) with (play script (act w a)).
    assert (Hact : at_rest (act w a) /\ platform (act w a) = platform w
                   /\ clips_started (act w a) ++ playbackQueue (act w a)
                      = clips_started w ++ playbackQueue w ++ clip_of (platform w) a).
    { destruct a as [text voiceId during r | src].
      - apply speak_and_await_lineup, Hrest.
      - destruct (ended_waiting ∅ src w Hrest) as (H1 & H2 & H3).
        split; [exact H1 |]. split; [exact H2 |].
        simpl. rewrite app_nil_r. exact H3. }
    destruct Hact as (Hrest' & Hpf & Hline).
    destruct (IH (act w a) Hrest') as [Hrest'' Hline'].
    split; [exact Hrest'' |].
    rewrite Hline', app_assoc, Hline, Hpf. simpl. rewrite <- !app_assoc. reflexivity.
Qed.

(** C1. [drainQueue] never reorders: in every state the clips already
    started followed by the clips still queued are the same list before and
    after it. When it does start a clip, that clip is the head of the queue,
    and the rest of the queue stays as it was. And when every
    [speakSentence] call is awaited before the next one is made, on a device
    that ends clips at any moments, the clips started followed by the clips
    queued are the clips of the calls in call order: what the device has
    been handed is always a prefix of the calls' clips, in the order of the
    calls. *)
Theorem C1_playback_is_fifo :
  (forall w : World,
      clips_started (drainQueue w) ++ playbackQueue (drainQueue w)
      = clips_started w ++ playbackQueue w)
  /\ (forall (w : World) buffer rest,
      isPlaying w = false -> is_null (audioCtx w) = false ->
      playbackQueue w = buffer :: rest ->
      playbackQueue (drainQueue w) = rest /\
      started (drainQueue w) = started w ++ [(nodes w, buffer)] /\
      isPlaying (drainQueue w) = true)
  /\ (forall (w : World) script,
      at_rest w ->
      clips_started (play script w) ++ playbackQueue (play script w)
      = clips_started w ++ playbackQueue w ++ clips_of (platform w) script)
  /\ (forall (w : World) script,
      at_rest w -> clips_started w = [] -> playbackQueue w = [] ->
      clips_started (play script w) `prefix_of` clips_of (platform w) script).
Proof.
  split; [exact drainQueue_lineup | split; [| split]].
  - intros w buffer rest Hidle Hctx Hqueue. open_world w. subst.
    destruct audioCtx0; [| discriminate]. repeat split.
  - intros w script Hrest. apply play_lineup, Hrest.
  - intros w script Hrest Hnone Hempty.
    exists (playbackQueue (play script w)).
    rewrite (proj2 (play_lineup script w Hrest)), Hnone, Hempty. reflexivity.
Qed.

Lemma booted_at_rest : at_rest booted.
Proof. repeat split. Qed.

Lemma C1_playback_is_fifo_witness :
  at_rest booted
  /\ clips_started (play three_lines booted) = [clip line_A; clip line_B; clip line_C].
Proof.
  split; [exact booted_at_rest |].
  destruct C1_playback_is_fifo as (_ & _ & Hfifo & _).
  pose proof (Hfifo booted three_lines booted_at_rest) as Hline.
  assert (Hqueue : playbackQueue (play three_lines booted) = []) by (vm_compute; reflexivity).
  rewrite Hqueue, app_nil_r in Hline. rewrite Hline. vm_compute. reflexivity.
Defined.

(** ** One call, one clip *)

Lemma ended_settled (src : nat) (w : World) :
  settled (step (ended_event src) w) = settled w.
Proof. by_fields w; reflexivity. Qed.

Lemma deliver_ended_settled (srcs : list nat) (w : World) :
  settled (deliver_ended srcs w) = settled w.
Proof.
  revert w. induction srcs as [| src srcs IH]; intros w; [reflexivity |].
  change (deliver_ended (src :: srcs) w) with (deliver_ended srcs (step (ended_event src) w)).
  rewrite IH. apply ended_settled.
Qed.

Lemma call_suspends (text voiceId : string) (w : World) :
  at_rest w ->
  settled (step (call_speakSentence text voiceId) w) = settled w
  /\ playbackQueue (step (call_speakSentence text voiceId) w) = playbackQueue w
  /\ started (step (call_speakSentence text voiceId) w) = started w
  /\ posted (step (call_speakSentence text voiceId) w)
     = posted w ++ [GenerateMessage (nextId w) text voiceId None].
Proof.
  intros (Hini & Hctx & Hworker & Hjobs & Hpending).
  open_world w. subst. destruct audioCtx0; [| discriminate]. repeat split.
Qed.

Lemma answer_pushes_clip (id : Z) (req : PendingRequest) (audio : list float)
    (sampleRate : float) (w : World) :
  waiting_for {[id := req]} w ->
  createBuffer_throws (platform w) 1 (js_length audio) sampleRate = None ->
  settled (step (message (generate_done id audio sampleRate)) w) = settled w
  /\ step microtask (step (message (generate_done id audio sampleRate)) w)
     = settle (awaiter req) (Normal (num_of_Z (js_length audio) / sampleRate)%float)
         (drainQueue
            (set_playbackQueue
               (playbackQueue w ++ [mkAudioBuffer 1 (js_length audio) sampleRate audio])
               (set_jobs [] (step (message (generate_done id audio sampleRate)) w)))).
Proof.
  intros (Hini & Hctx & Hworker & Hjobs & Hpending) Hok.
  open_world w. subst. destruct audioCtx0 as [ctx |]; [| discriminate].
  unfold handleMessage. simpl. rewrite lookup_singleton_eq. simpl.
  split; [reflexivity |]. rewrite resume_accepted by (simpl; auto). reflexivity.
Qed.

(** C9. A [speakSentence] call that is awaited and answered with samples
    [createBuffer] accepts. The call itself settles nothing and queues
    nothing: it posts the request and waits. When the answer has come, the
    world is the one where the clip made of those samples at that rate was
    put at the back of the queue, [drainQueue] was called, and the promise
    of the call was fulfilled with the number of samples divided by the
    sample rate, a value fixed by the answer alone. So the call adds one
    promise to those settled, fulfilled with that value, and one clip, that
    clip, to the clips started or queued. For 24000 samples at 24000 Hz the
    value is 1. *)
Theorem C9_duration_and_one_clip (w : World) (text voiceId : string) (during : list nat)
    (audio : list float) (sampleRate : float) :
  at_rest w ->
  createBuffer_throws (platform w) 1 (js_length audio) sampleRate = None ->
  let clip := mkAudioBuffer 1 (js_length audio) sampleRate audio in
  let duration := (num_of_Z (js_length audio) / sampleRate)%float in
  let called := deliver_ended during (step (call_speakSentence text voiceId) w) in
  let answered := step (message (generate_done (nextId w) audio sampleRate)) called in
  let w' := speak_and_await text voiceId during (reply_done audio sampleRate) w in
  (settled called = settled w
   /\ playbackQueue (step (call_speakSentence text voiceId) w) = playbackQueue w
   /\ posted called = posted w ++ [GenerateMessage (nextId w) text voiceId None])
  /\ w' = settle (promises w) (Normal duration)
            (drainQueue
               (set_playbackQueue (playbackQueue called ++ [clip]) (set_jobs [] answered)))
  /\ settled w' = settled w ++ [(promises w, Normal duration)]
  /\ clips_started w' ++ playbackQueue w' = clips_started w ++ playbackQueue w ++ [clip]
  /\ (js_length audio = 24000 -> sampleRate = 24000%float -> duration = 1%float).
Proof.
  intros Hrest Hok clip duration called answered w'.
  destruct (call_waiting text voiceId w Hrest) as (Hcall & Hpf1 & _).
  destruct (call_suspends text voiceId w Hrest) as (Hset1 & Hqueue1 & _ & Hposted1).
  destruct (deliver_ended_waiting _ during _ Hcall) as (Hwait & Hpf2 & _).
  assert (Hset2 : settled called = settled w).
  { subst called. rewrite deliver_ended_settled. exact Hset1. }
  assert (Hok' : createBuffer_throws (platform called) 1 (js_length audio) sampleRate = None).
  { subst called. rewrite Hpf2, Hpf1. exact Hok. }
  destruct (answer_pushes_clip _ _ audio sampleRate called Hwait Hok') as (Hset3 & Hrun).
  assert (Hworld : w' = settle (promises w) (Normal duration)
                          (drainQueue
                             (set_playbackQueue (playbackQueue called ++ [clip])
                                (set_jobs [] answered)))) by exact Hrun.
  split; [split; [exact Hset2 | split; [exact Hqueue1 |]] |].
  { subst called. clear -Hposted1.
    revert Hposted1. generalize (step (call_speakSentence text voiceId) w). intros w1 H1.
    rewrite <- H1. clear H1. revert w1.
    induction during as [| src srcs IH]; intros w1; [reflexivity |].
    change (deliver_ended (src :: srcs) w1)
      with (deliver_ended srcs (step (ended_event src) w1)).
    rewrite IH. by_fields w1; reflexivity. }
  split; [exact Hworld |]. split; [| split].
  - rewrite Hworld.
    match goal with |- context [drainQueue ?x] =>
      pose proof (drainQueue_settled x) as Hkeep; revert Hkeep;
      generalize (drainQueue x)
    end.
    intros w2 Hkeep.
    assert (Hsame : settled w2 = settled w).
    { rewrite Hkeep, <- Hset2, <- Hset3. subst answered.
      generalize (step (message (generate_done (nextId w) audio sampleRate)) called).
      intros w3. open_world w3. reflexivity. }
    rewrite <- Hsame. open_world w2. reflexivity.
  - destruct (speak_and_await_lineup text voiceId during (reply_done audio sampleRate) w Hrest)
      as (_ & _ & Hline).
    simpl in Hline. rewrite Hok in Hline. exact Hline.
  - subst duration. intros -> ->. reflexivity.
Qed.

Lemma C9_duration_and_one_clip_witness :
  (at_rest booted
   /\ createBuffer_throws (platform booted) 1 (js_length second_of_silence) 24000%float = None)
  /\ js_length second_of_silence = 24000
  /\ settled (speak_and_await "Hello" "voiceA" [] (reply_done second_of_silence 24000%float)
                booted)
     = [(0%nat, Normal 1%float)]
  /\ clips_started
       (speak_and_await "Hello" "voiceA" [] (reply_done second_of_silence 24000%float) booted)
     ++ playbackQueue
          (speak_and_await "Hello" "voiceA" [] (reply_done second_of_silence 24000%float)
             booted)
     = [mkAudioBuffer 1 24000 24000%float second_of_silence].
Proof.
  assert (Hok : createBuffer_throws (platform booted) 1 (js_length second_of_silence)
                  24000%float = None) by reflexivity.
  assert (Hlen : js_length second_of_silence = 24000) by (vm_compute; reflexivity).
  split; [split; [exact booted_at_rest | exact Hok] |]. split; [exact Hlen |].
  destruct (C9_duration_and_one_clip booted "Hello" "voiceA" [] second_of_silence
              24000%float booted_at_rest Hok) as (_ & _ & Hsettled & Hline & Hone).
  split.
  - rewrite Hsettled, (Hone Hlen eq_refl). reflexivity.
  - rewrite Hline, Hlen. reflexivity.
Defined.

(** ** One clip at a time *)

Lemma drainQueue_noop (w : World) :
  isPlaying w = true \/ playbackQueue w = [] \/ audioCtx w = None ->
  drainQueue w = w.
Proof.
  intros H. open_world w. unfold drainQueue. simpl.
  destruct H as [-> | [-> | ->]]; [reflexivity | |].
  - destruct isPlaying0; reflexivity.
  - destruct isPlaying0, playbackQueue0; reflexivity.
Qed.

Lemma current_inv_view (w w' : World) :
  playback_view w' = playback_view w -> current_inv w -> current_inv w'.
Proof.
  unfold playback_view, current_inv, playing. intros [= Hdev Hcur Hplaying].
  rewrite Hdev, Hcur, Hplaying. exact id.
Qed.

Lemma elem_of_playing (w : World) (src : nat) :
  src ∈ playing w <-> (src ∈ (started w).*1) /\ (src ∉ stopped w) /\ (src ∉ ended w).
Proof. unfold playing. rewrite list_elem_of_filter. tauto. Qed.

Lemma drainQueue_current_inv (w : World) : current_inv w -> current_inv (drainQueue w).
Proof.
  intros (Hfresh & Hdup & Hcur & Hidle).
  unfold current_inv. setoid_rewrite elem_of_playing.
  setoid_rewrite elem_of_playing in Hcur.
  open_world w. unfold drainQueue. simpl.
  destruct isPlaying0; [tauto |].
  destruct playbackQueue0 as [| buffer rest]; [tauto |].
  destruct audioCtx0; [| tauto]. simpl.
  specialize (Hidle eq_refl). subst currentSource0.
  rewrite fmap_app. simpl. repeat split.
  - intros src [Hin | Hin]%elem_of_app.
    + apply Hfresh in Hin. lia.
    + apply list_elem_of_singleton in Hin. lia.
  - apply NoDup_app. split; [exact Hdup |]. split; [| apply NoDup_singleton].
    intros src Hin Hnew. apply list_elem_of_singleton in Hnew. subst src.
    apply Hfresh in Hin. lia.
  - intros src ([Hin | Hin]%elem_of_app & Hstop & Hend).
    + discriminate (Hcur src (conj Hin (conj Hstop Hend))).
    + apply list_elem_of_singleton in Hin. congruence.
  - discriminate.
Qed.

(** After the current source has been stopped or has ended. *)
Lemma silenced_current_inv (w w' : World) :
  current_inv w ->
  nodes w' = nodes w -> started w' = started w ->
  (forall src, src ∈ stopped w -> src ∈ stopped w') ->
  (forall src, src ∈ ended w -> src ∈ ended w') ->
  (forall src, currentSource w = Some src -> src ∈ stopped w' \/ src ∈ ended w') ->
  currentSource w' = None ->
  current_inv w'.
Proof.
  intros (Hfresh & Hdup & Hcur & Hidle) Hnodes Hstarted Hstop Hend Hsilenced Hnone.
  unfold current_inv. setoid_rewrite elem_of_playing.
  setoid_rewrite elem_of_playing in Hcur.
  rewrite Hnodes, Hstarted, Hnone. repeat split; try assumption.
  intros src (Hin & Hnotstop & Hnotend). exfalso.
  destruct (Hsilenced src) as [H | H]; [| tauto | tauto].
  apply Hcur. repeat split; [exact Hin | |]; intros H; [apply Hnotstop | apply Hnotend]; auto.
Qed.

Lemma current_inv_step (e : Event) (w : World) :
  current_inv w -> of_current e w = true -> current_inv (step e w).
Proof.
  intros Hinv Hcur. destruct e as [cb | text voiceId | | msg | | src].
  - apply (current_inv_view w); [| exact Hinv]. by_fields w; reflexivity.
  - apply (current_inv_view w); [| exact Hinv].
    by_fields w; reflexivity.
  - apply (silenced_current_inv w); try exact Hinv;
      open_world w; ops; simpl; split_cases; simpl; try reflexivity; try tauto;
      intros src0; rewrite ?elem_of_app, ?list_elem_of_singleton; try tauto;
      intros [= ->]; tauto.
  - apply (current_inv_view w); [| exact Hinv]. by_fields w; reflexivity.
  - unfold step. destruct (jobs w) as [| [failure | p r] rest] eqn:Hjobs; [exact Hinv | |].
    + apply (current_inv_view w); [| exact Hinv].
      clear. open_world w. ops. simpl. split_cases; reflexivity.
    + unfold run_job.
      destruct (speakSentence_resume r (set_jobs rest w)) as [c w'] eqn:Hresume.
      apply (current_inv_view w'); [clear; open_world w'; reflexivity |].
      revert Hresume. unfold speakSentence_resume, try_catch, bind, await, exec, ret, throw.
      destruct r as [audio sampleRate | reason]; simpl.
      * unfold createBuffer.
        destruct (audioCtx (set_jobs rest w));
          [| intros [= _ <-]; apply (current_inv_view w); [| exact Hinv];
             clear; open_world w; reflexivity].
        destruct (createBuffer_throws _ _ _ _);
          [intros [= _ <-]; apply (current_inv_view w); [| exact Hinv];
           clear; open_world w; reflexivity |].
        unfold channel_set, ret, throw. simpl.
        destruct (_ <=? _)%nat; intros [= _ <-].
        -- apply drainQueue_current_inv.
           apply (current_inv_view w); [| exact Hinv]. clear. open_world w. reflexivity.
        -- apply (current_inv_view w); [| exact Hinv]. clear. open_world w. reflexivity.
      * intros [= _ <-]. apply (current_inv_view w); [| exact Hinv].
        clear. open_world w. reflexivity.
  - unfold step, onended. apply drainQueue_current_inv.
    apply (silenced_current_inv w); try exact Hinv;
      revert Hcur; open_world w; try reflexivity;
      intros Hcur src0; rewrite ?elem_of_app, ?list_elem_of_singleton; try tauto.
    destruct currentSource0 as [cur |]; [| discriminate].
    apply Nat.eqb_eq in Hcur. intros [= ->]. auto.
Qed.

Lemma current_inv_reachable (w : World) : reachable_current w -> current_inv w.
Proof.
  induction 1 as [pf | e w Hw IH Hen Hcur].
  - unfold current_inv, playing. simpl. repeat split; try constructor; intros src H; inversion H.
  - apply current_inv_step; assumption.
Qed.

(** X1. While every [ended] event that is delivered belongs to the source
    that is current at that moment, at most one source sounds on the device. *)
Theorem one_clip_while_ended_is_current (w : World) :
  reachable_current w -> (length (playing w) <= 1)%nat.
Proof.
  intros Hw. destruct (current_inv_reachable w Hw) as (_ & Hdup & Hcur & _).
  assert (Hnodup : NoDup (playing w)) by (apply NoDup_filter, Hdup).
  destruct (playing w) as [| a [| b l]] eqn:Hplaying; simpl; [lia | lia |].
  exfalso. pose proof (Hcur a ltac:(left)) as Ha.
  pose proof (Hcur b ltac:(right; left)) as Hb.
  rewrite Ha in Hb. injection Hb as <-.
  apply NoDup_cons in Hnodup as [Hnotin _]. apply Hnotin. left.
Qed.

(** C2, where the code departs from it. Line A is started and then stopped
    with [stopPlayback]; line B is started, line C is queued behind it. The
    [ended] event of the stopped source then arrives: its handler clears
    [isPlaying] and calls [drainQueue], which starts line C while line B is
    still sounding. Two sources sound at once. *)
Theorem C2_stale_ended_starts_second_clip :
  run stop_then_speak (init_world browser) = Some before_stale_ended
  /\ reachable before_stale_ended
  /\ playing before_stale_ended = [1%nat]
  /\ currentSource before_stale_ended = Some 1%nat
  /\ playbackQueue before_stale_ended = [clip line_C]
  /\ enabled (ended_event 0) before_stale_ended = true
  /\ reachable (step (ended_event 0) before_stale_ended)
  /\ playing (step (ended_event 0) before_stale_ended) = [1%nat; 2%nat]
  /\ clips_started (step (ended_event 0) before_stale_ended)
     = [clip line_A; clip line_B; clip line_C].
Proof.
  assert (Hrun : run stop_then_speak (init_world browser) = Some before_stale_ended)
    by (vm_compute; reflexivity).
  assert (Hreach : reachable before_stale_ended)
    by (apply (run_reachable _ _ _ (reachable_init browser) Hrun)).
  assert (Hen : enabled (ended_event 0) before_stale_ended = true)
    by (vm_compute; reflexivity).
  split; [exact Hrun |]. split; [exact Hreach |].
  split; [vm_compute; reflexivity |].
  split; [vm_compute; reflexivity |].
  split; [vm_compute; reflexivity |].
  split; [exact Hen |].
  split; [apply reachable_step; assumption |].
  split; vm_compute; reflexivity.
Qed.

(** ** The worker before its model is loaded *)

Lemma worker_unannounced (s : TtsWorker.State) :
  TtsWorker.reachable s -> TtsWorker.announced s = false -> TtsWorker.tts s = None.
Proof.
  unfold TtsWorker.announced.
  induction 1 as [| e s Hs IH Hen]; [reflexivity |].
  destruct s as [model outbox loading synthesizing calls]. simpl in *.
  destruct e as [[| id text voiceId speed] | info | [model' | err] | i [[audio rate] | err]];
    simpl; unfold TtsWorker.generated, TtsWorker.post; simpl;
    try destruct model; try destruct (synthesizing !! i); simpl;
    rewrite ?existsb_app; simpl; rewrite ?orb_false_r, ?orb_true_r;
    try discriminate; auto.
Qed.

(** C5. While the worker has no model (in particular as long as it has not
    posted [init_done]) a [generate] message is answered on the spot with
    [generate_error] for the message's id, with the text
    "TTS not initialized"; [tts.generate] is not called and nothing else
    changes. *)
Theorem C5_generate_before_init_rejected
    (s : TtsWorker.State) (id : Z) (text voiceId : string) (speed : option float) :
  TtsWorker.reachable s ->
  TtsWorker.tts s = None \/ TtsWorker.announced s = false ->
  TtsWorker.onmessage (GenerateMessage id text voiceId speed) s
    = TtsWorker.post (generate_error id "TTS not initialized") s
  /\ TtsWorker.outbox (TtsWorker.onmessage (GenerateMessage id text voiceId speed) s)
     = TtsWorker.outbox s ++ [generate_error id "TTS not initialized"]
  /\ TtsWorker.generate_calls (TtsWorker.onmessage (GenerateMessage id text voiceId speed) s)
     = TtsWorker.generate_calls s
  /\ TtsWorker.synthesizing (TtsWorker.onmessage (GenerateMessage id text voiceId speed) s)
     = TtsWorker.synthesizing s.
Proof.
  intros Hs Hbefore.
  assert (Hnone : TtsWorker.tts s = None).
  { destruct Hbefore as [H | H]; [exact H | apply worker_unannounced; assumption]. }
  unfold TtsWorker.onmessage. rewrite Hnone. repeat split.
Qed.

Lemma C5_generate_before_init_rejected_witness :
  TtsWorker.reachable (TtsWorker.onmessage InitMessage TtsWorker.start)
  /\ TtsWorker.announced (TtsWorker.onmessage InitMessage TtsWorker.start) = false
  /\ TtsWorker.outbox
       (TtsWorker.onmessage (GenerateMessage 7 "Hello" "voiceA" None)
          (TtsWorker.onmessage InitMessage TtsWorker.start))
     = [generate_error 7 "TTS not initialized"].
Proof.
  assert (Hs : TtsWorker.reachable (TtsWorker.onmessage InitMessage TtsWorker.start)).
  { apply (TtsWorker.reachable_step (TtsWorker.receive InitMessage));
      [apply TtsWorker.reachable_start | reflexivity]. }
  split; [exact Hs |]. split; [reflexivity |].
  destruct (C5_generate_before_init_rejected _ 7 "Hello" "voiceA" None Hs
              (or_intror eq_refl)) as (_ & Hout & _).
  exact Hout.
Defined.

Lemma one_clip_while_ended_is_current_witness :
  reachable_current (step (ended_event 0) (play [say "A" "voiceA" [] (reply_done line_A 24000%float)] booted))
  /\ (length (playing (step (ended_event 0)
                         (play [say "A" "voiceA" [] (reply_done line_A 24000%float)] booted)))
      <= 1)%nat.
Proof.
  assert (Hw : reachable_current
                 (step (ended_event 0)
                    (play [say "A" "voiceA" [] (reply_done line_A 24000%float)] booted))).
  { apply reachable_current_step; [| reflexivity | reflexivity].
    apply (reachable_current_step microtask); [| reflexivity | reflexivity].
    apply (reachable_current_step (message (generate_done 0 line_A 24000%float)));
      [| reflexivity | reflexivity].
    apply (reachable_current_step (call_speakSentence "A" "voiceA"));
      [| reflexivity | reflexivity].
    apply (reachable_current_step microtask); [| reflexivity | reflexivity].
    apply (reachable_current_step (message init_done)); [| reflexivity | reflexivity].
    apply (reachable_current_step (call_init false)); [| reflexivity | reflexivity].
    apply reachable_current_init. }
  split; [exact Hw | exact (one_clip_while_ended_is_current _ Hw)].
Defined.

(** * More properties of the voice manager *)

(** ** Life cycle *)

Lemma lifecycle_inv_step (e : Event) (w : World) :
  lifecycle_inv w -> lifecycle_inv (step e w).
Proof.
  unfold lifecycle_inv, init_jobs. intros H.
  by_event e w; simpl in *; split_hyps; rewrite ?omap_app in *; simpl in *;
    intuition (subst; simpl in *; eauto; try congruence);
    rewrite ?app_nil_r; simplify_eq/=; try congruence;
    repeat match goal with H : omap init_job _ = _ |- _ => rewrite H end; done.
Qed.

Lemma lifecycle_inv_reachable (w : World) : reachable w -> lifecycle_inv w.
Proof.
  induction 1 as [pf | e w Hw IH Hen].
  - unfold lifecycle_inv. simpl. intuition discriminate.
  - apply lifecycle_inv_step, IH.
Qed.

(** X2. The promise [_init] returned, which the manager keeps in its field
    [initPromise], is fulfilled exactly when the manager has its audio
    context; and then the manager is ready and the steady-state handler is
    installed, so that [speakSentence] is past its guard. The promise of a
    call of [init] is another matter: [init] looks at [initialized] first,
    so its promise is resolved with [undefined] whenever the manager is
    ready, whatever became of [initPromise], and with [initPromise]
    otherwise. *)
Theorem device_iff_initPromise_fulfilled (w : World) :
  reachable w ->
  (initPromise w = Some Fulfilled <-> is_null (audioCtx w) = false)
  /\ (initPromise w = Some Fulfilled ->
      isReady w = true /\ worker w = Some handleMessage_bound)
  /\ (forall onProgress,
        fst (init onProgress w) = if initialized w then with_undefined else with_initPromise).
Proof.
  intros Hw. destruct (lifecycle_inv_reachable w Hw) as [Hsteady Hlife].
  split; [| split].
  - destruct (initPromise w) as [[| | e] |].
    + destruct Hlife as (-> & _). split; discriminate.
    + destruct Hlife as (-> & _). split; reflexivity.
    + destruct Hlife as (-> & _). split; discriminate.
    + destruct Hlife as (_ & _ & -> & _). split; discriminate.
  - intros Hful. rewrite Hful in Hlife. destruct Hlife as (_ & Hini & _).
    unfold isReady. split; [exact Hini | apply Hsteady, Hini].
  - intros onProgress. unfold init.
    destruct (initialized w); [reflexivity |]. destruct (initPromise w); reflexivity.
Qed.

Lemma device_iff_initPromise_fulfilled_witness :
  reachable booted
  /\ initPromise booted = Some Fulfilled
  /\ is_null (audioCtx booted) = false
  /\ isReady booted = true
  /\ fst (init true booted) = with_undefined.
Proof.
  destruct (device_iff_initPromise_fulfilled booted booted_reachable)
    as (Hiff & Hready & Hcall).
  split; [exact booted_reachable |]. split; [reflexivity |].
  split; [apply Hiff; reflexivity |]. split; [apply Hready; reflexivity |].
  rewrite Hcall. reflexivity.
Defined.

Lemma device_means_ready (w : World) :
  reachable w -> is_null (audioCtx w) = false ->
  initialized w = true /\ worker w = Some handleMessage_bound.
Proof.
  intros Hw Hctx. destruct (lifecycle_inv_reachable w Hw) as [Hsteady Hlife].
  destruct (initPromise w) as [[| | e] |].
  - destruct Hlife as (Hnone & _). rewrite Hnone in Hctx. discriminate.
  - destruct Hlife as (_ & Hini & _). split; [exact Hini | apply Hsteady, Hini].
  - destruct Hlife as (Hnone & _). rewrite Hnone in Hctx. discriminate.
  - destruct Hlife as (_ & _ & Hnone & _). rewrite Hnone in Hctx. discriminate.
Qed.

(** X3. In a reachable world a [speakSentence] call does one of two things:
    it returns 0 and changes nothing, or it files one request under the next
    id and posts it to the worker. The rejection [generateAudio] has for a
    missing worker is never what the call awaits. *)
Theorem speakSentence_declines_or_asks (w : World) (p : nat) (text voiceId : string) :
  reachable w ->
  speakSentence p text voiceId w = (returns (Normal 0%float), w)
  \/ speakSentence p text voiceId w
     = (suspended,
        w |> set_nextId (js_succ (nextId w))
          |> set_pending (<[nextId w := mkPending p]> (pending w))
          |> postMessage (GenerateMessage (nextId w) text voiceId None)).
Proof.
  intros Hw. unfold speakSentence.
  destruct (is_null (audioCtx w)) eqn:Hctx; [left; reflexivity |].
  destruct (device_means_ready w Hw Hctx) as [Hini Hworker]. unfold isReady.
  rewrite Hini. simpl. right. unfold generateAudio. rewrite Hworker. reflexivity.
Qed.

Lemma speakSentence_declines_or_asks_witness :
  reachable booted
  /\ generate_ids (snd (speakSentence 0 "Hello" "voiceA" booted)) = [0]
  /\ fst (speakSentence 0 "Hello" "voiceA" booted) = suspended.
Proof.
  split; [exact booted_reachable |].
  destruct (speakSentence_declines_or_asks booted 0 "Hello" "voiceA" booted_reachable)
    as [Hdeclines | Hasks].
  - discriminate Hdeclines.
  - rewrite Hasks. split; reflexivity.
Defined.

Lemma rejected_step (e : Event) (w : World) (reason : JsError) :
  lifecycle_inv w -> initPromise w = Some (Rejected reason) ->
  initPromise (step e w) = Some (Rejected reason).
Proof.
  unfold lifecycle_inv, init_jobs. intros H Hrej.
  by_event e w; simpl in *; subst; simpl in *; try reflexivity;
    try discriminate; intuition (simplify_eq/=).
Qed.

(** X4. A failed initialization is final. Once the promise [_init]
    returned, the field [initPromise], is rejected, it stays rejected with
    the same reason whatever happens next, the manager never gets an audio
    context, and every [speakSentence] call returns 0 and changes nothing.
    A later call of [init] does not try again: it changes nothing, and its
    promise is resolved with the rejected [initPromise], unless the manager
    is ready by then, in which case it is resolved with [undefined]. *)
Theorem failed_init_is_final (w w' : World) (reason : JsError) (es : list Event) :
  reachable w -> initPromise w = Some (Rejected reason) ->
  run es w = Some w' ->
  initPromise w' = Some (Rejected reason)
  /\ audioCtx w' = None
  /\ (forall p text voiceId,
        speakSentence p text voiceId w' = (returns (Normal 0%float), w'))
  /\ (forall onProgress,
        init onProgress w'
        = (if initialized w' then with_undefined else with_initPromise, w')).
Proof.
  intros Hw Hrej Hrun.
  assert (Hkeep : initPromise w' = Some (Rejected reason)).
  { revert w Hw Hrej Hrun. induction es as [| e es IH]; simpl; intros w Hw Hrej Hrun.
    - injection Hrun as <-. exact Hrej.
    - destruct (enabled e w) eqn:Hen; [| discriminate].
      apply (IH (step e w)); [apply reachable_step; assumption | | exact Hrun].
      apply rejected_step; [apply lifecycle_inv_reachable, Hw | exact Hrej]. }
  pose proof (run_reachable es w w' Hw Hrun) as Hw'.
  destruct (lifecycle_inv_reachable w' Hw') as [_ Hlife].
  rewrite Hkeep in Hlife. destruct Hlife as (Hctx & _).
  split; [exact Hkeep |]. split; [exact Hctx |]. split.
  - intros p text voiceId. apply speakSentence_guard. left. rewrite Hctx. reflexivity.
  - intros onProgress. unfold init. rewrite Hkeep. destruct (initialized w'); reflexivity.
Qed.

Lemma failed_init_is_final_witness :
  reachable failed_init
  /\ initPromise failed_init = Some (Rejected (Error "Error: no model"))
  /\ run [call_init true; hello; message init_done; call_init false] failed_init
     = Some (failed_init |> step (call_init true) |> step hello |> step (message init_done)
                         |> step (call_init false))
  /\ audioCtx (failed_init |> step (call_init true) |> step hello |> step (message init_done)
                           |> step (call_init false)) = None
  /\ fst (init true (failed_init |> step (call_init true) |> step hello
                                 |> step (message init_done) |> step (call_init false)))
     = with_undefined
  /\ fst (init true failed_init) = with_initPromise.
Proof.
  assert (Hw : reachable failed_init).
  { apply (run_reachable
             [call_init false; message (init_error "Error: no model"); microtask]
             (init_world browser)); [apply reachable_init | vm_compute; reflexivity]. }
  assert (Hrej : initPromise failed_init = Some (Rejected (Error "Error: no model")))
    by reflexivity.
  assert (Hrun : run [call_init true; hello; message init_done; call_init false] failed_init
                 = Some (failed_init |> step (call_init true) |> step hello
                                     |> step (message init_done) |> step (call_init false)))
    by (vm_compute; reflexivity).
  split; [exact Hw |]. split; [exact Hrej |]. split; [exact Hrun |].
  destruct (failed_init_is_final _ _ _ _ Hw Hrej Hrun) as (_ & Hctx & _ & Hcall).
  split; [exact Hctx |]. split; [rewrite Hcall; reflexivity |].
  destruct (failed_init_is_final failed_init failed_init _ [] Hw Hrej eq_refl)
    as (_ & _ & _ & Hcall0).
  rewrite Hcall0. reflexivity.
Defined.

Lemma initialized_step (e : Event) (w : World) :
  initialized (step e w) = true -> initialized w = true \/ e = message init_done.
Proof. by_event e w; auto. Qed.

Lemma initialized_kept (e : Event) (w : World) :
  initialized w = true -> initialized (step e w) = true.
Proof. intros H. by_event e w; auto. Qed.

(** X5. The manager becomes ready only by handling [init_done], and never
    stops being ready: a run of events that ends ready contains an
    [init_done] message, and every event leaves a ready manager ready. *)
Theorem ready_only_after_init_done (pf : Platform) (es : list Event) (w : World) :
  run es (init_world pf) = Some w ->
  isReady w = true ->
  message init_done ∈ es /\ (forall e, isReady (step e w) = true).
Proof.
  intros Hrun Hready. split; [| intros e; apply initialized_kept, Hready].
  assert (Hgen : forall w0, run es w0 = Some w -> initialized w0 = false ->
                            message init_done ∈ es).
  { clear Hrun. induction es as [| e es IH]; simpl; intros w0 Hrun Hnot.
    - injection Hrun as ->. unfold isReady in Hready. congruence.
    - destruct (enabled e w0); [| discriminate].
      destruct (initialized (step e w0)) eqn:Hini.
      + destruct (initialized_step e w0 Hini) as [H | ->]; [congruence | left].
      + right. apply (IH (step e w0)); assumption. }
  apply (Hgen (init_world pf)); [exact Hrun | reflexivity].
Qed.

Lemma ready_only_after_init_done_witness :
  run boot (init_world browser) = Some booted
  /\ isReady booted = true
  /\ message init_done ∈ boot.
Proof.
  assert (Hrun : run boot (init_world browser) = Some booted) by (vm_compute; reflexivity).
  split; [exact Hrun |]. split; [reflexivity |].
  exact (proj1 (ready_only_after_init_done browser boot booted Hrun eq_refl)).
Defined.

(** ** The protocol on the audio device *)

Lemma device_inv_same (w w' : World) :
  nodes w' = nodes w -> started w' = started w -> stopped w' = stopped w ->
  currentSource w' = currentSource w -> isPlaying w' = isPlaying w ->
  device_inv w -> device_inv w'.
Proof.
  unfold device_inv. intros -> -> -> -> ->. exact id.
Qed.

Lemma drainQueue_device_inv (w : World) : device_inv w -> device_inv (drainQueue w).
Proof.
  intros (Hstarted & Hdup & Hstop & Hcur & Hflag).
  unfold device_inv. open_world w. unfold drainQueue. simpl.
  destruct isPlaying0; [tauto |].
  destruct playbackQueue0 as [| buffer rest]; [tauto |].
  destruct audioCtx0; [| tauto]. simpl.
  pose proof (seq_S nodes0 0) as Hseq. simpl in Hseq.
  rewrite fmap_app, Hseq, Hstarted. simpl. repeat split; try assumption.
  - intros src Hin. apply Hstop in Hin. lia.
  - injection H as <-. lia.
  - injection H as <-. intros Hin. apply Hstop in Hin. lia.
Qed.

(** Without a current source, whatever was stopped meanwhile. *)
Lemma idle_device_inv (w w' : World) :
  device_inv w ->
  nodes w' = nodes w -> started w' = started w ->
  stopped w' = stopped w ++ (match currentSource w with Some src => [src] | None => [] end)
  \/ stopped w' = stopped w ->
  currentSource w' = None -> isPlaying w' = false ->
  device_inv w'.
Proof.
  intros (Hstarted & Hdup & Hstop & Hcur & Hflag) Hnodes Hsame Hstopped Hnone Hidle.
  unfold device_inv. rewrite Hnodes, Hsame, Hnone, Hidle.
  split; [exact Hstarted |].
  assert (Hboth : NoDup (stopped w') /\ forall src, src ∈ stopped w' -> (src < nodes w)%nat).
  { destruct Hstopped as [-> | ->]; [| split; assumption].
    destruct (currentSource w) as [cur |]; [| rewrite app_nil_r; split; assumption].
    destruct (Hcur cur eq_refl) as [Hlt Hnot]. split.
    - apply NoDup_app. split; [exact Hdup |]. split; [| apply NoDup_singleton].
      intros src Hin Hnew. apply list_elem_of_singleton in Hnew. congruence.
    - intros src [Hin | Hin]%elem_of_app; [auto |].
      apply list_elem_of_singleton in Hin. congruence. }
  destruct Hboth as [Hdup' Hstop'].
  repeat split; try assumption; discriminate.
Qed.

Lemma device_inv_step (e : Event) (w : World) : device_inv w -> device_inv (step e w).
Proof.
  intros Hinv. destruct e as [cb | text voiceId | | msg | | src].
  - apply (device_inv_same w); try exact Hinv; by_fields w; reflexivity.
  - apply (device_inv_same w); try exact Hinv; by_fields w; reflexivity.
  - apply (idle_device_inv w); try exact Hinv;
      open_world w; ops; simpl; split_cases; simpl; rewrite ?app_nil_r; auto.
  - apply (device_inv_same w); try exact Hinv; by_fields w; reflexivity.
  - unfold step. destruct (jobs w) as [| [failure | p r] rest] eqn:Hjobs; [exact Hinv | |].
    + apply (device_inv_same w); try exact Hinv;
        clear; open_world w; ops; simpl; split_cases; reflexivity.
    + unfold run_job.
      destruct (speakSentence_resume r (set_jobs rest w)) as [c w'] eqn:Hresume.
      apply (device_inv_same w'); try (clear; open_world w'; reflexivity).
      assert (Hqueued : forall q,
                 device_inv (set_playbackQueue q (set_jobs rest w))).
      { intros q. apply (device_inv_same w); try exact Hinv; clear; open_world w; reflexivity. }
      revert Hresume. unfold speakSentence_resume, try_catch, bind, await, exec, ret, throw.
      destruct r as [audio sampleRate | reason]; simpl.
      * unfold createBuffer.
        destruct (audioCtx (set_jobs rest w));
          [| intros [= _ <-]; apply (device_inv_same w); try exact Hinv;
             clear; open_world w; reflexivity].
        destruct (createBuffer_throws _ _ _ _);
          [intros [= _ <-]; apply (device_inv_same w); try exact Hinv;
           clear; open_world w; reflexivity |].
        unfold channel_set, ret, throw. simpl.
        destruct (_ <=? _)%nat; intros [= _ <-].
        -- apply drainQueue_device_inv, Hqueued.
        -- apply (device_inv_same w); try exact Hinv; clear; open_world w; reflexivity.
      * intros [= _ <-]. apply (device_inv_same w); try exact Hinv;
          clear; open_world w; reflexivity.
  - unfold step, onended. apply drainQueue_device_inv.
    apply (idle_device_inv w); try exact Hinv; try (open_world w; reflexivity).
    right. open_world w. reflexivity.
Qed.

Lemma device_inv_reachable (w : World) : reachable w -> device_inv w.
Proof.
  induction 1 as [pf | e w Hw IH Hen].
  - unfold device_inv. simpl. repeat split; try constructor;
      try (intros src H; inversion H); discriminate.
  - apply device_inv_step, IH.
Qed.

(** X6. In every reachable world [isPlaying] is true exactly when there is
    a current source, and the current source is one that was started and was
    not stopped. *)
Theorem isPlaying_tracks_currentSource (w : World) :
  reachable w ->
  isPlaying w = negb (is_null (currentSource w))
  /\ (forall src, currentSource w = Some src ->
        src ∈ (started w).*1 /\ src ∉ stopped w).
Proof.
  intros Hw. destruct (device_inv_reachable w Hw) as (Hstarted & _ & _ & Hcur & Hflag).
  split; [exact Hflag |]. intros src Hsrc. destruct (Hcur src Hsrc) as [Hlt Hnot].
  split; [| exact Hnot]. rewrite Hstarted. apply elem_of_seq. lia.
Qed.

(** X7. Every source node the manager creates is started once, at once, so
    the sources started are 0, 1, 2, ... in this order; [stop] is called at
    most once on a source and only on one that was started. *)
Theorem sources_started_once_stopped_once (w : World) :
  reachable w ->
  (started w).*1 = seq 0 (nodes w)
  /\ NoDup (started w).*1
  /\ NoDup (stopped w)
  /\ (forall src, src ∈ stopped w -> src ∈ (started w).*1).
Proof.
  intros Hw. destruct (device_inv_reachable w Hw) as (Hstarted & Hdup & Hstop & _).
  split; [exact Hstarted |]. rewrite Hstarted.
  split; [apply NoDup_seq |]. split; [exact Hdup |].
  intros src Hin. apply elem_of_seq. apply Hstop in Hin. lia.
Qed.

Lemma after_stale_ended_reachable : reachable after_stale_ended.
Proof.
  apply (run_reachable (stop_then_speak ++ [ended_event 0%nat]) (init_world browser));
    [apply reachable_init | vm_compute; reflexivity].
Qed.

Lemma isPlaying_tracks_currentSource_witness :
  reachable after_stale_ended
  /\ isPlaying after_stale_ended = true
  /\ currentSource after_stale_ended = Some 2%nat
  /\ 2%nat ∉ stopped after_stale_ended.
Proof.
  destruct (isPlaying_tracks_currentSource _ after_stale_ended_reachable) as [Hflag Hcur].
  split; [exact after_stale_ended_reachable |].
  split; [rewrite Hflag; reflexivity |]. split; [reflexivity |].
  exact (proj2 (Hcur 2%nat eq_refl)).
Defined.

Lemma sources_started_once_stopped_once_witness :
  reachable after_stale_ended
  /\ (started after_stale_ended).*1 = [0; 1; 2]%nat
  /\ NoDup (stopped after_stale_ended).
Proof.
  destruct (sources_started_once_stopped_once _ after_stale_ended_reachable)
    as (Hstarted & _ & Hdup & _).
  split; [exact after_stale_ended_reachable |].
  split; [rewrite Hstarted; reflexivity | exact Hdup].
Defined.

(** ** Requests answered out of order *)

Lemma answer_waiting (table : gmap Z PendingRequest) (id : Z) (req : PendingRequest)
    (r : Reply) (w : World) :
  waiting_for table w -> table !! id = Some req ->
  waiting_for (delete id table) (arrive w (answer id r))
  /\ platform (arrive w (answer id r)) = platform w
  /\ clips_started (arrive w (answer id r)) ++ playbackQueue (arrive w (answer id r))
     = clips_started w ++ playbackQueue w ++ clip_of_arrival (platform w) (answer id r).
Proof.
  intros (Hini & Hctx & Hworker & Hjobs & Hpending) Hid. unfold arrive.
  open_world w. subst. destruct audioCtx0 as [ctx |]; [| discriminate].
  destruct r as [audio sampleRate | error]; simpl.
  - unfold handleMessage. simpl. rewrite Hid. simpl.
    destruct (createBuffer_throws pf 1 (js_length audio) sampleRate) as [e |] eqn:Hok.
    + rewrite (resume_refused _ _ _ e) by (simpl; auto). simpl.
      rewrite app_nil_r. repeat split.
    + rewrite resume_accepted by (simpl; auto).
      match goal with |- context [drainQueue ?x] => set (queued := x) end.
      assert (Hqueued : waiting_for (delete id table) queued) by repeat split.
      assert (Hdrained : waiting_for (delete id table) (drainQueue queued)
                         /\ platform (drainQueue queued) = pf).
      { clear - Hqueued. subst queued. unfold waiting_for in *. simpl in *.
        unfold drainQueue. simpl. destruct isPlaying0; [tauto |].
        destruct (playbackQueue0 ++ _); tauto. }
      pose proof (drainQueue_lineup queued) as Hline.
      destruct Hdrained as [Hrest Hpf].
      revert Hrest Hpf Hline. generalize (drainQueue queued). intros w' Hrest Hpf Hline.
      open_world w'. unfold waiting_for, clips_started in *. simpl in *.
      split; [exact Hrest |]. split; [exact Hpf |].
      rewrite Hline. reflexivity.
  - unfold handleMessage. simpl. rewrite Hid. simpl.
    rewrite app_nil_r. repeat split.
Qed.

(** X8. With several requests under way, clips are queued in the order in
    which the answers arrive, not in the order of the calls: after any
    sequence of answers to distinct requests of the table and of [ended]
    events, the clips started followed by the clips queued are the former
    ones followed by the clips of the answers in arrival order, and the
    table has lost exactly the ids answered. *)
Theorem clips_queue_in_arrival_order (table : gmap Z PendingRequest) (l : list Arrival)
    (w : World) :
  waiting_for table w ->
  NoDup (omap answered_id l) ->
  (forall id, id ∈ omap answered_id l -> is_Some (table !! id)) ->
  clips_started (arrivals l w) ++ playbackQueue (arrivals l w)
  = clips_started w ++ playbackQueue w ++ flat_map (clip_of_arrival (platform w)) l
  /\ pending (arrivals l w) = remove_ids (omap answered_id l) table
  /\ jobs (arrivals l w) = [].
Proof.
  revert table w. induction l as [| a l IH]; intros table w Hw Hdup Hin.
  - simpl. rewrite app_nil_r. destruct Hw as (_ & _ & _ & Hjobs & Hpending). auto.
  - change (arrivals (a :: l) w) with (arrivals l (arrive w a)).
    destruct a as [id r | src].
    + simpl in Hdup, Hin. apply NoDup_cons in Hdup as [Hnew Hdup].
      destruct (Hin id) as [req Hid]; [left |].
      destruct (answer_waiting table id req r w Hw Hid) as (Hw' & Hpf & Hline).
      destruct (IH (delete id table) _ Hw' Hdup) as (Hline' & Hpending' & Hjobs').
      { intros id' Hin'. rewrite lookup_delete_ne by (intros ->; contradiction).
        apply Hin. right. exact Hin'. }
      split; [| split; assumption].
      rewrite Hline', app_assoc, Hline, Hpf. simpl flat_map. rewrite <- !app_assoc. reflexivity.
    + simpl in Hdup, Hin.
      destruct (ended_waiting table src w Hw) as (Hw' & Hpf & Hline).
      destruct (IH table _ Hw' Hdup Hin) as (Hline' & Hpending' & Hjobs').
      split; [| split; assumption].
      change (arrive w (ends src)) with (step (ended_event src) w) in *.
      rewrite Hline', app_assoc, Hline, Hpf. simpl flat_map. rewrite <- !app_assoc. reflexivity.
Qed.

Lemma clips_queue_in_arrival_order_witness :
  waiting_for (pending two_asked) two_asked
  /\ NoDup (omap answered_id answered_backwards)
  /\ clips_started (arrivals answered_backwards two_asked) = [clip line_B]
  /\ playbackQueue (arrivals answered_backwards two_asked) = [clip line_A].
Proof.
  assert (Hw : waiting_for (pending two_asked) two_asked) by repeat split.
  assert (Hdup : NoDup (omap answered_id answered_backwards)).
  { simpl. repeat constructor; intros H; inversion H; subst;
      try discriminate; match goal with H : _ ∈ [] |- _ => inversion H end. }
  assert (Hin : forall id, id ∈ omap answered_id answered_backwards ->
                           is_Some (pending two_asked !! id)).
  { intros id Hid. simpl in Hid. apply elem_of_cons in Hid as [-> | Hid];
      [eexists; reflexivity |].
    apply list_elem_of_singleton in Hid. subst. eexists. reflexivity. }
  pose proof (clips_queue_in_arrival_order _ _ _ Hw Hdup Hin) as (Hline & _ & _).
  split; [exact Hw |]. split; [exact Hdup |]. split; vm_compute; reflexivity.
Defined.

Lemma stopPlayback_world (w : World) :
  exists sp,
    step call_stopPlayback w
    = mkWorld (platform w)
        (mkManager (worker w) (audioCtx w) [] false None (nextId w) (pending w)
           (initialized w) (initPromise w))
        (mkDevice (nodes w) (started w) sp (ended w)) (host w) (loop w).
Proof.
  open_world w. ops. simpl. destruct currentSource0 as [cur |]; simpl;
    [destruct (stop_throws pf cur) |]; simpl; eexists; reflexivity.
Qed.

(** X9. [stopPlayback] cancels no request: the correlation table and the
    requests posted are as before, and when the answer to a request that was
    under way arrives afterwards, its clip is started at once on a new
    source. *)
Theorem stopPlayback_keeps_requests (table : gmap Z PendingRequest) (w : World)
    (id : Z) (req : PendingRequest) (audio : list float) (sampleRate : float) :
  waiting_for table w ->
  table !! id = Some req ->
  createBuffer_throws (platform w) 1 (js_length audio) sampleRate = None ->
  pending (step call_stopPlayback w) = pending w
  /\ posted (step call_stopPlayback w) = posted w
  /\ started (arrive (step call_stopPlayback w) (answer id (reply_done audio sampleRate)))
     = started w ++ [(nodes w, mkAudioBuffer 1 (js_length audio) sampleRate audio)]
  /\ isPlaying (arrive (step call_stopPlayback w) (answer id (reply_done audio sampleRate)))
     = true
  /\ playbackQueue (arrive (step call_stopPlayback w) (answer id (reply_done audio sampleRate)))
     = [].
Proof.
  intros (Hini & Hctx & Hworker & Hjobs & Hpending) Hid Hok. unfold arrive.
  destruct (stopPlayback_world w) as [sp ->].
  open_world w. subst. destruct audioCtx0 as [ctx |]; [| discriminate].
  split; [reflexivity |]. split; [reflexivity |].
  unfold handleMessage. simpl. rewrite Hid. simpl.
  rewrite resume_accepted by (simpl; auto). simpl. repeat split.
Qed.

Lemma stopPlayback_keeps_requests_witness :
  waiting_for (pending two_asked) two_asked
  /\ pending two_asked !! 1 = Some (mkPending 1)
  /\ started (arrive (step call_stopPlayback two_asked)
                (answer 1 (reply_done line_B 24000%float)))
     = [(0%nat, clip line_B)].
Proof.
  assert (Hw : waiting_for (pending two_asked) two_asked) by repeat split.
  assert (Hid : pending two_asked !! 1 = Some (mkPending 1)) by reflexivity.
  split; [exact Hw |]. split; [exact Hid |].
  exact (proj1 (proj2 (proj2
           (stopPlayback_keeps_requests _ two_asked 1 _ line_B 24000%float Hw Hid eq_refl)))).
Defined.

(** * More properties of the worker *)

Lemma announced_post (m : WorkerReply) (s : TtsWorker.State) :
  TtsWorker.announced (TtsWorker.post m s)
  = TtsWorker.announced s || TtsWorker.is_init_done m.
Proof.
  unfold TtsWorker.announced, TtsWorker.post. simpl.
  rewrite existsb_app. simpl. rewrite orb_false_r. reflexivity.
Qed.

Lemma worker_announced (s : TtsWorker.State) :
  TtsWorker.reachable s -> TtsWorker.tts s = None -> TtsWorker.announced s = false.
Proof.
  induction 1 as [| e s Hs IH Hen]; [reflexivity |].
  destruct s as [model outbox loading synthesizing calls]. simpl in *.
  destruct e as [[| id text voiceId speed] | info | [model' | err] | i [[audio rate] | err]];
    simpl; unfold TtsWorker.generated, TtsWorker.progress_callback; simpl;
    try destruct model; try destruct (synthesizing !! i); simpl;
    rewrite ?announced_post; simpl; rewrite ?orb_false_r; try discriminate; auto.
Qed.

(** X10. The worker has posted [init_done] exactly when it holds a model,
    and once it holds one it keeps it. *)
Theorem worker_announces_iff_loaded (s : TtsWorker.State) :
  TtsWorker.reachable s ->
  (TtsWorker.announced s = true <-> TtsWorker.tts s <> None)
  /\ (forall e, TtsWorker.tts s <> None -> TtsWorker.tts (TtsWorker.step e s) <> None).
Proof.
  intros Hs. split; [split |].
  - intros Hyes Hnone. rewrite (worker_announced s Hs Hnone) in Hyes. discriminate.
  - intros Hsome. destruct (TtsWorker.announced s) eqn:Hno; [reflexivity |].
    exfalso. apply Hsome, worker_unannounced; assumption.
  - intros e Hsome. destruct s as [model outbox loading synthesizing calls]. simpl in *.
    destruct model; [| congruence].
    destruct e as [[| id text voiceId speed] | info | [model' | err] | i [[audio rate] | err]];
      simpl; unfold TtsWorker.generated; simpl;
      try destruct (synthesizing !! i); simpl; discriminate.
Qed.

Lemma worker_announces_iff_loaded_witness :
  TtsWorker.reachable
    (TtsWorker.loaded (inl TtsWorker.kokoro) (TtsWorker.onmessage InitMessage TtsWorker.start))
  /\ TtsWorker.announced
       (TtsWorker.loaded (inl TtsWorker.kokoro)
          (TtsWorker.onmessage InitMessage TtsWorker.start)) = true.
Proof.
  assert (Hs : TtsWorker.reachable
                 (TtsWorker.loaded (inl TtsWorker.kokoro)
                    (TtsWorker.onmessage InitMessage TtsWorker.start))).
  { apply (TtsWorker.reachable_step (TtsWorker.load_settled (inl TtsWorker.kokoro)));
      [| reflexivity].
    apply (TtsWorker.reachable_step (TtsWorker.receive InitMessage));
      [apply TtsWorker.reachable_start | reflexivity]. }
  split; [exact Hs |].
  apply (proj1 (worker_announces_iff_loaded _ Hs)). discriminate.
Defined.

Lemma worker_step_replies (e : TtsWorker.Event) (s : TtsWorker.State) :
  omap reply_id (TtsWorker.outbox (TtsWorker.step e s))
    ++ (TtsWorker.syn_id <$> TtsWorker.synthesizing (TtsWorker.step e s))
  ≡ₚ (omap reply_id (TtsWorker.outbox s) ++ (TtsWorker.syn_id <$> TtsWorker.synthesizing s))
     ++ option_list (asked_id e).
Proof.
  destruct s as [model outbox loading synthesizing calls].
  destruct e as [[| id text voiceId speed] | info | [model' | err] | i r]; simpl;
    rewrite ?omap_app; simpl; rewrite ?app_nil_r; try reflexivity.
  - destruct model; simpl; rewrite ?omap_app, ?fmap_app; simpl.
    + rewrite app_assoc. reflexivity.
    + rewrite <- !app_assoc. apply Permutation_app_head, Permutation_app_comm.
  - unfold TtsWorker.generated. simpl.
    destruct (synthesizing !! i) as [job |] eqn:Hi; simpl; [| rewrite ?app_nil_r; reflexivity].
    assert (Hperm : TtsWorker.syn_id <$> synthesizing
                    ≡ₚ TtsWorker.syn_id job :: (TtsWorker.syn_id <$> delete i synthesizing)).
    { rewrite (delete_Permutation synthesizing i job Hi) at 1. reflexivity. }
    destruct r as [[audio rate] | err]; simpl; rewrite omap_app; simpl;
      rewrite Hperm, <- !app_assoc; simpl;
      apply Permutation_app_head; first [reflexivity | symmetry; apply Permutation_middle].
Qed.

Lemma worker_step_inits (e : TtsWorker.Event) (s : TtsWorker.State) :
  TtsWorker.enabled e s = true ->
  (length (filter (fun m => is_init_outcome m = true) (TtsWorker.outbox (TtsWorker.step e s)))
     + TtsWorker.loading (TtsWorker.step e s)
   = length (filter (fun m => is_init_outcome m = true) (TtsWorker.outbox s))
     + TtsWorker.loading s + (if is_init_receive e then 1 else 0))%nat.
Proof.
  destruct s as [model outbox loading synthesizing calls].
  destruct e as [[| id text voiceId speed] | info | [model' | err] | i r]; simpl;
    intros Hen; try apply bool_decide_eq_true in Hen;
    unfold TtsWorker.generated, TtsWorker.progress_callback, TtsWorker.post; simpl;
    try destruct model; try destruct (synthesizing !! i); try destruct r as [[audio rate] | err];
    simpl; rewrite ?filter_app, ?length_app; simpl; lia.
Qed.

(** X11. Every [generate] message the worker receives is answered once
    with its own id: over any run, the ids of the replies posted together
    with the ids of the syntheses still under way are the ids received, as
    multisets. And the [init_done] and [init_error] messages posted,
    together with the loads still under way, are as many as the [init]
    messages received. *)
Theorem worker_answers_each_request_once (es : list TtsWorker.Event) (s : TtsWorker.State) :
  worker_run es TtsWorker.start = Some s ->
  omap reply_id (TtsWorker.outbox s) ++ (TtsWorker.syn_id <$> TtsWorker.synthesizing s)
  ≡ₚ omap asked_id es
  /\ (length (filter (fun m => is_init_outcome m = true) (TtsWorker.outbox s))
      + TtsWorker.loading s
      = length (filter (fun e => is_init_receive e = true) es))%nat.
Proof.
  assert (Hgen : forall s0,
             worker_run es s0 = Some s ->
             omap reply_id (TtsWorker.outbox s) ++ (TtsWorker.syn_id <$> TtsWorker.synthesizing s)
             ≡ₚ (omap reply_id (TtsWorker.outbox s0)
                 ++ (TtsWorker.syn_id <$> TtsWorker.synthesizing s0)) ++ omap asked_id es
             /\ (length (filter (fun m => is_init_outcome m = true) (TtsWorker.outbox s))
                 + TtsWorker.loading s
                 = length (filter (fun m => is_init_outcome m = true) (TtsWorker.outbox s0))
                   + TtsWorker.loading s0
                   + length (filter (fun e => is_init_receive e = true) es))%nat).
  { induction es as [| e es IH]; simpl; intros s0 Hrun.
    - injection Hrun as <-. rewrite app_nil_r. split; [reflexivity | lia].
    - destruct (TtsWorker.enabled e s0) eqn:Hen; [| discriminate].
      destruct (IH _ Hrun) as [Hperm Hcount]. split.
      + rewrite Hperm, worker_step_replies, <- !app_assoc.
        do 2 apply Permutation_app_head.
        destruct (asked_id e); reflexivity.
      + rewrite Hcount, (worker_step_inits e s0 Hen).
        destruct (is_init_receive e) eqn:Hr.
        * rewrite filter_cons_True by exact Hr. simpl. lia.
        * rewrite filter_cons_False by (rewrite Hr; discriminate). lia. }
  intros Hrun. destruct (Hgen _ Hrun) as [Hperm Hcount]. split; [exact Hperm | exact Hcount].
Qed.

Lemma worker_answers_each_request_once_witness :
  worker_run eager_requests TtsWorker.start
  = Some (foldl (fun s e => TtsWorker.step e s) TtsWorker.start eager_requests)
  /\ omap reply_id
       (TtsWorker.outbox (foldl (fun s e => TtsWorker.step e s) TtsWorker.start eager_requests))
     ++ (TtsWorker.syn_id
           <$> TtsWorker.synthesizing
                 (foldl (fun s e => TtsWorker.step e s) TtsWorker.start eager_requests))
     ≡ₚ [0; 1; 2].
Proof.
  assert (Hrun : worker_run eager_requests TtsWorker.start
                 = Some (foldl (fun s e => TtsWorker.step e s) TtsWorker.start eager_requests))
    by reflexivity.
  split; [exact Hrun |].
  exact (proj1 (worker_answers_each_request_once _ _ Hrun)).
Defined.

(** * The page and its worker together *)

Lemma asked_step (e : Event) (w : World) :
  generate_ids w = [] \/ initialized w = true ->
  generate_ids (step e w) = [] \/ initialized (step e w) = true.
Proof.
  unfold generate_ids. intros H.
  by_event e w; rewrite ?omap_app in *; simpl in *; rewrite ?app_nil_r; auto;
    destruct initialized0; simpl in *; rewrite ?orb_true_r in *; auto; discriminate.
Qed.

Lemma asked_when_ready (w : World) :
  reachable w -> generate_ids w = [] \/ initialized w = true.
Proof.
  induction 1 as [pf | e w Hw IH Hen]; [left; reflexivity | apply asked_step, IH].
Qed.

Lemma posted_step (e : Event) (w : World) :
  exists l, posted (step e w) = posted w ++ l
            /\ (length (filter (fun m => is_init_message m = true) l)
                + spawned w = spawned (step e w))%nat.
Proof.
  by_event e w;
    first [ exists []; rewrite app_nil_r; split; reflexivity
          | eexists; split; [reflexivity |]; reflexivity ].
Qed.

Lemma init_posted (w : World) :
  reachable w ->
  length (filter (fun m => is_init_message m = true) (posted w)) = spawned w.
Proof.
  induction 1 as [pf | e w Hw IH Hen]; [reflexivity |].
  destruct (posted_step e w) as (l & -> & <-).
  rewrite filter_app, length_app, IH. lia.
Qed.

Lemma announced_kept (e : TtsWorker.Event) (s : TtsWorker.State) :
  TtsWorker.announced s = true -> TtsWorker.announced (TtsWorker.step e s) = true.
Proof.
  destruct s as [model outbox loading synthesizing calls].
  unfold TtsWorker.announced. simpl. intros H.
  destruct e as [[| id text voiceId speed] | info | [model' | err] | i r]; simpl;
    unfold TtsWorker.generated, TtsWorker.progress_callback, TtsWorker.post; simpl;
    try destruct model; try destruct (synthesizing !! i);
    try destruct r as [[audio rate] | err]; simpl;
    rewrite ?existsb_app, ?H; reflexivity.
Qed.

Lemma sys_inv_step (e : SysEvent) (s : System) :
  sys_inv s -> sys_enabled e s = true -> sys_inv (sys_step e s).
Proof.
  intros (Hpage & Hscript & Hle & Hready & Hinits) Hen.
  destruct s as [w k nw np].
  cbn [page script taken_by_worker taken_by_page] in *.
  destruct e as [e' | | e' |];
    cbn [sys_step sys_enabled page script taken_by_worker taken_by_page] in *.
  - assert (Hen' : enabled e' w = true /\ forall m, e' <> message m).
    { destruct e'; try discriminate; split; try assumption; discriminate. }
    destruct Hen' as [Hen' Hnot].
    destruct (posted_step e' w) as (l & Hposted & _).
    unfold sys_inv. cbn [page script taken_by_worker taken_by_page]. rewrite Hposted.
    split; [apply reachable_step; assumption |]. split; [exact Hscript |].
    split; [rewrite length_app; lia |]. split.
    + intros Hini. destruct (initialized_step e' w Hini) as [H | ->]; [auto |].
      exfalso. apply (Hnot init_done). reflexivity.
    + rewrite take_app_le by exact Hle. exact Hinits.
  - apply bool_decide_eq_true in Hen.
    destruct (lookup_lt_is_Some_2 (posted w) nw Hen) as [m Hm]. rewrite Hm.
    unfold sys_inv. cbn [page script taken_by_worker taken_by_page].
    assert (Hstep : TtsWorker.onmessage m k = TtsWorker.step (TtsWorker.receive m) k)
      by reflexivity.
    split; [exact Hpage |].
    split; [rewrite Hstep; apply TtsWorker.reachable_step; [exact Hscript | reflexivity] |].
    split; [lia |]. split.
    + intros Hini. rewrite Hstep. apply announced_kept, Hready, Hini.
    + rewrite (take_S_r _ _ _ Hm), filter_app, length_app, <- Hinits.
      rewrite Hstep, (worker_step_inits (TtsWorker.receive m) k eq_refl). simpl.
      destruct m; simpl; lia.
  - assert (Hen' : TtsWorker.enabled e' k = true).
    { destruct e'; try discriminate; assumption. }
    unfold sys_inv. cbn [page script taken_by_worker taken_by_page].
    split; [exact Hpage |].
    split; [apply TtsWorker.reachable_step; assumption |].
    split; [exact Hle |]. split.
    + intros Hini. apply announced_kept, Hready, Hini.
    + rewrite (worker_step_inits e' k Hen'), <- Hinits.
      destruct e'; try discriminate; simpl; lia.
  - destruct (TtsWorker.outbox k !! np) as [m |] eqn:Hm; [| discriminate].
    destruct (posted_step (message m) w) as (l & Hposted & _).
    unfold sys_inv. cbn [page script taken_by_worker taken_by_page]. rewrite Hposted.
    split; [apply reachable_step; assumption |]. split; [exact Hscript |].
    split; [rewrite length_app; lia |]. split.
    + intros Hini. destruct (initialized_step (message m) w Hini) as [H | [= ->]]; [auto |].
      unfold TtsWorker.announced. apply existsb_exists. exists init_done.
      split; [| reflexivity]. apply list_elem_of_In. eapply list_elem_of_lookup_2, Hm.
    + rewrite take_app_le by exact Hle. exact Hinits.
Qed.

Lemma sys_inv_reachable (s : System) : sys_reachable s -> sys_inv s.
Proof.
  induction 1 as [pf | e s Hs IH Hen].
  - unfold sys_inv. simpl. split; [apply reachable_init |].
    split; [apply TtsWorker.reachable_start |]. split; [lia |].
    split; [discriminate | reflexivity].
  - apply sys_inv_step; assumption.
Qed.

Lemma sys_run_reachable (es : list SysEvent) (s s' : System) :
  sys_reachable s -> sys_run es s = Some s' -> sys_reachable s'.
Proof.
  revert s. induction es as [| e es IH]; simpl; intros s Hs Hrun.
  - injection Hrun as <-. exact Hs.
  - destruct (sys_enabled e s) eqn:He; [| discriminate].
    apply (IH (sys_step e s)); [apply sys_reachable_step; assumption | exact Hrun].
Qed.

Lemma after_one_line_reachable : sys_reachable after_one_line.
Proof.
  apply (sys_run_reachable one_line_session (sys_start browser));
    [apply sys_reachable_start | vm_compute; reflexivity].
Qed.

(** X12. The manager never asks too early. Whenever the next message for
    the worker is a [generate] request, the worker holds its model: it
    starts a synthesis for the request and posts nothing yet. The worker's
    own "TTS not initialized" answer is never produced for this manager. *)
Theorem generate_reaches_loaded_worker (s : System) (id : Z) (text voiceId : string)
    (speed : option float) :
  sys_reachable s ->
  posted (page s) !! taken_by_worker s = Some (GenerateMessage id text voiceId speed) ->
  TtsWorker.tts (script s) <> None
  /\ TtsWorker.outbox (script (sys_step worker_takes s)) = TtsWorker.outbox (script s)
  /\ TtsWorker.generate_calls (script (sys_step worker_takes s))
     = S (TtsWorker.generate_calls (script s))
  /\ TtsWorker.synthesizing (script (sys_step worker_takes s))
     = TtsWorker.synthesizing (script s)
       ++ [TtsWorker.mkSynthesis id text voiceId (default 1%float speed)].
Proof.
  intros Hs Hnext. destruct (sys_inv_reachable s Hs) as (Hpage & Hscript & _ & Hready & _).
  assert (Hloaded : TtsWorker.tts (script s) <> None).
  { assert (Hini : initialized (page s) = true).
    { destruct (asked_when_ready _ Hpage) as [Hnone | Hini]; [| exact Hini].
      exfalso. unfold generate_ids in Hnone.
      assert (Hin : id ∈ omap generate_id (posted (page s))).
      { apply list_elem_of_omap. eexists. split; [eapply list_elem_of_lookup_2, Hnext |].
        reflexivity. }
      rewrite Hnone in Hin. inversion Hin. }
    intros Hnone. specialize (Hready Hini).
    rewrite (worker_announced _ Hscript Hnone) in Hready. discriminate. }
  split; [exact Hloaded |].
  unfold sys_step. rewrite Hnext. simpl.
  destruct (TtsWorker.tts (script s)); [| congruence]. repeat split.
Qed.

Lemma line_asked_reachable : sys_reachable line_asked.
Proof.
  apply (sys_run_reachable (take 8 one_line_session) (sys_start browser));
    [apply sys_reachable_start | vm_compute; reflexivity].
Qed.

Lemma generate_reaches_loaded_worker_witness :
  sys_reachable line_asked
  /\ posted (page line_asked) !! taken_by_worker line_asked
     = Some (GenerateMessage 0 "Hello" "voiceA" None)
  /\ TtsWorker.tts (script line_asked) <> None.
Proof.
  assert (Hnext : posted (page line_asked) !! taken_by_worker line_asked
                  = Some (GenerateMessage 0 "Hello" "voiceA" None)) by reflexivity.
  split; [exact line_asked_reachable |]. split; [exact Hnext |].
  exact (proj1 (generate_reaches_loaded_worker _ _ _ _ _ line_asked_reachable Hnext)).
Defined.

(** X13. An initialization ends once. The worker of a manager is sent one
    [init] message at most, so between them [init_done] and [init_error] are
    posted at most once: never both, never twice; and at most one load of
    the model is under way. *)
Theorem init_ends_once (s : System) :
  sys_reachable s ->
  (length (filter (fun m => is_init_message m = true) (posted (page s))) <= 1)%nat
  /\ (length (filter (fun m => is_init_outcome m = true) (TtsWorker.outbox (script s)))
      + TtsWorker.loading (script s) <= 1)%nat.
Proof.
  intros Hs. destruct (sys_inv_reachable s Hs) as (Hpage & _ & _ & _ & Hinits).
  assert (Hone : (length (filter (fun m => is_init_message m = true) (posted (page s))) <= 1)%nat).
  { rewrite (init_posted _ Hpage). pose proof (init_inv_reachable _ Hpage) as Hinit.
    unfold init_inv in Hinit. destruct (initPromise (page s)); [lia |].
    destruct Hinit as [-> _]. lia. }
  split; [exact Hone |]. rewrite Hinits.
  rewrite <- (take_drop (taken_by_worker s) (posted (page s))) in Hone.
  rewrite filter_app, length_app in Hone. lia.
Qed.

Lemma init_ends_once_witness :
  sys_reachable after_one_line
  /\ filter (fun m => is_init_outcome m = true) (TtsWorker.outbox (script after_one_line))
     = [init_done]
  /\ (length
        (filter (fun m => is_init_outcome m = true) (TtsWorker.outbox (script after_one_line)))
      + TtsWorker.loading (script after_one_line) <= 1)%nat.
Proof.
  split; [exact after_one_line_reachable |]. split; [vm_compute; reflexivity |].
  exact (proj2 (init_ends_once _ after_one_line_reachable)).
Defined.

(** ** Requests and answers across the two sides *)

Lemma pending_step (e : Event) (w : World) :
  (forall m, e <> message m) ->
  (pending (step e w) = pending w /\ generate_ids (step e w) = generate_ids w)
  \/ (exists req, pending (step e w) = <[nextId w := req]> (pending w)
                  /\ generate_ids (step e w) = generate_ids w ++ [nextId w]).
Proof.
  intros Hnot. unfold generate_ids.
  by_event e w; rewrite ?omap_app; simpl; rewrite ?app_nil_r; eauto;
    exfalso; eapply Hnot; reflexivity.
Qed.

Lemma message_pending (m : WorkerReply) (w : World) :
  generate_ids (step (message m) w) = generate_ids w
  /\ pending (step (message m) w)
     = match worker w, reply_id m with
       | Some handleMessage_bound, Some id => delete id (pending w)
       | _, _ => pending w
       end.
Proof.
  unfold generate_ids.
  destruct m; by_fields w; simpl; rewrite ?omap_app, ?app_nil_r; split; try reflexivity;
    symmetry; apply delete_id; assumption.
Qed.

Lemma ids_exact_step (e : Event) (w : World) : ids_exact (step e w) -> ids_exact w.
Proof.
  unfold ids_exact. destruct (ids_step e w) as [[-> _] | [-> _]]; [auto |].
  rewrite length_app. simpl. lia.
Qed.

Lemma nextId_fresh (w : World) :
  reachable w -> Z.of_nat (length (generate_ids w)) <= MAX_EXACT ->
  nextId w ∉ generate_ids w.
Proof.
  intros Hw Hfew. destruct (ids_inv_reachable w Hw) as [Hids ->].
  rewrite Hids at 2. intros Hin.
  apply list_elem_of_fmap in Hin as (k & Heq & Hk).
  apply elem_of_seq in Hk. unfold id_of_request in Heq. lia.
Qed.

Lemma taken_replies_asked (s : System) (id : Z) :
  reachable (page s) -> answers_inv s ->
  id ∈ omap reply_id (TtsWorker.outbox (script s)) ->
  id ∈ generate_ids (page s) /\ worker (page s) = Some handleMessage_bound.
Proof.
  intros Hpage (_ & Hperm & _) Hin.
  assert (Hasked : id ∈ generate_ids (page s)).
  { assert (H : id ∈ omap generate_id (take (taken_by_worker s) (posted (page s)))).
    { rewrite <- Hperm. apply elem_of_app. left. exact Hin. }
    unfold generate_ids.
    rewrite <- (take_drop (taken_by_worker s) (posted (page s))), omap_app.
    apply elem_of_app. left. exact H. }
  split; [exact Hasked |].
  apply (proj1 (lifecycle_inv_reachable _ Hpage)).
  destruct (asked_when_ready _ Hpage) as [Hnone | Hini]; [| exact Hini].
  rewrite Hnone in Hasked. inversion Hasked.
Qed.

Lemma answers_inv_step (e : SysEvent) (s : System) :
  sys_inv s -> answers_inv s -> sys_enabled e s = true ->
  ids_exact (page (sys_step e s)) -> answers_inv (sys_step e s).
Proof.
  intros (Hpage & Hscript & Hle & _) Hinv Hen Hfew.
  pose proof (taken_replies_asked s) as Hasked. specialize (fun id => Hasked id Hpage Hinv).
  destruct Hinv as (Hnp & Hperm & Htable).
  destruct s as [w k nw np].
  cbn [page script taken_by_worker taken_by_page] in *.
  destruct e as [e' | | e' |];
    cbn [sys_step sys_enabled page script taken_by_worker taken_by_page] in *.
  - assert (Hnot : forall m, e' <> message m) by (destruct e'; discriminate).
    destruct (posted_step e' w) as (l & Hposted & _).
    unfold answers_inv. cbn [page script taken_by_worker taken_by_page].
    split; [exact Hnp |]. split.
    { rewrite Hposted, take_app_le by exact Hle. exact Hperm. }
    destruct (pending_step e' w Hnot) as [[-> ->] | (req & -> & Hids)]; [exact Htable |].
    unfold ids_exact in Hfew. rewrite Hids, length_app in Hfew. simpl in Hfew. rewrite Hids.
    assert (Hfresh : nextId w ∉ generate_ids w) by (apply nextId_fresh; [assumption | lia]).
    intros id. rewrite elem_of_app, list_elem_of_singleton.
    destruct (decide (id = nextId w)) as [-> | Hne].
    + rewrite lookup_insert_eq. split; [| eauto].
      intros _. split; [right; reflexivity |].
      intros Hin. apply Hfresh, Hasked.
      rewrite <- (take_drop np (TtsWorker.outbox k)), omap_app.
      apply elem_of_app. left. exact Hin.
    + rewrite lookup_insert_ne by congruence. rewrite Htable. tauto.
  - apply bool_decide_eq_true in Hen.
    destruct (lookup_lt_is_Some_2 (posted w) nw Hen) as [m Hm]. rewrite Hm.
    unfold answers_inv. cbn [page script taken_by_worker taken_by_page].
    assert (Hstep : TtsWorker.onmessage m k = TtsWorker.step (TtsWorker.receive m) k)
      by reflexivity.
    assert (Hgrow : exists l, TtsWorker.outbox (TtsWorker.onmessage m k)
                              = TtsWorker.outbox k ++ l).
    { destruct k as [model outbox loading synthesizing calls].
      destruct m; simpl; try destruct model; simpl; eauto using app_nil_r.
      all: exists []; rewrite app_nil_r; reflexivity. }
    destruct Hgrow as (l & Hgrow). split; [rewrite Hgrow, length_app; lia |]. split.
    + rewrite Hstep, worker_step_replies, Hperm, (take_S_r _ _ _ Hm), omap_app. simpl.
      destruct m; simpl; reflexivity.
    + rewrite Hgrow, take_app_le by exact Hnp. exact Htable.
  - assert (Hgrow : exists l, TtsWorker.outbox (TtsWorker.step e' k) = TtsWorker.outbox k ++ l).
    { destruct k as [model outbox loading synthesizing calls].
      destruct e' as [m | info | [model' | err] | i r]; simpl;
        unfold TtsWorker.generated, TtsWorker.progress_callback, TtsWorker.post; simpl;
        try destruct m; try destruct model; try destruct (synthesizing !! i);
        try destruct r as [[audio rate] | err]; simpl; eauto;
        exists []; rewrite app_nil_r; reflexivity. }
    destruct Hgrow as (l & Hgrow).
    unfold answers_inv. cbn [page script taken_by_worker taken_by_page].
    split; [rewrite Hgrow, length_app; lia |]. split.
    + rewrite worker_step_replies, Hperm.
      destruct e' as [m | | |]; [discriminate | | |]; simpl; rewrite app_nil_r; reflexivity.
    + rewrite Hgrow, take_app_le by exact Hnp. exact Htable.
  - destruct (TtsWorker.outbox k !! np) as [m |] eqn:Hm; [| discriminate].
    unfold answers_inv. cbn [page script taken_by_worker taken_by_page].
    destruct (posted_step (message m) w) as (l & Hposted & _).
    destruct (message_pending m w) as [Hids Hpending].
    split; [apply lookup_lt_Some in Hm; lia |]. split.
    { rewrite Hposted, take_app_le by exact Hle. exact Hperm. }
    rewrite Hids, Hpending, (take_S_r _ _ _ Hm), omap_app.
    intros id. rewrite elem_of_app.
    change (omap reply_id [m]) with (option_list (reply_id m)).
    destruct (reply_id m) as [id' |] eqn:Hreply; simpl.
    + destruct (Hasked id') as [_ ->].
      { apply list_elem_of_omap. exists m. split; [| exact Hreply].
        eapply list_elem_of_lookup_2. exact Hm. }
      rewrite list_elem_of_singleton.
      destruct (decide (id = id')) as [-> | Hne].
      * rewrite lookup_delete_eq. split; [intros [? H]; discriminate | tauto].
      * rewrite lookup_delete_ne by congruence. rewrite Htable. tauto.
    + assert (Hsame : match worker w with
                      | Some handleMessage_bound => pending w
                      | _ => pending w
                      end = pending w) by (destruct (worker w) as [[] |]; reflexivity).
      rewrite Hsame, Htable. rewrite elem_of_nil. tauto.
Qed.

Lemma sys_ids_exact_step (e : SysEvent) (s : System) :
  ids_exact (page (sys_step e s)) -> ids_exact (page s).
Proof.
  destruct e as [e' | | e' |]; cbn [sys_step page]; [apply ids_exact_step | | auto |].
  - destruct (posted (page s) !! taken_by_worker s); auto.
  - destruct (TtsWorker.outbox (script s) !! taken_by_page s);
      cbn [page]; [apply ids_exact_step | auto].
Qed.

Lemma answers_inv_reachable (s : System) :
  sys_reachable s -> ids_exact (page s) -> answers_inv s.
Proof.
  induction 1 as [pf | e s Hs IH Hen]; intros Hfew.
  - unfold answers_inv. simpl. split; [lia |]. split; [reflexivity |].
    intros id. rewrite lookup_empty. split; [intros [? H]; discriminate |].
    intros [H _]. inversion H.
  - apply answers_inv_step; [apply sys_inv_reachable, Hs | | exact Hen | exact Hfew].
    apply IH, (sys_ids_exact_step e), Hfew.
Qed.

Lemma line_answered_reachable : sys_reachable line_answered.
Proof.
  apply (sys_run_reachable (take 10 one_line_session) (sys_start browser));
    [apply sys_reachable_start | vm_compute; reflexivity].
Qed.

(** X14. No answer is stale and none comes twice. While the request ids
    are exact (at most 2^53 + 1 requests so far), the answer the page takes
    next from its worker finds its request in the table, and no answer
    taken before carried its id: taking it removes the request and resumes
    the [speakSentence] call that awaits it. *)
Theorem every_answer_finds_its_request (s : System) (m : WorkerReply) (id : Z) :
  sys_reachable s -> ids_exact (page s) ->
  TtsWorker.outbox (script s) !! taken_by_page s = Some m ->
  reply_id m = Some id ->
  (id ∉ omap reply_id (take (taken_by_page s) (TtsWorker.outbox (script s))))
  /\ exists req,
       pending (page s) !! id = Some req
       /\ pending (page (sys_step page_takes s)) = delete id (pending (page s))
       /\ exists r, jobs (page (sys_step page_takes s))
                    = jobs (page s) ++ [resume_speak (awaiter req) r].
Proof.
  intros Hs Hfew Hm Hreply.
  pose proof (sys_inv_reachable s Hs) as Hsys.
  pose proof (answers_inv_reachable s Hs Hfew) as Hinv.
  assert (Hpage : reachable (page s)) by apply Hsys.
  assert (Hin : id ∈ omap reply_id (TtsWorker.outbox (script s))).
  { apply list_elem_of_omap. exists m. split; [| exact Hreply].
    eapply list_elem_of_lookup_2. exact Hm. }
  destruct (taken_replies_asked s id Hpage Hinv Hin) as [Hasked Hsteady].
  destruct Hinv as (Hnp & Hperm & Htable).
  assert (Hnodup : NoDup (omap reply_id (TtsWorker.outbox (script s)))).
  { assert (Hall : NoDup (generate_ids (page s))).
    { destruct (ids_inv_reachable _ Hpage) as [Hids _]. rewrite Hids.
      apply NoDup_fmap_2_strong; [| apply NoDup_seq].
      intros k1 k2 Hk1 Hk2 Heq. apply elem_of_seq in Hk1, Hk2.
      unfold ids_exact in Hfew. unfold id_of_request in Heq. lia. }
    unfold generate_ids in Hall.
    rewrite <- (take_drop (taken_by_worker s) (posted (page s))), omap_app in Hall.
    apply NoDup_app in Hall as [Hall _]. rewrite <- Hperm in Hall.
    apply NoDup_app in Hall as [Hall _]. exact Hall. }
  assert (Hnew : id ∉ omap reply_id (take (taken_by_page s) (TtsWorker.outbox (script s)))).
  { rewrite <- (take_drop (S (taken_by_page s)) (TtsWorker.outbox (script s))) in Hnodup.
    rewrite (take_S_r _ _ _ Hm), !omap_app in Hnodup. simpl in Hnodup.
    rewrite Hreply in Hnodup. simpl in Hnodup.
    apply NoDup_app in Hnodup as [Hnodup _].
    apply NoDup_app in Hnodup as (_ & Hdis & _).
    intros H. apply (Hdis id H). apply list_elem_of_singleton. reflexivity. }
  split; [exact Hnew |].
  destruct (proj2 (Htable id) (conj Hasked Hnew)) as [req Hreq].
  exists req. split; [exact Hreq |].
  destruct s as [w k nw np]. cbn [page script taken_by_worker taken_by_page] in *.
  cbn [sys_step page script taken_by_worker taken_by_page]. rewrite Hm.
  cbn [page]. unfold step. rewrite Hsteady.
  destruct m; try discriminate; injection Hreply as ->; unfold handleMessage; rewrite Hreq;
    open_world w; (split; [reflexivity | eexists; reflexivity]).
Qed.

Lemma every_answer_finds_its_request_witness :
  (sys_reachable line_answered /\ ids_exact (page line_answered)
   /\ TtsWorker.outbox (script line_answered) !! taken_by_page line_answered
      = Some (generate_done 0 line_A 24000%float)
   /\ reply_id (generate_done 0 line_A 24000%float) = Some 0)
  /\ is_Some (pending (page line_answered) !! 0).
Proof.
  assert (Hfew : ids_exact (page line_answered)).
  { unfold ids_exact.
    replace (generate_ids (page line_answered)) with [0] by (vm_compute; reflexivity).
    unfold MAX_EXACT. simpl. lia. }
  assert (Hm : TtsWorker.outbox (script line_answered) !! taken_by_page line_answered
               = Some (generate_done 0 line_A 24000%float)) by (vm_compute; reflexivity).
  split; [split; [exact line_answered_reachable | split; [exact Hfew | split; [exact Hm |]]] |].
  - reflexivity.
  - destruct (every_answer_finds_its_request _ _ 0 line_answered_reachable Hfew Hm eq_refl)
      as (_ & req & Hreq & _).
    exists req. exact Hreq.
Defined.

(** ** Progress reports *)

Lemma worker_outbox_step (e : TtsWorker.Event) (k : TtsWorker.State) :
  TtsWorker.enabled e k = true ->
  exists l, TtsWorker.outbox (TtsWorker.step e k) = TtsWorker.outbox k ++ l
            /\ (length l <= 1)%nat
            /\ (forall m, m ∈ l -> is_init_progress m = true -> (0 < TtsWorker.loading k)%nat).
Proof.
  destruct k as [model outbox loading synthesizing calls].
  destruct e as [[| id text voiceId speed] | info | [model' | err] | i r]; simpl; intros Hen;
    try apply bool_decide_eq_true in Hen;
    unfold TtsWorker.generated, TtsWorker.progress_callback, TtsWorker.post; simpl;
    try destruct model; try destruct (synthesizing !! i); try destruct r as [[audio rate] | err];
    simpl;
    first [ exists []; rewrite app_nil_r; split; [reflexivity |];
            split; [simpl; lia | intros m H; inversion H]
          | eexists; split; [reflexivity |]; split; [simpl; lia |];
            intros m H; apply list_elem_of_singleton in H as ->; simpl; intros;
            first [lia | discriminate] ].
Qed.

Lemma init_posted_once (w : World) :
  reachable w ->
  (length (filter (fun m => is_init_message m = true) (posted w)) <= 1)%nat.
Proof.
  intros Hw. rewrite (init_posted _ Hw). pose proof (init_inv_reachable _ Hw) as Hinit.
  unfold init_inv in Hinit. destruct (initPromise w); [lia |].
  destruct Hinit as [-> _]. lia.
Qed.

Lemma posted_worker (w : World) : reachable w -> posted w <> [] -> worker w <> None.
Proof.
  intros Hw Hposted.
  destruct (lifecycle_inv_reachable w Hw) as [Hsteady Hlife].
  assert (Hready : initialized w = true -> worker w <> None).
  { intros Hini. rewrite (proj1 Hsteady Hini). discriminate. }
  destruct (initPromise w) as [[| | e] |] eqn:Hpromise.
  - destruct Hlife as (_ & Hhand). destruct (handshake w).
    + destruct Hhand as (_ & cb & ->). discriminate.
    + apply Hready, Hhand.
    + apply Hhand.
  - apply Hready, Hlife.
  - apply Hlife.
  - exfalso. pose proof (init_inv_reachable w Hw) as Hinit. unfold init_inv in Hinit.
    rewrite Hpromise in Hinit. destruct Hinit as (Hspawned & _).
    pose proof (init_posted w Hw) as Hcount. rewrite Hspawned in Hcount.
    destruct (asked_when_ready w Hw) as [Hnone | Hini].
    + unfold generate_ids in Hnone.
      destruct (posted w) as [| [| id text voiceId speed] l]; [congruence | |].
      * rewrite filter_cons_True in Hcount by reflexivity. discriminate.
      * discriminate.
    + destruct Hlife as (_ & _ & _ & Hnull). rewrite (proj1 Hsteady Hini) in Hnull. discriminate.
Qed.

Lemma handler_step (e : Event) (w : World) :
  reachable w -> enabled e w = true ->
  worker (step e w) = Some handleMessage_bound ->
  worker w = Some handleMessage_bound \/ e = message init_done.
Proof.
  intros Hw Hen Hbound.
  assert (Hw' : reachable (step e w)) by (apply reachable_step; assumption).
  apply (proj1 (lifecycle_inv_reachable _ Hw')) in Hbound.
  destruct (initialized_step e w Hbound) as [Hini | ->]; [| auto].
  left. apply (proj1 (lifecycle_inv_reachable _ Hw)), Hini.
Qed.

Lemma progress_inv_step (e : SysEvent) (s : System) :
  sys_reachable s -> progress_inv s -> sys_enabled e s = true -> progress_inv (sys_step e s).
Proof.
  intros Hs (Hnp & Hidle & Hearly & Htaken) Hen.
  destruct (sys_inv_reachable s Hs) as (Hpage & Hscript & Hle & _ & Hinits).
  assert (Honce : (length (filter (fun m => is_init_outcome m = true)
                             (TtsWorker.outbox (script s)))
                   + TtsWorker.loading (script s) <= 1)%nat).
  { rewrite Hinits. pose proof (init_posted_once _ Hpage) as Hone.
    rewrite <- (take_drop (taken_by_worker s) (posted (page s))) in Hone.
    rewrite filter_app, length_app in Hone. lia. }
  clear Hinits.
  destruct s as [w k nw np].
  cbn [page script taken_by_worker taken_by_page] in *.
  assert (Hworker : forall e', TtsWorker.enabled e' k = true ->
            (np <= length (TtsWorker.outbox (TtsWorker.step e' k)))%nat
            /\ (forall i m, TtsWorker.outbox (TtsWorker.step e' k) !! i = Some m ->
                  is_init_progress m = true ->
                  filter (fun m => is_init_outcome m = true)
                    (take i (TtsWorker.outbox (TtsWorker.step e' k))) = [])
            /\ take np (TtsWorker.outbox (TtsWorker.step e' k)) = take np (TtsWorker.outbox k)).
  { intros e' Hen'. destruct (worker_outbox_step e' k Hen') as (l & -> & Hlen & Hl).
    split; [rewrite length_app; lia |]. split; [| apply take_app_le, Hnp].
    intros i m Hi Hm. apply lookup_app_Some in Hi as [Hi | [Hge Hi]].
    - rewrite take_app_le by (apply lookup_lt_Some in Hi; lia). apply (Hearly i m Hi Hm).
    - assert (Hloading : (0 < TtsWorker.loading k)%nat).
      { apply (Hl m); [eapply list_elem_of_lookup_2, Hi | exact Hm]. }
      assert (Hnone : filter (fun m => is_init_outcome m = true) (TtsWorker.outbox k) = []).
      { destruct (filter _ (TtsWorker.outbox k)); [reflexivity | simpl in Honce; lia]. }
      apply lookup_lt_Some in Hi as Hlt.
      replace i with (length (TtsWorker.outbox k)) by lia.
      rewrite take_app_length. exact Hnone. }
  destruct e as [e' | | e' |];
    cbn [sys_step sys_enabled page script taken_by_worker taken_by_page] in *.
  - assert (Hen' : enabled e' w = true /\ forall m, e' <> message m).
    { destruct e'; try discriminate; split; try assumption; discriminate. }
    destruct Hen' as [Hen' Hnot].
    destruct (posted_step e' w) as (l & Hposted & _).
    unfold progress_inv. cbn [page script taken_by_worker taken_by_page].
    split; [exact Hnp |]. split; [| split; [exact Hearly |]].
    + rewrite Hposted. intros Hnil. apply app_eq_nil in Hnil as [Hnil _]. auto.
    + intros Hbound. apply Htaken.
      destruct (handler_step e' w Hpage Hen' Hbound) as [H | H]; [exact H |].
      exfalso. apply (Hnot _ H).
  - apply bool_decide_eq_true in Hen.
    destruct (lookup_lt_is_Some_2 (posted w) nw Hen) as [m Hm]. rewrite Hm.
    unfold progress_inv. cbn [page script taken_by_worker taken_by_page].
    assert (Hposted : posted w <> []).
    { intros Hnil. rewrite Hnil in Hm. rewrite lookup_nil in Hm. discriminate. }
    destruct (Hworker (TtsWorker.receive m) eq_refl) as (Hnp' & Hearly' & Htake).
    split; [exact Hnp' |]. split; [intros Hnil; contradiction |].
    split; [exact Hearly' |]. intros Hbound. change (TtsWorker.onmessage m k)
      with (TtsWorker.step (TtsWorker.receive m) k). rewrite Htake. auto.
  - assert (Hen' : TtsWorker.enabled e' k = true) by (destruct e'; [discriminate | | |]; exact Hen).
    assert (Hposted : posted w <> []).
    { intros Hnil. rewrite (Hidle Hnil) in Hen'.
      destruct e'; simpl in Hen'; try apply bool_decide_eq_true in Hen'; simpl in Hen';
        first [lia | discriminate]. }
    destruct (Hworker e' Hen') as (Hnp' & Hearly' & Htake).
    unfold progress_inv. cbn [page script taken_by_worker taken_by_page].
    split; [exact Hnp' |]. split; [intros Hnil; contradiction |].
    split; [exact Hearly' |]. intros Hbound. rewrite Htake. auto.
  - destruct (TtsWorker.outbox k !! np) as [m |] eqn:Hm; [| discriminate].
    unfold progress_inv. cbn [page script taken_by_worker taken_by_page].
    destruct (posted_step (message m) w) as (l & Hposted & _).
    split; [apply lookup_lt_Some in Hm; lia |]. split; [| split; [exact Hearly |]].
    + rewrite Hposted. intros Hnil. apply app_eq_nil in Hnil as [Hnil _]. auto.
    + intros Hbound. rewrite (take_S_r _ _ _ Hm), filter_app.
      destruct (handler_step (message m) w Hpage Hen Hbound) as [H | [= ->]].
      * intros Hnil. apply app_eq_nil in Hnil as [Hnil _]. exact (Htaken H Hnil).
      * rewrite filter_cons_True by reflexivity.
        intros Hnil. apply app_eq_nil in Hnil as [_ Hnil]. discriminate.
Qed.

Lemma progress_inv_reachable (s : System) : sys_reachable s -> progress_inv s.
Proof.
  induction 1 as [pf | e s Hs IH Hen].
  - unfold progress_inv. simpl. split; [lia |]. split; [reflexivity |].
    split; [intros i m H; rewrite lookup_nil in H; discriminate | discriminate].
  - apply progress_inv_step; assumption.
Qed.

Lemma progress_reported_reachable : sys_reachable progress_reported.
Proof.
  apply (sys_run_reachable (take 3 one_line_session) (sys_start browser));
    [apply sys_reachable_start | vm_compute; reflexivity].
Qed.

(** X25. Progress reaches the callback. Whenever the message the page
    takes next from its worker is a progress report, the handler installed
    is still the closure of [_init], never the steady-state handler, which
    would drop it: the page calls the [onProgress] given to the first
    [init], if one was given, with the progress and the status of the
    report, and does nothing else. *)
Theorem progress_reaches_the_callback (s : System) (p : float) (status : string) :
  sys_reachable s ->
  TtsWorker.outbox (script s) !! taken_by_page s = Some (init_progress p status) ->
  exists onProgress,
    worker (page s) = Some (init_closure onProgress)
    /\ page (sys_step page_takes s)
       = (if onProgress then call_onProgress p status (page s) else page s).
Proof.
  intros Hs Hm.
  destruct (progress_inv_reachable s Hs) as (_ & Hidle & Hearly & Htaken).
  destruct (sys_inv_reachable s Hs) as (Hpage & _).
  assert (Hposted : posted (page s) <> []).
  { intros Hnil. rewrite (Hidle Hnil) in Hm. simpl in Hm. rewrite lookup_nil in Hm.
    discriminate. }
  pose proof (posted_worker _ Hpage Hposted) as Hsome.
  destruct (worker (page s)) as [[cb |] |] eqn:Hworker; [| | congruence].
  - exists cb. split; [reflexivity |].
    unfold sys_step. rewrite Hm. cbn [page]. unfold step. rewrite Hworker. reflexivity.
  - exfalso. apply (Htaken eq_refl). apply (Hearly _ _ Hm). reflexivity.
Qed.

Lemma progress_reaches_the_callback_witness :
  (sys_reachable progress_reported
   /\ TtsWorker.outbox (script progress_reported) !! taken_by_page progress_reported
      = Some (init_progress 0.5%float "loading"))
  /\ progressed (page (sys_step page_takes progress_reported)) = [(0.5%float, "loading"%string)].
Proof.
  assert (Hm : TtsWorker.outbox (script progress_reported) !! taken_by_page progress_reported
               = Some (init_progress 0.5%float "loading")) by (vm_compute; reflexivity).
  split; [split; [exact progress_reported_reachable | exact Hm] |].
  destruct (progress_reaches_the_callback _ _ _ progress_reported_reachable Hm)
    as (cb & Hcb & ->).
  assert (Htrue : cb = true) by (vm_compute in Hcb; congruence).
  rewrite Htrue. vm_compute. reflexivity.
Defined.

(** * Conversation memory *)

Lemma in_time_order_nil : NPCMemory.in_time_order [].
Proof. intros i j x y _ H. rewrite lookup_nil in H. discriminate. Qed.

Lemma in_time_order_cons (x : NPCMemory.ConversationEntry)
    (l : list NPCMemory.ConversationEntry) :
  NPCMemory.in_time_order (x :: l)
  <-> Forall (fun y => NPCMemory.timestamp x <= NPCMemory.timestamp y) l
      /\ NPCMemory.in_time_order l.
Proof.
  split.
  - intros H. split.
    + apply Forall_lookup. intros j y Hy. apply (H 0%nat (S j) x y); [lia | reflexivity | exact Hy].
    + intros i j a b Hij Ha Hb. apply (H (S i) (S j) a b); [lia | exact Ha | exact Hb].
  - intros [Hall Hl] i j a b Hij Ha Hb.
    destruct j as [| j]; [lia |]. simpl in Hb.
    destruct i as [| i]; simpl in Ha.
    + injection Ha as <-. rewrite Forall_lookup in Hall. exact (Hall j b Hb).
    + apply (Hl i j a b); [lia | exact Ha | exact Hb].
Qed.

Lemma in_time_order_app (l1 l2 : list NPCMemory.ConversationEntry) :
  NPCMemory.in_time_order (l1 ++ l2)
  <-> NPCMemory.in_time_order l1 /\ NPCMemory.in_time_order l2
      /\ Forall (fun x => Forall (fun y => NPCMemory.timestamp x <= NPCMemory.timestamp y) l2) l1.
Proof.
  induction l1 as [| x l1 IH]; simpl.
  - split; [intros H; split; [apply in_time_order_nil | split; [exact H | constructor]] | tauto].
  - rewrite !in_time_order_cons, IH, Forall_app, Forall_cons. tauto.
Qed.

Lemma insert_by_timestamp_perm (x : NPCMemory.ConversationEntry)
    (l : list NPCMemory.ConversationEntry) :
  NPCMemory.insert_by_timestamp x l ≡ₚ x :: l.
Proof.
  induction l as [| y l IH]; simpl; [reflexivity |].
  destruct (NPCMemory.timestamp x <=? NPCMemory.timestamp y); [reflexivity |].
  rewrite IH. apply Permutation_swap.
Qed.

Lemma sort_by_timestamp_perm (l : list NPCMemory.ConversationEntry) :
  NPCMemory.sort_by_timestamp l ≡ₚ l.
Proof.
  induction l as [| x l IH]; simpl; [reflexivity |].
  rewrite insert_by_timestamp_perm, IH. reflexivity.
Qed.

Lemma insert_by_timestamp_order (x : NPCMemory.ConversationEntry)
    (l : list NPCMemory.ConversationEntry) :
  NPCMemory.in_time_order l -> NPCMemory.in_time_order (NPCMemory.insert_by_timestamp x l).
Proof.
  induction l as [| y l IH]; simpl; intros Hl.
  - apply in_time_order_cons. split; [constructor | apply in_time_order_nil].
  - destruct (Z.leb_spec (NPCMemory.timestamp x) (NPCMemory.timestamp y)) as [Hle | Hgt].
    + apply in_time_order_cons. split; [| exact Hl].
      apply in_time_order_cons in Hl as [Hall _]. constructor; [exact Hle |].
      eapply Forall_impl; [exact Hall | simpl; intros; lia].
    + apply in_time_order_cons in Hl as [Hall Hl]. apply in_time_order_cons.
      split; [| apply IH, Hl].
      rewrite insert_by_timestamp_perm. constructor; [lia | exact Hall].
Qed.

Lemma sort_by_timestamp_order (l : list NPCMemory.ConversationEntry) :
  NPCMemory.in_time_order (NPCMemory.sort_by_timestamp l).
Proof.
  induction l as [| x l IH]; simpl;
    [apply in_time_order_nil | apply insert_by_timestamp_order, IH].
Qed.

Lemma insert_by_timestamp_stamped (t : Z) (x : NPCMemory.ConversationEntry)
    (l : list NPCMemory.ConversationEntry) :
  NPCMemory.in_time_order l ->
  NPCMemory.stamped t (NPCMemory.insert_by_timestamp x l) = NPCMemory.stamped t (x :: l).
Proof.
  unfold NPCMemory.stamped.
  induction l as [| y l IH]; simpl; intros Hl; [reflexivity |].
  destruct (Z.leb_spec (NPCMemory.timestamp x) (NPCMemory.timestamp y)) as [Hle | Hgt];
    [reflexivity |].
  apply in_time_order_cons in Hl as [_ Hl]. specialize (IH Hl).
  destruct (decide (NPCMemory.timestamp y = t)) as [Hy | Hy].
  - rewrite (filter_cons_True _ y) by exact Hy. rewrite IH.
    rewrite (filter_cons_False _ x) by lia.
    rewrite (filter_cons_False _ x) by lia.
    rewrite (filter_cons_True _ y) by exact Hy. reflexivity.
  - rewrite (filter_cons_False _ y) by exact Hy. rewrite IH.
    destruct (decide (NPCMemory.timestamp x = t)) as [Hx | Hx].
    + rewrite !(filter_cons_True _ x) by exact Hx.
      rewrite (filter_cons_False _ y) by exact Hy. reflexivity.
    + rewrite !(filter_cons_False _ x) by exact Hx.
      rewrite (filter_cons_False _ y) by exact Hy. reflexivity.
Qed.

Lemma sort_by_timestamp_stamped (t : Z) (l : list NPCMemory.ConversationEntry) :
  NPCMemory.stamped t (NPCMemory.sort_by_timestamp l) = NPCMemory.stamped t l.
Proof.
  induction l as [| x l IH]; simpl; [reflexivity |].
  rewrite insert_by_timestamp_stamped by apply sort_by_timestamp_order.
  unfold NPCMemory.stamped in *.
  destruct (decide (NPCMemory.timestamp x = t)) as [Hx | Hx].
  - rewrite !(filter_cons_True _ x) by exact Hx. rewrite IH. reflexivity.
  - rewrite !(filter_cons_False _ x) by exact Hx. exact IH.
Qed.

(** A stable sort has one result: two arrays in time order in which the
    entries of every timestamp come in the same order are the same array. *)
Lemma sort_is_unique (l1 l2 : list NPCMemory.ConversationEntry) :
  NPCMemory.in_time_order l1 -> NPCMemory.in_time_order l2 ->
  (forall t, NPCMemory.stamped t l1 = NPCMemory.stamped t l2) ->
  l1 = l2.
Proof.
  unfold NPCMemory.stamped.
  revert l2. induction l1 as [| x l1 IH]; intros l2 H1 H2 Hst.
  - destruct l2 as [| y l2]; [reflexivity |].
    specialize (Hst (NPCMemory.timestamp y)).
    rewrite filter_nil, filter_cons_True in Hst by reflexivity. discriminate.
  - destruct l2 as [| y l2].
    { specialize (Hst (NPCMemory.timestamp x)).
      rewrite filter_nil, filter_cons_True in Hst by reflexivity. discriminate. }
    apply in_time_order_cons in H1 as [Hx H1]. apply in_time_order_cons in H2 as [Hy H2].
    assert (Hxy : NPCMemory.timestamp x = NPCMemory.timestamp y).
    { assert (Hle1 : NPCMemory.timestamp x <= NPCMemory.timestamp y).
      { pose proof (Hst (NPCMemory.timestamp y)) as Ht.
        rewrite (filter_cons_True _ y) in Ht by reflexivity.
        assert (Hin : y ∈ filter (fun e => NPCMemory.timestamp e = NPCMemory.timestamp y)
                          (x :: l1)) by (rewrite Ht; left).
        apply list_elem_of_filter in Hin as [_ Hin].
        apply elem_of_cons in Hin as [-> | Hin]; [lia |].
        rewrite Forall_forall in Hx. apply Hx, Hin. }
      assert (Hle2 : NPCMemory.timestamp y <= NPCMemory.timestamp x).
      { pose proof (Hst (NPCMemory.timestamp x)) as Ht.
        rewrite (filter_cons_True _ x) in Ht by reflexivity.
        assert (Hin : x ∈ filter (fun e => NPCMemory.timestamp e = NPCMemory.timestamp x)
                          (y :: l2)) by (rewrite <- Ht; left).
        apply list_elem_of_filter in Hin as [_ Hin].
        apply elem_of_cons in Hin as [-> | Hin]; [lia |].
        rewrite Forall_forall in Hy. apply Hy, Hin. }
      lia. }
    assert (Heq : x = y).
    { specialize (Hst (NPCMemory.timestamp x)).
      rewrite (filter_cons_True _ x), (filter_cons_True _ y) in Hst by (symmetry; auto).
      congruence. }
    subst y. f_equal. apply IH; [exact H1 | exact H2 |].
    intros t. specialize (Hst t).
    destruct (decide (NPCMemory.timestamp x = t)) as [Ht | Ht].
    + rewrite !(filter_cons_True _ x) in Hst by exact Ht. congruence.
    + rewrite !(filter_cons_False _ x) in Hst by exact Ht. exact Hst.
Qed.

Lemma open_connects (opened : NPCMemory.Answer) (s s' : NPCMemory.State) (u : unit) :
  NPCMemory.open opened s = (Normal u, s') ->
  NPCMemory.db s' = true /\ NPCMemory.store s' = NPCMemory.store s.
Proof.
  unfold NPCMemory.open. destruct (NPCMemory.db s) eqn:Hdb.
  - intros [= _ <-]. auto.
  - destruct opened; intros [= _ <-]; auto.
Qed.

Lemma getHistory_read (npc : string) (opened read : NPCMemory.Answer)
    (s s' : NPCMemory.State) (h : list NPCMemory.ConversationEntry) :
  NPCMemory.getHistory npc opened read s = (Normal h, s') ->
  NPCMemory.db s' = true /\ NPCMemory.store s' = NPCMemory.store s
  /\ h = NPCMemory.slice_last NPCMemory.MAX_HISTORY
           (NPCMemory.sort_by_timestamp (NPCMemory.getAll npc (NPCMemory.store s))).
Proof.
  unfold NPCMemory.getHistory.
  destruct (NPCMemory.open opened s) as [[[] | error] s1] eqn:Hopen; [| discriminate].
  apply open_connects in Hopen as [Hdb Hstore]. rewrite Hdb. simpl.
  destruct read; [| discriminate]. intros [= <- <-]. rewrite Hstore. auto.
Qed.

Lemma addEntry_stored (npc player response : string) (now : Z)
    (opened added : NPCMemory.Answer) (s s' : NPCMemory.State) (u : unit) :
  NPCMemory.addEntry npc player response now opened added s = (Normal u, s') ->
  NPCMemory.db s' = true
  /\ NPCMemory.store s' = NPCMemory.store s ++ [NPCMemory.mkEntry npc now player response].
Proof.
  unfold NPCMemory.addEntry.
  destruct (NPCMemory.open opened s) as [[[] | error] s1] eqn:Hopen; [| discriminate].
  apply open_connects in Hopen as [Hdb Hstore]. rewrite Hdb. simpl.
  destruct added; [| discriminate]. intros [= _ <-]. simpl. rewrite Hstore. auto.
Qed.

(** X15. The history is the latest exchanges. When [getHistory] resolves,
    the manager is connected (the [return []] for a missing connection is
    never taken), the store is as it was, and the array is the last
    [MAX_HISTORY] = 8 of the character's stored exchanges in time order, or
    all of them when there are fewer: it is in time order, and with the
    exchanges left out before it, it is the character's exchanges in time
    order, so none left out is later than one returned. *)
Theorem history_is_latest_exchanges (npc : string) (opened read : NPCMemory.Answer)
    (s s' : NPCMemory.State) (h : list NPCMemory.ConversationEntry) :
  NPCMemory.getHistory npc opened read s = (Normal h, s') ->
  NPCMemory.db s' = true /\ NPCMemory.store s' = NPCMemory.store s
  /\ length h = Nat.min 8 (length (NPCMemory.getAll npc (NPCMemory.store s)))
  /\ exists older,
       older ++ h ≡ₚ NPCMemory.getAll npc (NPCMemory.store s)
       /\ NPCMemory.in_time_order (older ++ h).
Proof.
  intros Hget. apply getHistory_read in Hget as (Hdb & Hstore & ->).
  split; [exact Hdb |]. split; [exact Hstore |].
  set (l := NPCMemory.sort_by_timestamp (NPCMemory.getAll npc (NPCMemory.store s))).
  assert (Hperm : l ≡ₚ NPCMemory.getAll npc (NPCMemory.store s))
    by apply sort_by_timestamp_perm.
  unfold NPCMemory.slice_last, NPCMemory.MAX_HISTORY. split.
  - rewrite length_drop, <- (Permutation_length Hperm). lia.
  - exists (take (length l - 8) l). rewrite take_drop. split; [exact Hperm |].
    apply sort_by_timestamp_order.
Qed.

Lemma history_is_latest_exchanges_witness :
  NPCMemory.getHistory "bober" NPCMemory.onsuccess NPCMemory.onsuccess
    (NPCMemory.mkState false NPCMemory.exchanges)
  = (Normal ((fun k => NPCMemory.mkEntry "bober" (1000 + k) "question" "answer")
               <$> [2; 3; 4; 6; 7; 8; 9; 10]),
     NPCMemory.connected NPCMemory.exchanges)
  /\ NPCMemory.db (NPCMemory.connected NPCMemory.exchanges) = true.
Proof.
  assert (Hget : NPCMemory.getHistory "bober" NPCMemory.onsuccess NPCMemory.onsuccess
                   (NPCMemory.mkState false NPCMemory.exchanges)
                 = (Normal ((fun k => NPCMemory.mkEntry "bober" (1000 + k) "question" "answer")
                              <$> [2; 3; 4; 6; 7; 8; 9; 10]),
                    NPCMemory.connected NPCMemory.exchanges)) by (vm_compute; reflexivity).
  split; [exact Hget |].
  exact (proj1 (history_is_latest_exchanges _ _ _ _ _ _ Hget)).
Defined.

Lemma insert_by_timestamp_last (x e : NPCMemory.ConversationEntry)
    (l : list NPCMemory.ConversationEntry) :
  NPCMemory.insert_by_timestamp x (NPCMemory.insert_last_by_timestamp e l)
  = NPCMemory.insert_last_by_timestamp e (NPCMemory.insert_by_timestamp x l).
Proof.
  induction l as [| y l IH]; simpl.
  - destruct (Z.leb_spec (NPCMemory.timestamp x) (NPCMemory.timestamp e)); reflexivity.
  - destruct (Z.leb_spec (NPCMemory.timestamp y) (NPCMemory.timestamp e));
      destruct (Z.leb_spec (NPCMemory.timestamp x) (NPCMemory.timestamp y)); simpl;
      repeat match goal with
             | |- context [(?a <=? ?b)] => destruct (Z.leb_spec a b); try lia
             end; simpl; rewrite ?IH; reflexivity.
Qed.

Lemma sort_by_timestamp_snoc (e : NPCMemory.ConversationEntry)
    (l : list NPCMemory.ConversationEntry) :
  NPCMemory.sort_by_timestamp (l ++ [e])
  = NPCMemory.insert_last_by_timestamp e (NPCMemory.sort_by_timestamp l).
Proof.
  unfold NPCMemory.sort_by_timestamp.
  induction l as [| x l IH]; simpl; [reflexivity |].
  rewrite IH. apply insert_by_timestamp_last.
Qed.

Lemma insert_last_split (e : NPCMemory.ConversationEntry)
    (l : list NPCMemory.ConversationEntry) :
  NPCMemory.in_time_order l ->
  exists before after,
    l = before ++ after
    /\ NPCMemory.insert_last_by_timestamp e l = before ++ e :: after
    /\ Forall (fun x => NPCMemory.timestamp x <= NPCMemory.timestamp e) before
    /\ Forall (fun x => NPCMemory.timestamp e < NPCMemory.timestamp x) after.
Proof.
  induction l as [| y l IH]; simpl; intros Hl.
  - exists [], []. repeat split; constructor.
  - apply in_time_order_cons in Hl as [Hy Hl].
    destruct (Z.leb_spec (NPCMemory.timestamp y) (NPCMemory.timestamp e)) as [Hle | Hgt].
    + destruct (IH Hl) as (before & after & -> & -> & Hb & Ha).
      exists (y :: before), after. repeat split; [constructor; assumption | exact Ha].
    + exists [], (y :: l). repeat split; [constructor |].
      constructor; [exact Hgt |]. eapply Forall_impl; [exact Hy | simpl; intros; lia].
Qed.

Lemma getAll_snoc (npc : string) (l : list NPCMemory.ConversationEntry) (e : NPCMemory.ConversationEntry) :
  NPCMemory.getAll npc (l ++ [e])
  = NPCMemory.getAll npc l ++ (if decide (NPCMemory.npcId e = npc) then [e] else []).
Proof.
  unfold NPCMemory.getAll. rewrite filter_app. reflexivity.
Qed.

(** X16. The exchange just added closes the history. When no stored
    exchange with the character is stamped later than [Date.now()] returns
    in [addEntry], the history read after it ends with the new exchange. *)
Theorem added_exchange_closes_history (npc player response : string) (now : Z)
    (opened added opened' read : NPCMemory.Answer) (s s1 s2 : NPCMemory.State) (u : unit)
    (h : list NPCMemory.ConversationEntry) :
  NPCMemory.addEntry npc player response now opened added s = (Normal u, s1) ->
  NPCMemory.getHistory npc opened' read s1 = (Normal h, s2) ->
  (forall x, x ∈ NPCMemory.getAll npc (NPCMemory.store s) -> NPCMemory.timestamp x <= now) ->
  last h = Some (NPCMemory.mkEntry npc now player response).
Proof.
  intros Hadd Hget Hclock.
  apply addEntry_stored in Hadd as [_ Hstore].
  apply getHistory_read in Hget as (_ & _ & ->).
  rewrite Hstore, getAll_snoc. simpl. rewrite decide_True by reflexivity.
  rewrite sort_by_timestamp_snoc.
  set (e := NPCMemory.mkEntry npc now player response).
  set (l := NPCMemory.sort_by_timestamp (NPCMemory.getAll npc (NPCMemory.store s))).
  destruct (insert_last_split e l) as (before & after & Hl & -> & _ & Hafter);
    [apply sort_by_timestamp_order |].
  destruct after as [| y after].
  - unfold NPCMemory.slice_last, NPCMemory.MAX_HISTORY.
    rewrite drop_app_le by (rewrite length_app; simpl; lia).
    apply last_snoc.
  - exfalso. apply Forall_cons in Hafter as [Hy _].
    assert (Hin : y ∈ NPCMemory.getAll npc (NPCMemory.store s)).
    { rewrite <- (sort_by_timestamp_perm (NPCMemory.getAll npc (NPCMemory.store s))).
      fold l. rewrite Hl. apply elem_of_app. right. left. }
    specialize (Hclock y Hin). simpl in Hy. lia.
Qed.

Lemma added_exchange_closes_history_witness :
  (NPCMemory.addEntry "bober" "one more" "fine" 1011 NPCMemory.onsuccess NPCMemory.onsuccess
     (NPCMemory.mkState false NPCMemory.exchanges)
   = (Normal (),
      NPCMemory.connected
        (NPCMemory.exchanges ++ [NPCMemory.mkEntry "bober" 1011 "one more" "fine"]))
   /\ forall x, x ∈ NPCMemory.getAll "bober" NPCMemory.exchanges ->
                NPCMemory.timestamp x <= 1011)
  /\ last (NPCMemory.slice_last NPCMemory.MAX_HISTORY
             (NPCMemory.sort_by_timestamp
                (NPCMemory.getAll "bober"
                   (NPCMemory.exchanges ++ [NPCMemory.mkEntry "bober" 1011 "one more" "fine"]))))
     = Some (NPCMemory.mkEntry "bober" 1011 "one more" "fine").
Proof.
  assert (Hclock : forall x, x ∈ NPCMemory.getAll "bober" NPCMemory.exchanges ->
                             NPCMemory.timestamp x <= 1011).
  { apply Forall_forall. vm_compute. repeat constructor; discriminate. }
  split; [split; [reflexivity | exact Hclock] |].
  exact (added_exchange_closes_history "bober" "one more" "fine" 1011
           NPCMemory.onsuccess NPCMemory.onsuccess NPCMemory.onsuccess NPCMemory.onsuccess
           (NPCMemory.mkState false NPCMemory.exchanges) _ _ () _ eq_refl eq_refl Hclock).
Defined.

(** X17. A backdated exchange is left out. When the clock has gone back,
    so that eight stored exchanges with the character are stamped later than
    the one [addEntry] adds, the history read after it is the history as it
    was before: the new exchange is not in it. *)
Theorem backdated_exchange_is_left_out (npc player response : string) (now : Z)
    (opened added opened' read : NPCMemory.Answer) (s s1 s2 : NPCMemory.State) (u : unit)
    (h : list NPCMemory.ConversationEntry) :
  NPCMemory.addEntry npc player response now opened added s = (Normal u, s1) ->
  NPCMemory.getHistory npc opened' read s1 = (Normal h, s2) ->
  (8 <= length (filter (fun x => (now < NPCMemory.timestamp x)%Z)
                  (NPCMemory.getAll npc (NPCMemory.store s))))%nat ->
  h = NPCMemory.slice_last NPCMemory.MAX_HISTORY
        (NPCMemory.sort_by_timestamp (NPCMemory.getAll npc (NPCMemory.store s)))
  /\ Forall (fun x => now < NPCMemory.timestamp x) h.
Proof.
  intros Hadd Hget Hlater.
  apply addEntry_stored in Hadd as [_ Hstore].
  apply getHistory_read in Hget as (_ & _ & ->).
  rewrite Hstore, getAll_snoc. simpl. rewrite decide_True by reflexivity.
  rewrite sort_by_timestamp_snoc.
  rewrite <- (sort_by_timestamp_perm (NPCMemory.getAll npc (NPCMemory.store s))) in Hlater.
  set (e := NPCMemory.mkEntry npc now player response).
  set (l := NPCMemory.sort_by_timestamp (NPCMemory.getAll npc (NPCMemory.store s))) in *.
  destruct (insert_last_split e l) as (before & after & Hl & -> & Hbefore & Hafter);
    [apply sort_by_timestamp_order |].
  rewrite Hl in *. clear Hl l.
  assert (Hlen : (8 <= length after)%nat).
  { rewrite filter_app, length_app in Hlater.
    assert (Hnone : filter (fun x => now < NPCMemory.timestamp x) before = []).
    { clear -Hbefore. induction Hbefore as [| x before Hx _ IH]; [reflexivity |].
      rewrite filter_cons_False by (simpl in Hx; lia). exact IH. }
    rewrite Hnone in Hlater. pose proof (length_filter (fun x => now < NPCMemory.timestamp x) after).
    simpl in Hlater. lia. }
  unfold NPCMemory.slice_last, NPCMemory.MAX_HISTORY.
  rewrite !length_app. simpl.
  replace (length before + S (length after) - 8)%nat
    with (length before + (S (length after) - 8))%nat by lia.
  replace (length before + length after - 8)%nat
    with (length before + (length after - 8))%nat by lia.
  rewrite !drop_app_add.
  replace (S (length after) - 8)%nat with (S (length after - 8)) by lia. simpl.
  split; [reflexivity |]. apply Forall_drop. exact Hafter.
Qed.

Lemma backdated_exchange_is_left_out_witness :
  (NPCMemory.addEntry "bober" "late" "lost" 1001 NPCMemory.onsuccess NPCMemory.onsuccess
     (NPCMemory.connected NPCMemory.exchanges)
   = (Normal (),
      NPCMemory.connected (NPCMemory.exchanges ++ [NPCMemory.mkEntry "bober" 1001 "late" "lost"]))
   /\ (8 <= length (filter (fun x => (1001 < NPCMemory.timestamp x)%Z)
                      (NPCMemory.getAll "bober" NPCMemory.exchanges)))%nat)
  /\ NPCMemory.slice_last NPCMemory.MAX_HISTORY
       (NPCMemory.sort_by_timestamp
          (NPCMemory.getAll "bober"
             (NPCMemory.exchanges ++ [NPCMemory.mkEntry "bober" 1001 "late" "lost"])))
     = NPCMemory.slice_last NPCMemory.MAX_HISTORY
         (NPCMemory.sort_by_timestamp (NPCMemory.getAll "bober" NPCMemory.exchanges)).
Proof.
  assert (Hlater : (8 <= length (filter (fun x => (1001 < NPCMemory.timestamp x)%Z)
                                   (NPCMemory.getAll "bober" NPCMemory.exchanges)))%nat)
    by (vm_compute; lia).
  split; [split; [reflexivity | exact Hlater] |].
  exact (proj1 (backdated_exchange_is_left_out "bober" "late" "lost" 1001
                  NPCMemory.onsuccess NPCMemory.onsuccess NPCMemory.onsuccess
                  NPCMemory.onsuccess (NPCMemory.connected NPCMemory.exchanges) _ _ () _
                  eq_refl eq_refl Hlater)).
Defined.

(** X18. Histories are kept apart. Whatever [addEntry] does for one
    character, and however it ends, the exchanges stored for any other
    character are the same after it, and so is the history read for them. *)
Theorem other_histories_unchanged (npc other player response : string) (now : Z)
    (opened added read : NPCMemory.Answer) (s : NPCMemory.State) :
  other <> npc ->
  NPCMemory.getAll other
    (NPCMemory.store (snd (NPCMemory.addEntry npc player response now opened added s)))
  = NPCMemory.getAll other (NPCMemory.store s)
  /\ fst (NPCMemory.getHistory other NPCMemory.onsuccess read
            (snd (NPCMemory.addEntry npc player response now opened added s)))
     = fst (NPCMemory.getHistory other NPCMemory.onsuccess read s).
Proof.
  intros Hne.
  assert (Hsnoc : NPCMemory.getAll other
                    (NPCMemory.store s ++ [NPCMemory.mkEntry npc now player response])
                  = NPCMemory.getAll other (NPCMemory.store s)).
  { rewrite getAll_snoc. simpl. rewrite decide_False by congruence. apply app_nil_r. }
  destruct s as [[] records]; unfold NPCMemory.addEntry, NPCMemory.getHistory, NPCMemory.open;
    simpl in *; destruct opened, added, read; simpl; rewrite ?Hsnoc; auto.
Qed.

Lemma other_histories_unchanged_witness :
  "smith"%string <> "bober"%string
  /\ NPCMemory.getAll "smith"
       (NPCMemory.store
          (snd (NPCMemory.addEntry "bober" "one more" "fine" 1011 NPCMemory.onsuccess
                  NPCMemory.onsuccess (NPCMemory.connected NPCMemory.exchanges))))
     = [NPCMemory.mkEntry "smith" 1005 "how much" "ten gold"].
Proof.
  assert (Hne : "smith"%string <> "bober"%string) by discriminate.
  split; [exact Hne |].
  exact (proj1 (other_histories_unchanged "bober" "smith" "one more" "fine" 1011
                  NPCMemory.onsuccess NPCMemory.onsuccess NPCMemory.onsuccess
                  (NPCMemory.connected NPCMemory.exchanges) Hne)).
Defined.

(** X19. The chat context alternates. [formatHistoryForChat] gives two
    messages for every exchange, in the order of the history: message [2 i]
    is the player's line of exchange [i] in the role [user], message
    [2 i + 1] the character's answer in the role [assistant]; and the
    messages of two histories one after the other are the messages of the
    first followed by those of the second. *)
Theorem chat_alternates (history rest : list NPCMemory.ConversationEntry) (i : nat) :
  length (NPCMemory.formatHistoryForChat history) = (2 * length history)%nat
  /\ NPCMemory.formatHistoryForChat history !! (2 * i)%nat
     = (fun e => NPCMemory.mkChatMessage NPCMemory.user (NPCMemory.playerMessage e))
         <$> history !! i
  /\ NPCMemory.formatHistoryForChat history !! (2 * i + 1)%nat
     = (fun e => NPCMemory.mkChatMessage NPCMemory.assistant (NPCMemory.npcResponse e))
         <$> history !! i
  /\ NPCMemory.formatHistoryForChat (history ++ rest)
     = NPCMemory.formatHistoryForChat history ++ NPCMemory.formatHistoryForChat rest.
Proof.
  split; [| split; [| split]].
  - induction history as [| e history IH]; simpl; [reflexivity | rewrite IH; lia].
  - revert i. induction history as [| e history IH]; intros [| i]; simpl; try reflexivity.
    replace (i + S (i + 0))%nat with (S (2 * i)) by lia. apply IH.
  - revert i. induction history as [| e history IH]; intros [| i]; simpl; try reflexivity.
    replace (i + S (i + 0) + 1)%nat with (S (2 * i + 1)) by lia. apply IH.
  - induction history as [| e history IH]; simpl; [reflexivity | rewrite IH; reflexivity].
Qed.

(** * Character models *)

Lemma loader_inv_start : CharacterLoader.inv CharacterLoader.start.
Proof.
  unfold CharacterLoader.inv. simpl. split; [| split; [| split]].
  - intros url k. rewrite lookup_empty, lookup_nil. split; [discriminate | intros [H _]; discriminate].
  - intros url m. rewrite lookup_empty. split; [discriminate |].
    intros (k & H & _). rewrite lookup_nil in H. discriminate.
  - intros k [x H]. rewrite lookup_empty in H. discriminate.
  - intros url k1 k2 _ H. rewrite lookup_nil in H. discriminate.
Qed.

Lemma loader_inv_loadModel (url : string) (s : CharacterLoader.State) :
  CharacterLoader.inv s -> CharacterLoader.cache s !! url = None ->
  CharacterLoader.inv (snd (CharacterLoader.loadModel url s)).
Proof.
  intros (Hpending & Hcache & Hsettled & Hagain) Hmiss.
  unfold CharacterLoader.loadModel.
  destruct (CharacterLoader.pending s !! url) as [promise |] eqn:Hurl;
    [exact (conj Hpending (conj Hcache (conj Hsettled Hagain))) |].
  destruct s as [cache pending loads outcome console]. simpl in *.
  assert (Hnew : outcome !! length loads = None).
  { destruct (outcome !! length loads) eqn:Hn; [| reflexivity].
    destruct (Hsettled (length loads)) as [x Hx]; [eauto |].
    apply lookup_lt_Some in Hx. lia. }
  assert (Hfailed : forall k, loads !! k = Some url ->
                              exists error, outcome !! k = Some (Throw error)).
  { intros k Hk. destruct (outcome !! k) as [[m | error] |] eqn:Hout; [| eauto |].
    - assert (H : cache !! url = Some m) by (apply Hcache; eauto). congruence.
    - assert (H : pending !! url = Some k) by (apply Hpending; auto). congruence. }
  unfold CharacterLoader.inv. simpl. split; [| split; [| split]].
  - intros u k. rewrite lookup_app_Some, list_lookup_singleton_Some.
    destruct (decide (u = url)) as [-> | Hne].
    + rewrite lookup_insert_eq. split.
      * intros [= <-]. split; [right; split; [lia | split; [lia | reflexivity]] | exact Hnew].
      * intros [[Hk | (Hge & Hk & _)] Hout]; [| f_equal; lia].
        destruct (Hfailed k Hk) as [error He]. congruence.
    + rewrite lookup_insert_ne by congruence. rewrite Hpending.
      split; [intros [Hk Hout]; auto |].
      intros [[Hk | (_ & _ & Heq)] Hout]; [auto | congruence].
  - intros u m. rewrite Hcache. split; intros (k & Hk & Hout); exists k.
    + split; [apply lookup_app_l_Some, Hk | exact Hout].
    + split; [| exact Hout]. destruct (Hsettled k) as [x Hx]; [eauto |].
      rewrite lookup_app_l in Hk by (apply lookup_lt_Some in Hx; exact Hx). exact Hk.
  - intros k Hk. destruct (Hsettled k Hk) as [x Hx]. exists x. apply lookup_app_l_Some, Hx.
  - intros u k1 k2 Hlt. rewrite !lookup_app_Some, !list_lookup_singleton_Some.
    intros [Hk1 | (Hge1 & _ & _)] [Hk2 | (Hge2 & Hk2 & Heq)].
    + eapply Hagain; eassumption.
    + subst u. apply Hfailed, Hk1.
    + apply lookup_lt_Some in Hk2. lia.
    + lia.
Qed.

Lemma loader_inv_preload (urls : list string) (s : CharacterLoader.State) :
  CharacterLoader.inv s -> CharacterLoader.inv (CharacterLoader.preload urls s).
Proof.
  unfold CharacterLoader.preload. revert s.
  induction urls as [| url urls IH]; simpl; intros s Hs; [exact Hs |].
  apply IH. destruct (CharacterLoader.cache s !! url) eqn:Hmiss; [exact Hs |].
  destruct (CharacterLoader.pending s !! url) eqn:Hurl; [exact Hs |].
  apply loader_inv_loadModel; assumption.
Qed.

Lemma loader_inv_settled (k : nat) (r : CharacterLoader.CachedModel + JsError)
    (s : CharacterLoader.State) :
  CharacterLoader.inv s ->
  CharacterLoader.enabled (CharacterLoader.load_settled k r) s = true ->
  CharacterLoader.inv (CharacterLoader.step (CharacterLoader.load_settled k r) s).
Proof.
  intros (Hpending & Hcache & Hsettled & Hagain) Hen.
  apply bool_decide_eq_true in Hen as [[url Hk] Hout].
  simpl. rewrite Hk.
  destruct s as [cache pending loads outcome console]. simpl in *.
  assert (Hone : forall k', loads !! k' = Some url -> k' <> k ->
                            exists error, outcome !! k' = Some (Throw error)).
  { intros k' Hk' Hne. destruct (decide (k' < k)%nat) as [Hlt | Hge].
    - eapply (Hagain url k' k); eassumption.
    - destruct (Hagain url k k') as [error He]; [lia | assumption | assumption | congruence]. }
  destruct r as [gltf | error]; unfold CharacterLoader.inv; simpl;
    (split; [| split; [| split]]).
  - intros u k'. destruct (decide (k' = k)) as [-> | Hne].
    + rewrite lookup_insert_eq. split; [| intros [_ H]; discriminate].
      intros Hu. exfalso. destruct (decide (u = url)) as [-> | Hne].
      * rewrite lookup_delete_eq in Hu. discriminate.
      * rewrite lookup_delete_ne in Hu by congruence.
        apply Hpending in Hu as [Hu _]. congruence.
    + rewrite lookup_insert_ne by congruence.
      destruct (decide (u = url)) as [-> | Hneu].
      * rewrite lookup_delete_eq. split; [discriminate |].
        intros [Hk' Hnone]. destruct (Hone k' Hk' Hne) as [e He]. congruence.
      * rewrite lookup_delete_ne by congruence. apply Hpending.
  - intros u m. destruct (decide (u = url)) as [-> | Hneu].
    + rewrite lookup_insert_eq. split.
      * intros [= <-]. exists k. rewrite lookup_insert_eq. auto.
      * intros (k' & Hk' & Hm). destruct (decide (k' = k)) as [-> | Hne].
        -- rewrite lookup_insert_eq in Hm. congruence.
        -- rewrite lookup_insert_ne in Hm by congruence.
           destruct (Hone k' Hk' Hne) as [e He]. congruence.
    + rewrite lookup_insert_ne by congruence. rewrite Hcache.
      split; intros (k' & Hk' & Hm); exists k'; (split; [exact Hk' |]);
        rewrite lookup_insert_ne in * by congruence; exact Hm.
  - intros k' Hk'. destruct (decide (k' = k)) as [-> | Hne]; [eauto |].
    rewrite lookup_insert_ne in Hk' by congruence. auto.
  - intros u k1 k2 Hlt Hk1 Hk2. destruct (Hagain u k1 k2 Hlt Hk1 Hk2) as [e He].
    exists e. rewrite lookup_insert_ne by congruence. exact He.
  - intros u k'. destruct (decide (k' = k)) as [-> | Hne].
    + rewrite lookup_insert_eq. split; [| intros [_ H]; discriminate].
      intros Hu. exfalso. destruct (decide (u = url)) as [-> | Hne].
      * rewrite lookup_delete_eq in Hu. discriminate.
      * rewrite lookup_delete_ne in Hu by congruence.
        apply Hpending in Hu as [Hu _]. congruence.
    + rewrite lookup_insert_ne by congruence.
      destruct (decide (u = url)) as [-> | Hneu].
      * rewrite lookup_delete_eq. split; [discriminate |].
        intros [Hk' Hnone]. destruct (Hone k' Hk' Hne) as [e He]. congruence.
      * rewrite lookup_delete_ne by congruence. apply Hpending.
  - intros u m. rewrite Hcache.
    split; intros (k' & Hk' & Hm); exists k'; (split; [exact Hk' |]).
    + rewrite lookup_insert_ne by congruence. exact Hm.
    + destruct (decide (k' = k)) as [-> | Hne].
      * rewrite lookup_insert_eq in Hm. discriminate.
      * rewrite lookup_insert_ne in Hm by congruence. exact Hm.
  - intros k' Hk'. destruct (decide (k' = k)) as [-> | Hne]; [eauto |].
    rewrite lookup_insert_ne in Hk' by congruence. auto.
  - intros u k1 k2 Hlt Hk1 Hk2. destruct (Hagain u k1 k2 Hlt Hk1 Hk2) as [e He].
    exists e. rewrite lookup_insert_ne by congruence. exact He.
Qed.

Lemma loader_inv_step (e : CharacterLoader.Event) (s : CharacterLoader.State) :
  CharacterLoader.inv s -> CharacterLoader.enabled e s = true ->
  CharacterLoader.inv (CharacterLoader.step e s).
Proof.
  intros Hs Hen. destruct e as [urls | url | url | k r].
  - apply loader_inv_preload, Hs.
  - simpl. unfold CharacterLoader.getClone.
    destruct (CharacterLoader.cache s !! url) eqn:Hmiss; [exact Hs |].
    pose proof (loader_inv_loadModel url s Hs Hmiss) as H.
    destruct (CharacterLoader.loadModel url s). exact H.
  - simpl. unfold CharacterLoader.loadAnimationClips.
    destruct (CharacterLoader.cache s !! url) eqn:Hmiss; [exact Hs |].
    pose proof (loader_inv_loadModel url s Hs Hmiss) as H.
    destruct (CharacterLoader.loadModel url s). exact H.
  - apply loader_inv_settled; assumption.
Qed.

Lemma loader_inv_reachable (s : CharacterLoader.State) :
  CharacterLoader.reachable s -> CharacterLoader.inv s.
Proof.
  induction 1 as [| e s Hs IH Hen]; [apply loader_inv_start | apply loader_inv_step; assumption].
Qed.

Lemma loader_run_reachable (es : list CharacterLoader.Event) (s s' : CharacterLoader.State) :
  CharacterLoader.reachable s -> CharacterLoader.run es s = Some s' ->
  CharacterLoader.reachable s'.
Proof.
  revert s. induction es as [| e es IH]; simpl; intros s Hs Hrun.
  - injection Hrun as <-. exact Hs.
  - destruct (CharacterLoader.enabled e s) eqn:Hen; [| discriminate].
    apply (IH _ (CharacterLoader.reachable_step e s Hs Hen) Hrun).
Qed.

Lemma after_session_reachable : CharacterLoader.reachable CharacterLoader.after_session.
Proof.
  apply (loader_run_reachable CharacterLoader.session CharacterLoader.start);
    [apply CharacterLoader.reachable_start | vm_compute; reflexivity].
Qed.

(** X20. A file is fetched again only after a failure. Of two calls of
    [gltfLoader.load] for the same url, the earlier one has failed: so a url
    has at most one load under way, and at most one load of it succeeds,
    whatever [preload], [getClone] and [loadAnimationClips] are called in
    between. *)
Theorem file_loaded_again_only_after_failure (s : CharacterLoader.State) (url : string)
    (k1 k2 : nat) :
  CharacterLoader.reachable s -> (k1 < k2)%nat ->
  CharacterLoader.loads s !! k1 = Some url -> CharacterLoader.loads s !! k2 = Some url ->
  exists error, CharacterLoader.outcome s !! k1 = Some (Throw error).
Proof.
  intros Hs. destruct (loader_inv_reachable s Hs) as (_ & _ & _ & Hagain). apply Hagain.
Qed.

Lemma file_loaded_again_only_after_failure_witness :
  (CharacterLoader.reachable CharacterLoader.after_session /\ (1 < 2)%nat
   /\ CharacterLoader.loads CharacterLoader.after_session
      = ["knight.glb"; "mage.glb"; "mage.glb"]%string)
  /\ exists error,
       CharacterLoader.outcome CharacterLoader.after_session !! 1%nat = Some (Throw error).
Proof.
  split; [split; [exact after_session_reachable | split; [lia | reflexivity]] |].
  apply (file_loaded_again_only_after_failure _ "mage.glb" 1 2 after_session_reachable);
    [lia | reflexivity | reflexivity].
Defined.

(** X21. A caller gets the model of its file. When [getClone] finds the url
    in the cache, it calls [load] for nothing, and the model it clones is
    the one a load of that url succeeded with. Otherwise the promise it
    awaits is that of a load of that url that is under way, and of the only
    one. [loadAnimationClips] goes the same way. *)
Theorem caller_awaits_the_load_of_its_file (s : CharacterLoader.State) (url : string) :
  CharacterLoader.reachable s ->
  CharacterLoader.loadAnimationClips url s = CharacterLoader.getClone url s
  /\ match CharacterLoader.getClone url s with
     | (CharacterLoader.cached_model cached, s') =>
         s' = s
         /\ exists k, CharacterLoader.loads s !! k = Some url
                      /\ CharacterLoader.outcome s !! k = Some (Normal cached)
     | (CharacterLoader.load_promise k, s') =>
         CharacterLoader.loads s' !! k = Some url
         /\ CharacterLoader.outcome s' !! k = None
         /\ forall k', CharacterLoader.loads s' !! k' = Some url ->
                       CharacterLoader.outcome s' !! k' = None -> k' = k
     end.
Proof.
  intros Hs. split; [reflexivity |].
  pose proof (loader_inv_reachable s Hs) as Hinv.
  pose proof (loader_inv_step (CharacterLoader.call_getClone url) s Hinv eq_refl) as Hinv'.
  simpl in Hinv'. unfold CharacterLoader.getClone in *.
  destruct (CharacterLoader.cache s !! url) as [cached |] eqn:Hcached.
  - split; [reflexivity |]. apply Hinv, Hcached.
  - destruct (CharacterLoader.loadModel url s) as [k s'] eqn:Hload. simpl in Hinv'.
    destruct Hinv' as (Hpending & _).
    assert (Hk : CharacterLoader.pending s' !! url = Some k).
    { unfold CharacterLoader.loadModel in Hload.
      destruct (CharacterLoader.pending s !! url) as [promise |] eqn:Hurl.
      - injection Hload as <- <-. exact Hurl.
      - injection Hload as <- <-. simpl. apply lookup_insert_eq. }
    pose proof (proj1 (Hpending url k) Hk) as [Hloads Hout].
    split; [exact Hloads |]. split; [exact Hout |].
    intros k' Hk' Hout'.
    assert (H : CharacterLoader.pending s' !! url = Some k') by (apply Hpending; auto).
    congruence.
Qed.

Lemma caller_awaits_the_load_of_its_file_witness :
  CharacterLoader.reachable CharacterLoader.after_session
  /\ fst (CharacterLoader.getClone "knight.glb" CharacterLoader.after_session)
     = CharacterLoader.cached_model CharacterLoader.knight
  /\ fst (CharacterLoader.getClone "mage.glb" CharacterLoader.after_session)
     = CharacterLoader.load_promise 2
  /\ CharacterLoader.loadAnimationClips "mage.glb" CharacterLoader.after_session
     = CharacterLoader.getClone "mage.glb" CharacterLoader.after_session.
Proof.
  split; [exact after_session_reachable |]. split; [vm_compute; reflexivity |].
  split; [vm_compute; reflexivity |].
  exact (proj1 (caller_awaits_the_load_of_its_file _ "mage.glb" after_session_reachable)).
Defined.

(** X22. A cached model stays. Once a url is in the cache, no call and no
    callback of the loader replaces or removes its model: every clone of a
    url is a clone of the same scene. *)
Theorem cached_model_stays (e : CharacterLoader.Event) (s : CharacterLoader.State)
    (url : string) (cached : CharacterLoader.CachedModel) :
  CharacterLoader.reachable s -> CharacterLoader.enabled e s = true ->
  CharacterLoader.cache s !! url = Some cached ->
  CharacterLoader.cache (CharacterLoader.step e s) !! url = Some cached.
Proof.
  intros Hs Hen Hcached.
  destruct (loader_inv_reachable s Hs) as (Hpending & Hcache & _ & Hagain).
  destruct e as [urls | u | u | k r]; simpl.
  - unfold CharacterLoader.preload. clear Hs Hpending Hcache Hagain Hen.
    revert s Hcached. induction urls as [| u urls IH]; simpl; intros s Hcached; [exact Hcached |].
    apply IH. destruct (CharacterLoader.cache s !! u); [exact Hcached |].
    unfold CharacterLoader.loadModel.
    destruct (CharacterLoader.pending s !! u); simpl; exact Hcached.
  - unfold CharacterLoader.getClone, CharacterLoader.loadModel.
    destruct (CharacterLoader.cache s !! u); [exact Hcached |].
    destruct (CharacterLoader.pending s !! u); simpl; exact Hcached.
  - unfold CharacterLoader.loadAnimationClips, CharacterLoader.loadModel.
    destruct (CharacterLoader.cache s !! u); [exact Hcached |].
    destruct (CharacterLoader.pending s !! u); simpl; exact Hcached.
  - apply bool_decide_eq_true in Hen as [[u Hk] Hout]. rewrite Hk.
    destruct r as [gltf | error]; simpl; [| exact Hcached].
    destruct (decide (u = url)) as [-> | Hne]; [| rewrite lookup_insert_ne by exact Hne; exact Hcached].
    exfalso. apply Hcache in Hcached as (k' & Hk' & Hm).
    destruct (decide (k' < k)%nat) as [Hlt | Hge].
    + destruct (Hagain url k' k Hlt Hk' Hk) as [e He]. congruence.
    + destruct (decide (k' = k)) as [-> | Hne]; [congruence |].
      destruct (Hagain url k k') as [e He]; [lia | assumption | assumption | congruence].
Qed.

Lemma cached_model_stays_witness :
  (CharacterLoader.reachable CharacterLoader.after_session
   /\ CharacterLoader.enabled (CharacterLoader.load_settled 2 (inl CharacterLoader.knight))
        CharacterLoader.after_session = true
   /\ CharacterLoader.cache CharacterLoader.after_session !! "knight.glb"%string
      = Some CharacterLoader.knight)
  /\ CharacterLoader.cache
       (CharacterLoader.step (CharacterLoader.load_settled 2 (inl CharacterLoader.knight))
          CharacterLoader.after_session) !! "knight.glb"%string
     = Some CharacterLoader.knight.
Proof.
  assert (Hen : CharacterLoader.enabled
                  (CharacterLoader.load_settled 2 (inl CharacterLoader.knight))
                  CharacterLoader.after_session = true) by (vm_compute; reflexivity).
  assert (Hcached : CharacterLoader.cache CharacterLoader.after_session !! "knight.glb"%string
                    = Some CharacterLoader.knight) by (vm_compute; reflexivity).
  split; [split; [exact after_session_reachable | split; [exact Hen | exact Hcached]] |].
  exact (cached_model_stays _ _ _ _ after_session_reachable Hen Hcached).
Defined.

(** * Static batching *)

Lemma distinct_snoc (l : list string) (k : string) :
  StaticBatcher.distinct (l ++ [k])
  = if decide (k ∈ StaticBatcher.distinct l) then StaticBatcher.distinct l
    else StaticBatcher.distinct l ++ [k].
Proof. unfold StaticBatcher.distinct. rewrite foldl_app. reflexivity. Qed.

Lemma elem_of_distinct (l : list string) (k : string) :
  k ∈ StaticBatcher.distinct l <-> k ∈ l.
Proof.
  induction l as [| x l IH] using rev_ind.
  - reflexivity.
  - rewrite distinct_snoc, elem_of_app, list_elem_of_singleton, <- IH.
    destruct (decide (x ∈ StaticBatcher.distinct l)) as [Hx | Hx].
    + split; [auto | intros [H | ->]; assumption].
    + rewrite elem_of_app, list_elem_of_singleton. reflexivity.
Qed.

Lemma under_snoc (k key : string) (item : StaticBatcher.Given)
    (given : list (string * StaticBatcher.Given)) :
  StaticBatcher.under k (given ++ [(key, item)])
  = StaticBatcher.under k given ++ (if decide (key = k) then [item] else []).
Proof.
  unfold StaticBatcher.under. rewrite filter_app, fmap_app. f_equal.
  destruct (decide (key = k)) as [Hk | Hk].
  - rewrite filter_cons_True by exact Hk. reflexivity.
  - rewrite filter_cons_False by exact Hk. reflexivity.
Qed.

Lemma under_none (k : string) (given : list (string * StaticBatcher.Given)) :
  k ∉ given.*1 -> StaticBatcher.under k given = [].
Proof.
  unfold StaticBatcher.under. induction given as [| [k' m] given IH]; simpl; intros Hk.
  - reflexivity.
  - apply not_elem_of_cons in Hk as [Hne Hk].
    rewrite filter_cons_False by (simpl; congruence). apply IH, Hk.
Qed.

Section PushTo.

Context {G F : Type}.
Variable meshes : G -> list string.
Variable fixed : G -> F.
Variable made : string -> StaticBatcher.Given -> F.
Variable key : string.
Variable item : StaticBatcher.Given.
Variable create : G.
Variable push : G -> G.
Hypothesis meshes_create : meshes create = [StaticBatcher.given_mesh item].
Hypothesis meshes_push : forall g, meshes (push g) = meshes g ++ [StaticBatcher.given_mesh item].
Hypothesis fixed_create : fixed create = made key item.
Hypothesis fixed_push : forall g, fixed (push g) = fixed g.

Lemma push_to_keys (groups : list (string * G)) :
  (key ∈ groups.*1 -> (StaticBatcher.push_to key create push groups).*1 = groups.*1)
  /\ (key ∉ groups.*1 -> (StaticBatcher.push_to key create push groups).*1 = groups.*1 ++ [key]).
Proof.
  induction groups as [| [k g] groups [IHin IHout]].
  - split; [intros H; inversion H | reflexivity].
  - cbn [StaticBatcher.push_to]. destruct (decide (k = key)) as [-> | Hne].
    + split; [reflexivity |]. intros H. exfalso. apply H. left.
    + rewrite !fmap_cons. cbn [fst]. split.
      * intros H. apply elem_of_cons in H as [-> | H]; [congruence |]. rewrite IHin by exact H.
        reflexivity.
      * intros H. apply not_elem_of_cons in H as [_ H]. rewrite IHout by exact H. reflexivity.
Qed.

Lemma push_to_meshes (groups : list (string * G)) :
  flat_map (fun kg => meshes kg.2) (StaticBatcher.push_to key create push groups)
  ≡ₚ flat_map (fun kg => meshes kg.2) groups ++ [StaticBatcher.given_mesh item].
Proof.
  induction groups as [| [k g] groups IH]; simpl.
  - rewrite meshes_create. reflexivity.
  - destruct (decide (k = key)) as [-> | Hne]; simpl.
    + rewrite meshes_push, <- !app_assoc.
      apply Permutation_app_head, Permutation_app_comm.
    + rewrite IH, app_assoc. reflexivity.
Qed.

Lemma push_to_elem (groups : list (string * G)) (k : string) (g : G) :
  NoDup groups.*1 ->
  (k, g) ∈ StaticBatcher.push_to key create push groups ->
  (k <> key /\ (k, g) ∈ groups)
  \/ (k = key /\ ((exists g0, (key, g0) ∈ groups /\ g = push g0)
                  \/ ((key ∉ groups.*1) /\ g = create))).
Proof.
  induction groups as [| [k0 g0] groups IH]; simpl; intros Hnodup Hin.
  - apply list_elem_of_singleton in Hin as [= -> ->]. right. split; [reflexivity |].
    right. split; [apply not_elem_of_nil | reflexivity].
  - apply NoDup_cons in Hnodup as [Hk0 Hnodup].
    destruct (decide (k0 = key)) as [-> | Hne].
    + apply elem_of_cons in Hin as [[= -> ->] | Hin].
      * right. split; [reflexivity |]. left. exists g0. split; [left | reflexivity].
      * left. split; [| right; exact Hin].
        intros ->. apply Hk0. apply list_elem_of_fmap. exists (key, g). auto.
    + apply elem_of_cons in Hin as [[= -> ->] | Hin].
      * left. split; [exact Hne | left].
      * destruct (IH Hnodup Hin) as [[Hk Hg] | [-> [(g1 & Hg1 & ->) | [Hnone ->]]]].
        -- left. split; [exact Hk | right; exact Hg].
        -- right. split; [reflexivity |]. left. exists g1. split; [right; exact Hg1 | reflexivity].
        -- right. split; [reflexivity |]. right. split; [| reflexivity].
           intros H. apply elem_of_cons in H as [-> | H]; [congruence | contradiction].
Qed.

Lemma filed_push (given : list (string * StaticBatcher.Given)) (groups : list (string * G)) :
  StaticBatcher.filed meshes fixed made given groups ->
  StaticBatcher.filed meshes fixed made (given ++ [(key, item)])
    (StaticBatcher.push_to key create push groups).
Proof.
  intros (Hkeys & Hnodup & Hgroups). unfold StaticBatcher.filed.
  rewrite fmap_app. change ([(key, item)].*1) with [key]. rewrite distinct_snoc, <- Hkeys.
  destruct (push_to_keys groups) as [Hin Hout].
  assert (Hpushed : (StaticBatcher.push_to key create push groups).*1
                    = (if decide (key ∈ groups.*1) then groups.*1 else groups.*1 ++ [key])
                    /\ NoDup (StaticBatcher.push_to key create push groups).*1).
  { destruct (decide (key ∈ groups.*1)) as [H | H].
    - rewrite (Hin H). auto.
    - rewrite (Hout H). split; [reflexivity |].
      apply NoDup_app. split; [exact Hnodup |]. split; [| apply NoDup_singleton].
      intros x Hx Hx'. apply list_elem_of_singleton in Hx' as ->. contradiction. }
  destruct Hpushed as [Hpushed Hnodup']. split; [exact Hpushed |]. split; [exact Hnodup' |].
  clear Hin Hout Hpushed Hnodup'.
  intros k g Hin. rewrite under_snoc.
  destruct (push_to_elem groups k g Hnodup Hin)
    as [[Hk Hg] | [-> [(g0 & Hg0 & ->) | [Hnone ->]]]].
  - rewrite decide_False by congruence. rewrite app_nil_r. apply Hgroups, Hg.
  - rewrite decide_True by reflexivity.
    destruct (Hgroups key g0 Hg0) as [Hm Hf].
    rewrite meshes_push, fixed_push, Hm, fmap_app. split; [reflexivity |].
    destruct (StaticBatcher.under key given); [discriminate | exact Hf].
  - rewrite decide_True by reflexivity.
    rewrite under_none by (rewrite <- elem_of_distinct, <- Hkeys; exact Hnone).
    rewrite meshes_create, fixed_create. auto.
Qed.

End PushTo.

Lemma after_snoc (calls : list StaticBatcher.Call) (c : StaticBatcher.Call) :
  StaticBatcher.after (calls ++ [c]) = StaticBatcher.call (StaticBatcher.after calls) c.
Proof. unfold StaticBatcher.after. rewrite foldl_app. reflexivity. Qed.

Lemma after_filed (calls : list StaticBatcher.Call) :
  StaticBatcher.filed StaticBatcher.merge_meshes StaticBatcher.merge_material
    (fun k _ => k) (omap StaticBatcher.mergeable calls)
    (StaticBatcher.mergeGroups (StaticBatcher.after calls))
  /\ StaticBatcher.filed StaticBatcher.instance_meshes
       (fun g => (StaticBatcher.instance_geo g, StaticBatcher.instance_material g))
       (fun _ m => (StaticBatcher.geometry (StaticBatcher.given_as m),
                    StaticBatcher.material (StaticBatcher.given_as m)))
       (omap StaticBatcher.instanceable calls)
       (StaticBatcher.instanceGroups (StaticBatcher.after calls)).
Proof.
  induction calls as [| c calls [IHm IHi]] using rev_ind.
  - split; (split; [reflexivity |]; split; [constructor |]);
      intros k g H; inversion H.
  - rewrite after_snoc, !omap_app. destruct c as [now mesh | now key mesh]; simpl;
      rewrite ?app_nil_r.
    + split; [| exact IHi]. apply filed_push; auto.
    + split; [exact IHm |]. apply filed_push; auto.
Qed.

Lemma after_meshes (calls : list StaticBatcher.Call) :
  flat_map (fun kg => StaticBatcher.merge_meshes kg.2)
    (StaticBatcher.mergeGroups (StaticBatcher.after calls))
  ++ flat_map (fun kg => StaticBatcher.instance_meshes kg.2)
       (StaticBatcher.instanceGroups (StaticBatcher.after calls))
  ≡ₚ StaticBatcher.mesh_of <$> calls.
Proof.
  induction calls as [| c calls IH] using rev_ind; [reflexivity |].
  rewrite after_snoc, fmap_app, <- IH. destruct c as [now mesh | now key mesh]; simpl.
  - rewrite (push_to_meshes StaticBatcher.merge_meshes _
               (StaticBatcher.mkGiven mesh (now mesh))) by auto.
    simpl. rewrite <- !app_assoc. apply Permutation_app_head, Permutation_app_comm.
  - rewrite (push_to_meshes StaticBatcher.instance_meshes _
               (StaticBatcher.mkGiven mesh (now mesh))) by auto.
    simpl. rewrite <- !app_assoc. reflexivity.
Qed.

Lemma flat_map_existing (l : list string) :
  flat_map StaticBatcher.drawn (StaticBatcher.existing <$> l) = l.
Proof. induction l as [| m l IH]; simpl; [reflexivity | f_equal; exact IH]. Qed.

Lemma flush_merge_drawn (merge : list string -> bool) (now : StaticBatcher.Scene)
    (g : StaticBatcher.MergeGroup) :
  flat_map StaticBatcher.drawn (StaticBatcher.flush_merge merge now g)
  = StaticBatcher.merge_meshes g
  /\ (length (StaticBatcher.flush_merge merge now g)
      <= length (StaticBatcher.merge_meshes g))%nat.
Proof.
  unfold StaticBatcher.flush_merge, StaticBatcher.merge_meshes.
  destruct (StaticBatcher.merge_more g) as [| m more]; [simpl; split; [reflexivity | lia] |].
  cbv zeta. destruct (merge _).
  - simpl. rewrite app_nil_r. split; [reflexivity | lia].
  - rewrite flat_map_existing, length_fmap. split; [reflexivity | lia].
Qed.

Lemma flush_instance_drawn (now : StaticBatcher.Scene) (key : string)
    (g : StaticBatcher.InstanceGroup) :
  flat_map StaticBatcher.drawn (StaticBatcher.flush_instance now key g)
  = StaticBatcher.instance_meshes g
  /\ (length (StaticBatcher.flush_instance now key g)
      <= length (StaticBatcher.instance_meshes g))%nat.
Proof.
  unfold StaticBatcher.flush_instance, StaticBatcher.instance_meshes.
  destruct (StaticBatcher.instance_more g) as [| m more]; simpl;
    rewrite ?app_nil_r; split; try reflexivity; lia.
Qed.

Lemma flat_map_drawn {A : Type} (f : A -> list StaticBatcher.Object3D)
    (meshes : A -> list string) (l : list A) :
  (forall a, flat_map StaticBatcher.drawn (f a) = meshes a
             /\ (length (f a) <= length (meshes a))%nat) ->
  flat_map StaticBatcher.drawn (flat_map f l) = flat_map meshes l
  /\ (length (flat_map f l) <= length (flat_map meshes l))%nat.
Proof.
  intros Hf. induction l as [| a l [IH1 IH2]]; simpl; [split; [reflexivity | lia] |].
  destruct (Hf a) as [H1 H2]. rewrite flat_map_app, H1, IH1, !length_app. split; [reflexivity | lia].
Qed.

Lemma added_drawn (merge : list string -> bool) (now : StaticBatcher.Scene)
    (calls : list StaticBatcher.Call) :
  flat_map StaticBatcher.drawn (StaticBatcher.added merge now (StaticBatcher.after calls))
  ≡ₚ StaticBatcher.mesh_of <$> calls
  /\ (length (StaticBatcher.added merge now (StaticBatcher.after calls)) <= length calls)%nat.
Proof.
  destruct (flat_map_drawn (fun kg => StaticBatcher.flush_merge merge now kg.2)
              (fun kg => StaticBatcher.merge_meshes kg.2)
              (StaticBatcher.mergeGroups (StaticBatcher.after calls))
              (fun kg => flush_merge_drawn merge now kg.2)) as [Hm1 Hm2].
  destruct (flat_map_drawn (fun kg => StaticBatcher.flush_instance now kg.1 kg.2)
              (fun kg => StaticBatcher.instance_meshes kg.2)
              (StaticBatcher.instanceGroups (StaticBatcher.after calls))
              (fun kg => flush_instance_drawn now kg.1 kg.2)) as [Hi1 Hi2].
  pose proof (after_meshes calls) as Hall. unfold StaticBatcher.added. split.
  - rewrite flat_map_app, Hm1, Hi1. exact Hall.
  - rewrite length_app. apply Permutation_length in Hall.
    rewrite length_app, length_fmap in Hall. lia.
Qed.

Lemma remove_child_absent (object : StaticBatcher.Object3D)
    (children : list StaticBatcher.Object3D) :
  object ∉ children -> StaticBatcher.remove_child object children = children.
Proof.
  induction children as [| child rest IH]; simpl; intros Hout; [reflexivity |].
  apply not_elem_of_cons in Hout as [Hne Hout].
  rewrite decide_False by congruence. rewrite IH by exact Hout. reflexivity.
Qed.

Lemma elem_of_drawn (m : string) (o : StaticBatcher.Object3D)
    (objects : list StaticBatcher.Object3D) :
  o ∈ objects -> m ∈ StaticBatcher.drawn o -> m ∈ flat_map StaticBatcher.drawn objects.
Proof.
  intros Ho Hm. apply list_elem_of_In, in_flat_map. exists o.
  split; apply list_elem_of_In; assumption.
Qed.

(** Objects that are new to the target, and distinct, are appended. *)
Lemma add_all_new (target : string) (objects children : list StaticBatcher.Object3D) :
  NoDup (flat_map StaticBatcher.drawn objects) ->
  (forall m, StaticBatcher.existing m ∈ objects ->
             (StaticBatcher.existing m ∉ children) /\ m <> target) ->
  StaticBatcher.add_all target objects children = children ++ objects.
Proof.
  unfold StaticBatcher.add_all. revert children.
  induction objects as [| o objects IH]; simpl; intros children Hnodup Hnew;
    [rewrite app_nil_r; reflexivity |].
  apply NoDup_app in Hnodup as (_ & Hapart & Hnodup).
  assert (Hadd : StaticBatcher.Object3D_add target o children = children ++ [o]).
  { destruct o as [m | |]; try reflexivity. simpl.
    destruct (Hnew m) as [Hout Hne]; [left |].
    rewrite decide_False by exact Hne. rewrite remove_child_absent by exact Hout. reflexivity. }
  rewrite Hadd, IH; [rewrite <- app_assoc; reflexivity | exact Hnodup |].
  intros m Hm. destruct (Hnew m) as [Hout Hne]; [right; exact Hm |].
  split; [| exact Hne]. intros Hin. apply elem_of_app in Hin as [Hin | Hin]; [auto |].
  apply list_elem_of_singleton in Hin as <-.
  apply (Hapart m); [simpl; left |].
  apply (elem_of_drawn m (StaticBatcher.existing m)); [exact Hm | simpl; left].
Qed.

(** X23. Flushing draws every mesh once. When the meshes given to
    [addMergeable] and [addInstanceable] are distinct objects, none of them
    a child of the target already nor the target itself, [flush] leaves the
    children of the target as they were and puts behind them objects that
    draw, between them, exactly the meshes given, each once, whether the
    merges succeed or not; they are no more objects than meshes were given;
    and the batcher is empty afterwards, so that flushing again adds
    nothing. *)
Theorem flush_draws_every_mesh_once (merge : list string -> bool)
    (now : StaticBatcher.Scene) (calls : list StaticBatcher.Call) (target : string)
    (children : list string) :
  NoDup (StaticBatcher.mesh_of <$> calls) ->
  Forall (fun mesh => (mesh ∉ children) /\ mesh <> target) (StaticBatcher.mesh_of <$> calls) ->
  exists new,
    StaticBatcher.flush merge now target children (StaticBatcher.after calls)
    = ((StaticBatcher.existing <$> children) ++ new, StaticBatcher.empty)
    /\ flat_map StaticBatcher.drawn new ≡ₚ StaticBatcher.mesh_of <$> calls
    /\ (length new <= length calls)%nat
    /\ (forall now' target' children',
          StaticBatcher.flush merge now' target' children' StaticBatcher.empty
          = (StaticBatcher.existing <$> children', StaticBatcher.empty)).
Proof.
  intros Hnodup Hnew.
  destruct (added_drawn merge now calls) as [Hdrawn Hlen].
  exists (StaticBatcher.added merge now (StaticBatcher.after calls)).
  split; [| split; [exact Hdrawn | split; [exact Hlen | reflexivity]]].
  unfold StaticBatcher.flush. f_equal. apply add_all_new.
  - rewrite Hdrawn. exact Hnodup.
  - intros m Hm.
    assert (Hgiven : m ∈ StaticBatcher.mesh_of <$> calls).
    { rewrite <- Hdrawn.
      apply (elem_of_drawn m (StaticBatcher.existing m)); [exact Hm | simpl; left]. }
    rewrite Forall_forall in Hnew. destruct (Hnew m Hgiven) as [Hout Hne].
    split; [| exact Hne]. intros Hin. apply list_elem_of_fmap in Hin as (u & [= ->] & Hu).
    contradiction.
Qed.

Lemma flush_draws_every_mesh_once_witness :
  (NoDup (StaticBatcher.mesh_of <$> StaticBatcher.arch)
   /\ Forall (fun mesh => (mesh ∉ ["floor"%string]) /\ mesh <> "hall"%string)
        (StaticBatcher.mesh_of <$> StaticBatcher.arch))
  /\ fst (StaticBatcher.flush (fun _ => true) StaticBatcher.arch_scene "hall" ["floor"%string]
            (StaticBatcher.after StaticBatcher.arch))
     = [StaticBatcher.existing "floor";
        StaticBatcher.merged "granite" ["a"; "b"; "c"]%string
          ["block"; "block"; "block"]%string true false;
        StaticBatcher.existing "beam";
        StaticBatcher.instanced "post" "post" "wood" ["left"; "right"]%string true true].
Proof.
  assert (Hnodup : NoDup (StaticBatcher.mesh_of <$> StaticBatcher.arch)).
  { apply (bool_decide_unpack _). vm_compute. exact I. }
  assert (Hnew : Forall (fun mesh => (mesh ∉ ["floor"%string]) /\ mesh <> "hall"%string)
                   (StaticBatcher.mesh_of <$> StaticBatcher.arch)).
  { apply (bool_decide_unpack _). vm_compute. exact I. }
  split; [split; [exact Hnodup | exact Hnew] |].
  destruct (flush_draws_every_mesh_once (fun _ => true) StaticBatcher.arch_scene
              StaticBatcher.arch "hall" ["floor"%string] Hnodup Hnew) as (new & Hflush & _).
  vm_compute. reflexivity.
Defined.

Lemma flat_map_keys {G : Type} (f : string -> G -> list StaticBatcher.Object3D)
    (spec : string -> list StaticBatcher.Object3D) (groups : list (string * G)) :
  (forall k g, (k, g) ∈ groups -> f k g = spec k) ->
  flat_map (fun kg => f kg.1 kg.2) groups = flat_map spec groups.*1.
Proof.
  induction groups as [| [k g] groups IH]; simpl; intros Hf; [reflexivity |].
  rewrite (Hf k g) by left. rewrite IH; [reflexivity |].
  intros k' g' H. apply Hf. right. exact H.
Qed.

(** X24. Flushing batches by material and by key. The objects [flush]
    hands to [target.add], in order, are fixed by the meshes given: for
    each material a mesh had when it was given to [addMergeable], in the
    order the materials first came, the meshes of that material in the
    order they were given, as one merged mesh with the shadow flags the
    first has at the flush, or as themselves when there is one only or the
    merge fails; then for each key given to [addInstanceable], in the order
    the keys first came, the meshes given under it, as one instanced mesh
    with the geometry and the material the first had when it was given and
    the shadow flags it has at the flush, or as itself when there is one
    only. These objects draw the meshes given, each as often as it was
    given; what the target holds afterwards is what [add] makes of them,
    which keeps an object once, at the place of its last [add]. *)
Theorem flush_batches_by_material_and_key (merge : list string -> bool)
    (now : StaticBatcher.Scene) (calls : list StaticBatcher.Call) (target : string)
    (children : list string) :
  StaticBatcher.added merge now (StaticBatcher.after calls)
  = StaticBatcher.batches merge now calls
  /\ fst (StaticBatcher.flush merge now target children (StaticBatcher.after calls))
     = StaticBatcher.add_all target (StaticBatcher.batches merge now calls)
         (StaticBatcher.existing <$> children)
  /\ flat_map StaticBatcher.drawn (StaticBatcher.batches merge now calls)
     ≡ₚ StaticBatcher.mesh_of <$> calls.
Proof.
  assert (Hadded : StaticBatcher.added merge now (StaticBatcher.after calls)
                   = StaticBatcher.batches merge now calls).
  { destruct (after_filed calls) as [(Hmk & _ & Hm) (Hik & _ & Hi)].
    unfold StaticBatcher.added, StaticBatcher.batches.
    rewrite <- Hmk, <- Hik. f_equal.
    - apply (flat_map_keys (fun _ g => StaticBatcher.flush_merge merge now g)).
      intros k g Hin. destruct (Hm k g Hin) as [Hmeshes Hfixed].
      unfold StaticBatcher.flush_merge, StaticBatcher.merge_objects,
        StaticBatcher.merge_meshes in *.
      destruct (StaticBatcher.under k (omap StaticBatcher.mergeable calls))
        as [| first [| second rest]]; [discriminate | |];
        simpl in Hmeshes, Hfixed; injection Hmeshes as Hfirst Hmore;
        injection Hfixed as Hmat; rewrite Hmore, Hfirst, ?Hmat; reflexivity.
    - apply (flat_map_keys (fun k g => StaticBatcher.flush_instance now k g)).
      intros k g Hin. destruct (Hi k g Hin) as [Hmeshes Hfixed].
      unfold StaticBatcher.flush_instance, StaticBatcher.instance_objects,
        StaticBatcher.instance_meshes in *.
      destruct (StaticBatcher.under k (omap StaticBatcher.instanceable calls))
        as [| first [| second rest]]; [discriminate | |];
        simpl in Hmeshes, Hfixed; injection Hmeshes as Hfirst Hmore;
        injection Hfixed as Hgeo Hmat; rewrite Hmore, Hfirst, ?Hgeo, ?Hmat; reflexivity. }
  split; [exact Hadded |]. split.
  - unfold StaticBatcher.flush. simpl. rewrite Hadded. reflexivity.
  - rewrite <- Hadded. apply added_drawn.
Qed.

(** The arch: the stones merged, the beam as it is, the posts instanced. *)
Example arch_batches :
  StaticBatcher.added (fun _ => true) StaticBatcher.arch_scene
    (StaticBatcher.after StaticBatcher.arch)
  = [StaticBatcher.merged "granite" ["a"; "b"; "c"]%string
       ["block"; "block"; "block"]%string true false;
     StaticBatcher.existing "beam";
     StaticBatcher.instanced "post" "post" "wood" ["left"; "right"]%string true true].
Proof. vm_compute. reflexivity. Qed.

(** When the merge fails the stones are added one by one. *)
Example arch_unmerged :
  StaticBatcher.added (fun _ => false) StaticBatcher.arch_scene
    (StaticBatcher.after StaticBatcher.arch)
  = [StaticBatcher.existing "a"; StaticBatcher.existing "b"; StaticBatcher.existing "c";
     StaticBatcher.existing "beam";
     StaticBatcher.instanced "post" "post" "wood" ["left"; "right"]%string true true].
Proof. vm_compute. reflexivity. Qed.

(** A mesh given to both methods is handed to [add] twice and is a child
    of the target once; a mesh that was a child already moves to the
    end. *)
Example beam_given_twice :
  StaticBatcher.added (fun _ => true) StaticBatcher.arch_scene
    (StaticBatcher.after StaticBatcher.beam_twice)
  = [StaticBatcher.existing "beam"; StaticBatcher.existing "beam"]
  /\ fst (StaticBatcher.flush (fun _ => true) StaticBatcher.arch_scene "hall"
            ["beam"; "floor"]%string (StaticBatcher.after StaticBatcher.beam_twice))
     = [StaticBatcher.existing "floor"; StaticBatcher.existing "beam"].
Proof. split; vm_compute; reflexivity. Qed.
